(** * The step workflow of brambling/views/utils.py

    A shallow embedding of the classes [Workflow], [Step] and
    [WorkflowMixin], followed by the properties of the workflow state
    machine: construction, traversal over active steps, accessibility,
    completion with its two memoised values, and the routing done by the
    view mixin.  Further sections embed the other functions of the
    module ([clear_expired_carts], [NavItem], [get_event_admin_nav]),
    the filter [ljust] of the template tags, and the parts of the
    organizer's forms that compute: the dates and the editors of an
    event, and the code proposed for a discount. *)

From stdpp Require Import gmap strings list fin_maps sorting.

Set Default Proof Using "Type".
Local Open Scope string_scope.
Local Open Scope list_scope.
Local Open Scope nat_scope.

(** ** Exceptions *)

(** The exceptions the modelled code can raise.  [RuntimeError] is the
    interpreter's "maximum recursion depth exceeded".  [NoSuchStep] does
    not exist in the program: it is what a method of the model answers
    for a reference that designates no step object, which the program
    cannot form.  [ClassReplaced] is no exception either: it marks the
    point where a keyword argument [__class__] has made the object under
    construction an instance of another class; from there on the program
    runs with the attributes and the code of that class, which this
    model does not describe. *)
Inductive exn : Set :=
  | ValueError
  | AttributeError
  | TypeError
  | RuntimeError
  | NoSuchStep
  | ClassReplaced.

Global Instance exn_eq_dec : EqDecision exn.
Proof. solve_decision. Defined.

Section Brambling.

(** [value] is the type of the objects passed as keyword arguments,
    [World] the external state (database contents) that the hooks of a
    step consult. *)
Context {value World : Type}.

(** ** Step classes *)

(** A concrete subclass of [Step].  The class attributes [name], [url]
    and [slug] default to [None] in the base class; [view_name] is read
    by the mixin and declared by the subclasses.  The four functions are
    the overridable hooks; they see the attributes of the owning
    workflow (through [self.workflow]) and the external state, and are
    taken to answer without raising and without changing either. *)
Record StepClass : Type := {
  name : option string;
  url : option string;
  slug : option string;
  view_name : string;
  include_in : gmap string value → bool;
  is_active : gmap string value → World → bool;
  _is_completed : gmap string value → World → bool;
  get_errors : gmap string value → World → list string;
}.

(** The defaults of the base class for the three hooks it implements
    ([_is_completed] has none: the base raises NotImplementedError). *)
Definition Step_include_in : gmap string value → bool := λ _, true.
Definition Step_is_active_default : gmap string value → World → bool :=
  λ _ _, true.
Definition Step_get_errors : gmap string value → World → list string :=
  λ _ _, [].

(** ** Step instances *)

(** A step object.  [_completed] and [_errors] are [None] while the
    attribute is absent ([hasattr] false).  [completed_calls] and
    [errors_calls] are probes, not attributes: they count the
    invocations of [_is_completed] and [get_errors] on this object. *)
Record Step : Type := {
  step_class : StepClass;
  index : nat;
  _completed : option bool;
  _errors : option (list string);
  completed_calls : nat;
  errors_calls : nat;
}.

(** [Step.__init__(self, workflow, index)]; the back-reference to the
    workflow is the state the methods below run in. *)
Definition Step_init (cls : StepClass) (i : nat) : Step :=
  {| step_class := cls; index := i;
     _completed := None; _errors := None;
     completed_calls := 0; errors_calls := 0 |}.

(** ** Ordered dictionaries *)

(** [od[k] = v]: a key already present keeps its place and takes the new
    value, a new key goes to the end. *)
Fixpoint od_setitem {V : Type} (k : option string) (v : V)
    (od : list (option string * V)) : list (option string * V) :=
  match od with
  | [] => [(k, v)]
  | (k', v') :: od' =>
      if decide (k = k') then (k, v) :: od'
      else (k', v') :: od_setitem k v od'
  end.

(** [OrderedDict(items)] *)
Definition OrderedDict {V : Type} (items : list (option string * V))
    : list (option string * V) :=
  foldl (λ od kv, od_setitem kv.1 kv.2 od) [] items.

(** [od.get(k)], answering the position of the value in [od.values()]:
    a position stands for the identity of the step object. *)
Definition od_get {V : Type} (k : option string)
    (od : list (option string * V)) : option nat :=
  fst <$> list_find (λ kv, kv.1 = k) od.

(** ** Workflows *)

(** A workflow object: the ordered dictionary [steps], and the other
    entries of the instance dictionary, the attributes set from the
    keyword arguments. *)
Record Workflow : Type := {
  attrs : gmap string value;
  steps : list (option string * Step);
}.

(** [self.steps.values()] *)
Definition values (W : Workflow) : list Step := (steps W).*2.

(** What a keyword argument under the name [step_classes] yields when it
    is iterated ([None]: it is not iterable): each object it yields is a
    step class, or ([None]) an object without the attribute
    [include_in]. *)
Context (as_step_classes : value → option (list (option StepClass))).

(** What a keyword argument is to the interpreter when it is assigned to
    [__dict__] or to [__class__].  [as_dict v] is the dictionary that [v]
    is, read by its string keys ([None]: [v] is not a dictionary).
    [as_class v] tells whether [v] is a new-style class whose instances
    are laid out as those of the workflow class, which is what the
    interpreter requires of a new value of [__class__]. *)
Class ObjectKind : Type := {
  as_dict : value → option (gmap string value);
  as_class : value → bool;
}.

Context `{!ObjectKind}.

(** [setattr(self, k, v)] on a workflow under construction.  The class
    has four data descriptors, which take the assignment instead of the
    instance dictionary: the property [active_steps], which has no
    setter; [__weakref__], which is not writable; [__class__], which
    accepts only a class of the same layout and then replaces the class
    of the object; and [__dict__], which accepts only a dictionary and
    then replaces the instance dictionary, so that the attributes set
    before are gone and the entries of the new dictionary are the
    attributes.  Every other name is stored in the instance
    dictionary. *)
Definition setattr (k : string) (v : value) (obj : gmap string value)
    : exn + gmap string value :=
  if decide (k = "active_steps") then inl AttributeError
  else if decide (k = "__weakref__") then inl AttributeError
  else if decide (k = "__class__") then
    if as_class v then inl ClassReplaced else inl TypeError
  else if decide (k = "__dict__") then
    match as_dict v with
    | Some d => inr d
    | None => inl TypeError
    end
  else inr (<[k := v]> obj).

(** The names of the four data descriptors, which [setattr] does not
    store in the instance dictionary. *)
Definition descriptors : list string :=
  ["active_steps"; "__weakref__"; "__class__"; "__dict__"].

(** [for k, v in kwargs.items(): setattr(self, k, v)]; on failure the
    attributes set so far are returned with the exception. *)
Fixpoint setattrs (items : list (string * value)) (obj : gmap string value)
    : exn * gmap string value + gmap string value :=
  match items with
  | [] => inr obj
  | (k, v) :: rest =>
      match setattr k v obj with
      | inl e => inl (e, obj)
      | inr obj' => setattrs rest obj'
      end
  end.

(** The outcome of calling the class with keyword arguments: the new
    object, or an exception (or the mark [ClassReplaced]) together with
    the attributes that the object had when it was raised. *)
Inductive init_outcome : Type :=
  | Built (W : Workflow)
  | Failed (e : exn) (partial : gmap string value).

(** The step classes that the two last statements of [__init__] go
    through, [self.step_classes] iterated to its end.  An instance
    attribute shadows the class attribute.  [ifilter] raises [TypeError]
    on an object that is not iterable, and [cls.include_in] raises
    [AttributeError] on the first object yielded that is not a step
    class, both before [self.steps] is assigned. *)
Definition lookup_step_classes (step_classes : list StepClass)
    (obj : gmap string value) : exn + list StepClass :=
  match obj !! "step_classes" with
  | Some v =>
      match as_step_classes v with
      | None => inl TypeError
      | Some items =>
          match mapM id items with
          | None => inl AttributeError
          | Some registry => inr registry
          end
      end
  | None => inr step_classes
  end.

(** [Workflow.__init__] for a subclass whose class attribute
    [step_classes] is the given registry, on the keyword arguments that
    it receives as [kwargs].  [include_in] sees the instance dictionary
    as the loop has left it; the assignment to [self.steps] then takes
    the place of an entry [steps] that a new [__dict__] may have
    brought, and [attrs] holds the other entries. *)
Definition Workflow_init (step_classes : list StepClass)
    (kwargs : gmap string value) : init_outcome :=
  if decide (is_Some (kwargs !! "steps")) then Failed ValueError ∅
  else
    match setattrs (map_to_list kwargs) ∅ with
    | inl (e, obj) => Failed e obj
    | inr obj =>
        match lookup_step_classes step_classes obj with
        | inl e => Failed e obj
        | inr registry =>
            let cls_iter := filter (λ cls, include_in cls obj) registry in
            Built {| attrs := delete "steps" obj;
                     steps := OrderedDict
                       (imap (λ i cls, (slug cls, Step_init cls i)) cls_iter) |}
        end
    end.

(** The call of the class with keyword arguments.  One named
    [self] collides with the first parameter of [__init__]: the
    interpreter raises [TypeError] before the body runs, and [__init__]
    never receives such a name among its [kwargs]. *)
Definition Workflow_call (step_classes : list StepClass)
    (kwargs : gmap string value) : init_outcome :=
  if decide (is_Some (kwargs !! "self")) then Failed TypeError ∅
  else Workflow_init step_classes kwargs.

(** ** Traversal *)

(** [step.is_active()] for a step object of the workflow [W] *)
Definition step_active (w : World) (W : Workflow) (s : Step) : bool :=
  is_active (step_class s) (attrs W) w.

(** The body of the property [previous_step]: the first active step of
    [reversed(self.workflow.steps.values()[:self.index])], as its
    position in [values()]. *)
Definition previous_of (w : World) (W : Workflow) (s : Step) : option nat :=
  let scanned := reverse (take (index s) (values W)) in
  (λ hit, length scanned - S hit.1) <$>
    list_find (λ t, step_active w W t) scanned.

(** The body of the property [next_step]: the first active step of
    [self.workflow.steps.values()[self.index + 1:]]. *)
Definition next_of (w : World) (W : Workflow) (s : Step) : option nat :=
  (λ hit, index s + 1 + hit.1) <$>
    list_find (λ t, step_active w W t) (drop (index s + 1) (values W)).

(** ** Methods as state transformers *)

(** A method runs in the workflow its step belongs to, may fill the
    memoised attributes of the steps, and returns or raises.  The state
    reached when an exception is raised is kept. *)
Definition M (A : Type) : Type := Workflow → (exn + A) * Workflow.

Definition ret {A : Type} (a : A) : M A := λ W, (inr a, W).
Definition raise {A : Type} (e : exn) : M A := λ W, (inl e, W).
Definition bind {A B : Type} (m : M A) (k : A → M B) : M B :=
  λ W, match m W with
       | (inl e, W') => (inl e, W')
       | (inr a, W') => k a W'
       end.

Notation "'let*' x ':=' m 'in' k" := (bind m (λ x, k))
  (at level 10, x name, m at level 100, k at level 200, only parsing).

Definition get_workflow_state : M Workflow := λ W, (inr W, W).

(** Dereference a step object. *)
Definition get_step (r : nat) : M Step :=
  λ W, match values W !! r with
       | Some s => (inr s, W)
       | None => (inl NoSuchStep, W)
       end.

(** Mutate the step object at position [r] in place. *)
Definition update_step (r : nat) (f : Step → Step) (W : Workflow) : Workflow :=
  {| attrs := attrs W; steps := alter (λ kv, (kv.1, f kv.2)) r (steps W) |}.

(** [self._completed = self._is_completed()] *)
Definition assign_completed (w : World) (r : nat) : M bool :=
  let* s := get_step r in
  λ W, let c := _is_completed (step_class s) (attrs W) w in
       (inr c,
        update_step r (λ s, {| step_class := step_class s; index := index s;
                               _completed := Some c; _errors := _errors s;
                               completed_calls := S (completed_calls s);
                               errors_calls := errors_calls s |}) W).

(** [self._errors = self.get_errors()] *)
Definition assign_errors (w : World) (r : nat) : M (list string) :=
  let* s := get_step r in
  λ W, let e := get_errors (step_class s) (attrs W) w in
       (inr e,
        update_step r (λ s, {| step_class := step_class s; index := index s;
                               _completed := _completed s; _errors := Some e;
                               completed_calls := completed_calls s;
                               errors_calls := S (errors_calls s) |}) W).

(** [Step.is_active] *)
Definition Step_is_active (w : World) (r : nat) : M bool :=
  let* s := get_step r in
  λ W, (inr (step_active w W s), W).

(** The property [Step.previous_step] *)
Definition Step_previous_step (w : World) (r : nat) : M (option nat) :=
  let* s := get_step r in
  λ W, (inr (previous_of w W s), W).

(** The property [Step.next_step] *)
Definition Step_next_step (w : World) (r : nat) : M (option nat) :=
  let* s := get_step r in
  λ W, (inr (next_of w W s), W).

(** The property [Step.errors] *)
Definition Step_errors (w : World) (r : nat) : M (list string) :=
  let* s := get_step r in
  match _errors s with
  | Some e => ret e
  | None => assign_errors w r
  end.

(** [bool(l)] for a list *)
Definition truthy {A : Type} (l : list A) : bool :=
  match l with [] => false | _ :: _ => true end.

(** [Step.is_valid] *)
Definition Step_is_valid (w : World) (r : nat) : M bool :=
  let* e := Step_errors w r in
  ret (negb (truthy e)).

(** [Step.is_completed].  [depth] is the number of nested calls the
    interpreter still allows.  The property [previous_step] is read
    twice, as in the source. *)
Fixpoint Step_is_completed (depth : nat) (w : World) (r : nat) : M bool :=
  match depth with
  | 0 => raise RuntimeError
  | S depth' =>
      let* s := get_step r in
      let* c := match _completed s with
                | Some c => ret c
                | None => assign_completed w r
                end in
      if c then
        let* v := Step_is_valid w r in
        if v then
          let* p := Step_previous_step w r in
          match p with
          | None => ret true
          | Some _ =>
              let* p' := Step_previous_step w r in
              match p' with
              | None => raise AttributeError
              | Some q => Step_is_completed depth' w q
              end
          end
        else ret false
      else ret false
  end.

(** [Step.is_accessible] *)
Definition Step_is_accessible (depth : nat) (w : World) (r : nat) : M bool :=
  let* p := Step_previous_step w r in
  match p with
  | None => ret true
  | Some _ =>
      let* p' := Step_previous_step w r in
      match p' with
      | None => raise AttributeError
      | Some q => Step_is_completed depth w q
      end
  end.

(** The property [Workflow.active_steps]: the step objects are answered
    as their positions in [values()]. *)
Definition Workflow_active_steps (w : World) : M (list nat) :=
  λ W, (inr ((filter (λ it, step_active w W it.2)
                     (imap pair (values W))).*1), W).

(** ** The view mixin *)

(** [reverse(view_name, kwargs=...)] of the web framework *)
Context (reverse_url : string → gmap string value → string).

(** What [dispatch] answers: a redirect, or the response of the next
    [dispatch] in the method resolution order, which serves the request
    with [self.current_step] as given. *)
Inductive response : Type :=
  | HttpResponseRedirect (location : string)
  | SuperDispatch (current_step : option nat).

(** [WorkflowMixin._clean_kwargs]; a captured URL argument is [None] when
    its group did not take part in the match. *)
Definition WorkflowMixin_clean_kwargs (kwargs : gmap string (option value))
    : gmap string value :=
  omap id kwargs.

(** The loop [for step in reversed(...)] of [dispatch], answering the
    step on which it returns. *)
Fixpoint redirect_scan (depth : nat) (w : World) (candidates : list nat)
    : M (option nat) :=
  match candidates with
  | [] => ret None
  | r :: rest =>
      let* a := Step_is_accessible depth w r in
      if a then
        let* act := Step_is_active w r in
        if act then ret (Some r) else redirect_scan depth w rest
      else redirect_scan depth w rest
  end.

(** The condition of [dispatch]: [not self.current_step or not
    self.current_step.is_active() or not
    self.current_step.is_accessible()]. *)
Definition request_refused (depth : nat) (w : World)
    (current_step : option nat) : M bool :=
  match current_step with
  | None => ret true
  | Some r =>
      let* act := Step_is_active w r in
      if act then
        let* a := Step_is_accessible depth w r in
        ret (negb a)
      else ret true
  end.

(** The [else] branch of [dispatch]: a workflow and a slug are there. *)
Definition dispatch_step (depth : nat) (w : World) (current_step_slug : string)
    (kwargs : gmap string (option value)) : M response :=
  let* W := get_workflow_state in
  let current_step := od_get (Some current_step_slug) (steps W) in
  let* turned_down := request_refused depth w current_step in
  if turned_down then
    let* hit := redirect_scan depth w (reverse (seq 0 (length (values W)))) in
    match hit with
    | Some p =>
        let* s := get_step p in
        ret (HttpResponseRedirect
               (reverse_url (view_name (step_class s))
                            (WorkflowMixin_clean_kwargs kwargs)))
    | None => ret (SuperDispatch current_step)
    end
  else ret (SuperDispatch current_step).

(** [WorkflowMixin.dispatch]; [workflow] is the value of
    [self.get_workflow()]. *)
Definition WorkflowMixin_dispatch (depth : nat) (w : World)
    (workflow : option Workflow) (current_step_slug : option string)
    (kwargs : gmap string (option value))
    : (exn + response) * option Workflow :=
  match workflow, current_step_slug with
  | Some W, Some sl =>
      let out := dispatch_step depth w sl kwargs W in (out.1, Some out.2)
  | _, _ => (inr (SuperDispatch None), workflow)
  end.

(** [dispatch] returns the response [resp]. *)
Definition dispatch_returns (depth : nat) (w : World) (W : Workflow)
    (current_step_slug : string) (kwargs : gmap string (option value))
    (resp : response) : Prop :=
  ∃ W', WorkflowMixin_dispatch depth w (Some W) (Some current_step_slug) kwargs
        = (inr resp, Some W').

(** [dispatch] raises the exception [e]. *)
Definition dispatch_raises (depth : nat) (w : World) (W : Workflow)
    (current_step_slug : string) (kwargs : gmap string (option value))
    (e : exn) : Prop :=
  ∃ W', WorkflowMixin_dispatch depth w (Some W) (Some current_step_slug) kwargs
        = (inl e, Some W').

(** [WorkflowMixin.get_workflow] with the default [get_workflow_class]:
    the class is given by its registry. *)
Definition WorkflowMixin_get_workflow (workflow_class : list StepClass)
    (workflow_kwargs : gmap string value) : init_outcome :=
  Workflow_call workflow_class workflow_kwargs.

(** [WorkflowMixin.get_success_url] *)
Definition WorkflowMixin_get_success_url (w : World)
    (current_step : option nat) (kwargs : gmap string (option value))
    : M string :=
  match current_step with
  | None => raise AttributeError
  | Some r =>
      let* e := Step_errors w r in
      let* view :=
        if truthy e then
          let* s := get_step r in ret (view_name (step_class s))
        else
          let* n := Step_next_step w r in
          match n with
          | None => raise AttributeError
          | Some q => let* t := get_step q in ret (view_name (step_class t))
          end in
      ret (reverse_url view (WorkflowMixin_clean_kwargs kwargs))
  end.

(** ** Reading a step without running it *)

(** The value [self._completed] has or will get in the external state
    [w], and likewise for [self._errors]. *)
Definition effective_completed (w : World) (W : Workflow) (s : Step) : bool :=
  default (_is_completed (step_class s) (attrs W) w) (_completed s).

Definition effective_errors (w : World) (W : Workflow) (s : Step)
    : list string :=
  default (get_errors (step_class s) (attrs W) w) (_errors s).

(** What [is_completed] answers, as a function of the state it starts
    in. *)
Fixpoint completed_at (depth : nat) (w : World) (W : Workflow) (r : nat)
    : exn + bool :=
  match depth with
  | 0 => inl RuntimeError
  | S depth' =>
      match values W !! r with
      | None => inl NoSuchStep
      | Some s =>
          if effective_completed w W s then
            if negb (truthy (effective_errors w W s)) then
              match previous_of w W s with
              | None => inr true
              | Some q => completed_at depth' w W q
              end
            else inr false
          else inr false
      end
  end.

(** What [is_accessible] answers. *)
Definition accessible_at (depth : nat) (w : World) (W : Workflow) (r : nat)
    : exn + bool :=
  match values W !! r with
  | None => inl NoSuchStep
  | Some s =>
      match previous_of w W s with
      | None => inr true
      | Some q => completed_at depth w W q
      end
  end.

(** ** The words of the specification *)

(** The step at position [p] is active. *)
Definition active_at (w : World) (W : Workflow) (p : nat) : Prop :=
  ∃ t, values W !! p = Some t ∧ step_active w W t = true.

(** No step at a position in [lo, hi) is active. *)
Definition inactive_within (w : World) (W : Workflow) (lo hi : nat) : Prop :=
  ∀ q t, lo ≤ q < hi → values W !! q = Some t → step_active w W t = false.

(** [p] is the nearest active step strictly before position [i]. *)
Definition nearest_active_before (w : World) (W : Workflow) (i p : nat)
    : Prop :=
  p < i ∧ active_at w W p ∧ inactive_within w W (S p) i.

(** [p] is the nearest active step strictly after position [i]. *)
Definition nearest_active_after (w : World) (W : Workflow) (i p : nat)
    : Prop :=
  i < p ∧ active_at w W p ∧ inactive_within w W (S i) p.

(** No step strictly after position [i] is active. *)
Definition no_active_after (w : World) (W : Workflow) (i : nat) : Prop :=
  ∀ q t, i < q → values W !! q = Some t → step_active w W t = false.

(** The step at position [r] is served to a request: it is both
    accessible and active. *)
Definition open_at (depth : nat) (w : World) (W : Workflow) (r : nat)
    : Prop :=
  accessible_at depth w W r = inr true ∧ active_at w W r.

(** The step at position [r] is turned down without an exception: it is
    inaccessible, or accessible and inactive. *)
Definition closed_at (depth : nat) (w : World) (W : Workflow) (r : nat)
    : Prop :=
  accessible_at depth w W r = inr false ∨
  (accessible_at depth w W r = inr true ∧
   ∃ t, values W !! r = Some t ∧ step_active w W t = false).

(** [p] is the last step of [values()] that is accessible and active. *)
Definition last_open (depth : nat) (w : World) (W : Workflow) (p : nat)
    : Prop :=
  open_at depth w W p ∧
  ∀ q, p < q < length (values W) → closed_at depth w W q.

(** The step a request names under [slug] is turned down: there is no
    such step, or it is inactive, or it is active and inaccessible. *)
Definition refused (depth : nat) (w : World) (W : Workflow) (slug : string)
    : Prop :=
  od_get (Some slug) (steps W) = None ∨
  ∃ r t, od_get (Some slug) (steps W) = Some r ∧ values W !! r = Some t ∧
         (step_active w W t = false ∨
          accessible_at depth w W r = inr false).

(** The scan of the steps from the end comes to an end on the step at
    position [p], where [is_accessible()] raises [e]: every step after
    it is turned down without an exception. *)
Definition scan_raises (depth : nat) (w : World) (W : Workflow) (p : nat)
    (e : exn) : Prop :=
  p < length (values W) ∧ accessible_at depth w W p = inl e ∧
  ∀ q, p < q < length (values W) → closed_at depth w W q.

(** ** Memoisation *)

Definition cached {A : Type} (o : option A) : nat :=
  match o with Some _ => 1 | None => 0 end.

(** One step object at two moments of its life in the external state
    [w]: a memoised value stays, a new one is the hook's answer in [w],
    and each probe has advanced by one exactly if its value was stored in
    between. *)
Record step_evolves (w : World) (a : gmap string value) (s s' : Step)
    : Prop := {
  evolves_class : step_class s' = step_class s;
  evolves_index : index s' = index s;
  evolves_completed_kept :
    ∀ c, _completed s = Some c → _completed s' = Some c;
  evolves_errors_kept :
    ∀ e, _errors s = Some e → _errors s' = Some e;
  evolves_completed_new :
    ∀ c, _completed s = None → _completed s' = Some c →
         c = _is_completed (step_class s) a w;
  evolves_errors_new :
    ∀ e, _errors s = None → _errors s' = Some e →
         e = get_errors (step_class s) a w;
  evolves_completed_calls :
    completed_calls s' + cached (_completed s)
    = completed_calls s + cached (_completed s');
  evolves_errors_calls :
    errors_calls s' + cached (_errors s)
    = errors_calls s + cached (_errors s');
}.

(** A workflow at two moments. *)
Definition evolves (w : World) (W W' : Workflow) : Prop :=
  attrs W' = attrs W ∧
  Forall2 (λ kv kv', kv'.1 = kv.1 ∧ step_evolves w (attrs W) kv.2 kv'.2)
          (steps W) (steps W').

(** Each step carries its position in [values()] as its index. *)
Definition indexed_by_position (W : Workflow) : Prop :=
  ∀ r s, values W !! r = Some s → index s = r.

(** A workflow nobody has called yet. *)
Definition fresh (W : Workflow) : Prop :=
  ∀ r s, values W !! r = Some s →
    _completed s = None ∧ _errors s = None ∧
    completed_calls s = 0 ∧ errors_calls s = 0.

(** The calls a client makes on the steps of a workflow, and a client
    that makes a list of them in turn, catching what they raise. *)
Inductive call : Set :=
  | CallIsCompleted (r : nat)
  | CallErrors (r : nat)
  | CallIsValid (r : nat)
  | CallIsAccessible (r : nat).

Inductive answer : Set :=
  | AnsBool (b : bool)
  | AnsErrors (e : list string).

Definition run_call (depth : nat) (w : World) (c : call) : M answer :=
  match c with
  | CallIsCompleted r => let* b := Step_is_completed depth w r in ret (AnsBool b)
  | CallErrors r => let* e := Step_errors w r in ret (AnsErrors e)
  | CallIsValid r => let* b := Step_is_valid w r in ret (AnsBool b)
  | CallIsAccessible r => let* b := Step_is_accessible depth w r in ret (AnsBool b)
  end.

Fixpoint run_calls (depth : nat) (w : World) (cs : list call) (W : Workflow)
    : list (exn + answer) * Workflow :=
  match cs with
  | [] => ([], W)
  | c :: cs' =>
      let out := run_call depth w c W in
      let rest := run_calls depth w cs' out.2 in
      (out.1 :: rest.1, rest.2)
  end.

(** What a call answers, as a function of the state it starts in. *)
Definition answer_at (depth : nat) (w : World) (W : Workflow) (c : call)
    : exn + answer :=
  match c with
  | CallIsCompleted r =>
      match completed_at depth w W r with
      | inr b => inr (AnsBool b)
      | inl e => inl e
      end
  | CallErrors r =>
      match values W !! r with
      | Some s => inr (AnsErrors (effective_errors w W s))
      | None => inl NoSuchStep
      end
  | CallIsValid r =>
      match values W !! r with
      | Some s => inr (AnsBool (negb (truthy (effective_errors w W s))))
      | None => inl NoSuchStep
      end
  | CallIsAccessible r =>
      match accessible_at depth w W r with
      | inr b => inr (AnsBool b)
      | inl e => inl e
      end
  end.

(** [l] lists, in increasing order, the positions of the steps of
    [values()] that are active, and those steps are the active ones of
    [values()] in their order. *)
Definition active_subsequence (w : World) (W : Workflow) (l : list nat)
    : Prop :=
  StronglySorted lt l ∧
  (λ p, values W !! p) <$> l
    = Some <$> filter (λ t, step_active w W t) (values W) ∧
  ∀ p, p ∈ l ↔ active_at w W p.

(** ** Reading a workflow in one pass *)

(** The step answers for itself: its own completion holds, memoised or
    about to be, and it has no errors. *)
Definition own_done (w : World) (W : Workflow) (s : Step) : bool :=
  effective_completed w W s && negb (truthy (effective_errors w W s)).

(** Every active step among the first [n] of [values()] answers for
    itself. *)
Definition prefix_done (w : World) (W : Workflow) (n : nat) : bool :=
  forallb (λ t, implb (step_active w W t) (own_done w W t))
          (take n (values W)).

(** The position of the last active step of [values()]. *)
Definition last_active (w : World) (W : Workflow) : option nat :=
  (λ hit, length (values W) - S hit.1) <$>
    list_find (λ t, step_active w W t) (reverse (values W)).

(** The first active step that does not answer for itself, or the last
    active step when all of them do. *)
Definition frontier (w : World) (W : Workflow) : option nat :=
  match list_find (λ t, step_active w W t && negb (own_done w W t))
                  (values W) with
  | Some hit => Some hit.1
  | None => last_active w W
  end.

(** The step at position [r] is active and every active step before it
    answers for itself. *)
Definition served (w : World) (W : Workflow) (r : nat) : bool :=
  match values W !! r with
  | Some t => step_active w W t && prefix_done w W r
  | None => false
  end.

(** The response of [dispatch] to a request for [current_step_slug],
    read off the workflow without calling a method of a step. *)
Definition dispatch_outcome (w : World) (W : Workflow)
    (current_step_slug : string) (kwargs : gmap string (option value))
    : response :=
  let current_step := od_get (Some current_step_slug) (steps W) in
  if from_option (served w W) false current_step
  then SuperDispatch current_step
  else
    match frontier w W with
    | Some p =>
        match values W !! p with
        | Some t =>
            HttpResponseRedirect
              (reverse_url (view_name (step_class t))
                           (WorkflowMixin_clean_kwargs kwargs))
        | None => SuperDispatch current_step
        end
    | None => SuperDispatch current_step
    end.

(** No step sits before the place its index names. *)
Definition index_from_position (W : Workflow) : Prop :=
  ∀ r s, values W !! r = Some s → r ≤ index s.

(** What no call changes in a workflow, in whatever external state it is
    made: the attributes, the keys and their order, the class and the
    index of each step, and the values that have been memoised. *)
Definition same_structure (W W' : Workflow) : Prop :=
  attrs W' = attrs W ∧
  Forall2 (λ kv kv', kv'.1 = kv.1 ∧
                     step_class kv'.2 = step_class kv.2 ∧
                     index kv'.2 = index kv.2 ∧
                     (∀ c, _completed kv.2 = Some c →
                           _completed kv'.2 = Some c) ∧
                     (∀ e, _errors kv.2 = Some e → _errors kv'.2 = Some e))
          (steps W) (steps W').

(** ** The mixin with nothing overridden *)

(** [WorkflowMixin.get_workflow] with [get_workflow_class] and
    [get_workflow_kwargs] as the mixin defines them: the class attribute
    [workflow_class] is [None] unless the view sets it, and is called
    with no keyword argument.  Calling [None] raises [TypeError]. *)
Definition WorkflowMixin_get_workflow_default
    (workflow_class : option (list StepClass)) : init_outcome :=
  match workflow_class with
  | None => Failed TypeError ∅
  | Some registry => WorkflowMixin_get_workflow registry ∅
  end.

(** [WorkflowMixin.dispatch] from its first statement, which builds the
    workflow of the request. *)
Definition WorkflowMixin_dispatch_request (depth : nat) (w : World)
    (workflow_class : option (list StepClass))
    (current_step_slug : option string)
    (kwargs : gmap string (option value))
    : (exn + response) * option Workflow :=
  match WorkflowMixin_get_workflow_default workflow_class with
  | Built W => WorkflowMixin_dispatch depth w (Some W) current_step_slug kwargs
  | Failed e _ => (inl e, None)
  end.

End Brambling.

Arguments StepClass : clear implicits.
Arguments Step : clear implicits.
Arguments Workflow : clear implicits.
Arguments init_outcome : clear implicits.
Arguments ObjectKind : clear implicits.
Arguments M : clear implicits.

(** * Expired carts

    [clear_expired_carts] of brambling/views/utils.py, over the rows of
    the table of bought items.  A row is read through the three columns
    the query names: its status, and through its order the event and the
    time the cart was started.  [Status] is the type of the column
    [status], of which the code names the value [RESERVED]; [EventId]
    is the type of the primary keys of events.  A moment is a number of
    microseconds, the resolution of [datetime]. *)

Section Carts.

Context {Status EventId : Type} `{!EqDecision Status, !EqDecision EventId}.
Context (RESERVED : Status).

Record Event : Type := {
  event_pk : EventId;
  cart_timeout : Z;
}.

Record Order : Type := {
  order_event : EventId;
  cart_start_time : option Z;
}.

(** [order] is [None] for a row without an order, which no condition
    on the columns of the order selects. *)
Record BoughtItem : Type := {
  status : Status;
  order : option Order;
}.

(** [timedelta(minutes=n)] *)
Definition timedelta_minutes (n : Z) : Z := (n * 60000000)%Z.

(** The rows selected by [filter(status=BoughtItem.RESERVED,
    order__event=event, order__cart_start_time__isnull=False,
    order__cart_start_time__lte=expired_before)]. *)
Definition expired_reservation (event : Event) (expired_before : Z)
    (item : BoughtItem) : bool :=
  bool_decide (status item = RESERVED) &&
  match order item with
  | Some o =>
      bool_decide (order_event o = event_pk event) &&
      match cart_start_time o with
      | Some started => bool_decide (started ≤ expired_before)%Z
      | None => false
      end
  | None => false
  end.

(** [clear_expired_carts(event)] at the moment [now] that
    [timezone.now()] answers: the table after the selected rows have
    been deleted. *)
Definition clear_expired_carts (now : Z) (event : Event)
    (table : list BoughtItem) : list BoughtItem :=
  let expired_before := (now - timedelta_minutes (cart_timeout event))%Z in
  filter (λ item, expired_reservation event expired_before item = false) table.

End Carts.

Arguments Event : clear implicits.
Arguments Order : clear implicits.
Arguments BoughtItem : clear implicits.

(** * The navigation of an event

    [NavItem] and [get_event_admin_nav] of brambling/views/utils.py.  Of
    the request an item keeps, only the path is read. *)

Module NavItem.

Record t : Type := {
  request_path : string;
  url : string;
  label : string;
  disabled : bool;
  icon : string;
}.

(** [NavItem.__init__(self, request, url, label, icon, disabled=False)] *)
Definition init (request_path url label icon : string) : t :=
  {| request_path := request_path; url := url; label := label;
     disabled := false; icon := icon |}.

(** [self.request.path.startswith(self.url)] *)
Definition is_active (item : t) : bool :=
  String.prefix (url item) (request_path item).

End NavItem.

(** The tuple [items] of [get_event_admin_nav]: view name, label,
    icon. *)
Definition admin_nav_items : list (string * string * string) :=
  [("brambling_event_summary", "Summary", "fa-dashboard");
   ("brambling_event_update", "Settings", "fa-cog");
   ("brambling_item_list", "Items", "fa-list");
   ("brambling_form_list", "Forms", "fa-question");
   ("brambling_discount_list", "Discounts", "fa-gift");
   ("brambling_event_attendees", "Attendees", "fa-users");
   ("brambling_event_orders", "Orders", "fa-ticket");
   ("brambling_event_finances", "Finances", "fa-money")].

(** [get_event_admin_nav(event, request)]: [editable] is the answer of
    [event.editable_by(request.user)], [reverse] the resolver of the
    web framework, taken to answer for each of the eight views. *)
Definition get_event_admin_nav (reverse : string → gmap string string → string)
    (editable : bool) (event_slug organization_slug request_path : string)
    : list NavItem.t :=
  if negb editable then []
  else
    let kwargs : gmap string string :=
      {[ "event_slug" := event_slug;
         "organization_slug" := organization_slug ]} in
    (λ it, NavItem.init request_path (reverse it.1.1 kwargs) it.1.2 it.2)
      <$> admin_nav_items.

(** * The filter [ljust]

    [ljust] of brambling/templatetags/brambling_plaintext.py, with the
    method [ljust] of the strings of the language it calls. *)

Module Plaintext.

(** The values a template hands to the filter: a string, an integer (a
    boolean, or another value that the interpreter takes for an integer
    where it expects a size, counts as that integer), or a value that
    is neither and has no attribute [ljust], such as [None], a float or
    a list. *)
Inductive pyvalue : Type :=
  | PyStr (s : string)
  | PyInt (n : Z)
  | PyOther.

Inductive error : Set :=
  | AttributeError
  | TypeError
  | OverflowError
  | MemoryError.

(** What the interpreter answers when a string of a given number of
    characters is to be made: the memory for it, [MemoryError] when it
    cannot get the memory, or [OverflowError] for a size that it refuses
    before it asks for memory. *)
Inductive allocation : Set :=
  | Allocated
  | NoMemory
  | TooLarge.

(** [c * n] for a string [c] of one character *)
Fixpoint fill (c : Ascii.ascii) (n : nat) : string :=
  match n with
  | 0 => ""
  | S n' => String c (fill c n')
  end.

Section Ljust.

(** [sys.maxsize], the largest size the interpreter can hold, and the
    answer of the interpreter, at the moment of the call, to the request
    for a string of a given number of characters. *)
Context (maxsize : Z) (allocate : Z → allocation).

(** The method [s.ljust(width, fillchar)] of a string.  The arguments
    are parsed in their order: the width must be an integer, and one
    that fits a size; the fill must be a string of exactly one
    character.  The string comes back as it is when it is at least
    [width] long; otherwise a string of [width] characters is made,
    which the interpreter may refuse. *)
Definition str_ljust (s : string) (width fillchar : pyvalue)
    : error + string :=
  match width with
  | PyInt n =>
      if bool_decide (- maxsize - 1 ≤ n ≤ maxsize)%Z then
        match fillchar with
        | PyStr (String c "") =>
            if bool_decide (n ≤ Z.of_nat (String.length s))%Z then inr s
            else
              match allocate n with
              | Allocated =>
                  inr (s +:+ fill c (Z.to_nat n - String.length s))
              | NoMemory => inl MemoryError
              | TooLarge => inl OverflowError
              end
        | _ => inl TypeError
        end
      else inl OverflowError
  | _ => inl TypeError
  end.

(** [string.ljust(width, fillchar)]: looking [ljust] up on a value that
    is not a string raises [AttributeError]. *)
Definition call_ljust (string width fillchar : pyvalue)
    : error + String.string :=
  match string with
  | PyStr s => str_ljust s width fillchar
  | _ => inl AttributeError
  end.

(** The filter [ljust(string, width, fillchar=' ')]: of the exceptions
    of the call it catches [AttributeError] and [TypeError]. *)
Definition ljust (string width fillchar : pyvalue) : error + String.string :=
  match call_ljust string width fillchar with
  | inl AttributeError => inr ""
  | inl TypeError => inr ""
  | outcome => outcome
  end.

End Ljust.

End Plaintext.

(** * The form of an event

    Of [EventForm] in brambling/forms/organizer.py: the block of [save]
    that runs when the event is created or its dates change, and
    [clean_editors]. *)

Module EventForm.

Inductive error : Set :=
  | OverflowError
  | KeyError
  | ValidationError.

(** A date is its ordinal ([date.toordinal()]): [date.min] is day 1 and
    [date.max] day 3652059. *)
Definition date_min : Z := 1.
Definition date_max : Z := 3652059.

(** [d + datetime.timedelta(days)] *)
Definition date_add (d days : Z) : error + Z :=
  if bool_decide (date_min ≤ d + days ≤ date_max)%Z then inr (d + days)%Z
  else inl OverflowError.

(** [xrange(k)] *)
Definition xrange (k : Z) : list Z := Z.of_nat <$> seq 0 (Z.to_nat k).

(** [{start_date + datetime.timedelta(n - 1) for n in ns}]: the
    elements are computed in turn. *)
Fixpoint date_set_of (start_date : Z) (ns : list Z) : error + gset Z :=
  match ns with
  | [] => inr ∅
  | n :: ns' =>
      match date_add start_date (n - 1) with
      | inl e => inl e
      | inr d =>
          match date_set_of start_date ns' with
          | inl e => inl e
          | inr ds => inr ({[ d ]} ∪ ds)
          end
      end
  end.

(** The block of [save] under [if {'start_date', 'end_date'} &
    set(self.changed_data) or created].  The table [Date] is the list of
    the dates of its rows; the block answers the rows assigned to
    [instance.housing_dates] and to [instance.dates], or the exception
    it raises, together with the table it leaves.  A set is iterated in
    an order of its own ([elements]). *)
Definition save_dates (start_date end_date : Z) (table : list Z)
    : (error + list Z * list Z) * list Z :=
  match date_set_of start_date (xrange (end_date - start_date + 2)) with
  | inl e => (inl e, table)
  | inr date_set =>
      let seen : gset Z := list_to_set (filter (λ d, d ∈ date_set) table) in
      let table' := table ++ filter (λ d, d ∉ seen) (elements date_set) in
      let housing := filter (λ d, d ∈ date_set) table' in
      match date_add start_date (-1) with
      | inl e => (inl e, table')
      | inr eve =>
          if decide (eve ∈ date_set) then
            let date_set' := date_set ∖ {[ eve ]} in
            (inr (housing, filter (λ d, d ∈ date_set') table'), table')
          else (inl KeyError, table')
      end
  end.

Section CleanEditors.

(** The characters of the strings of the language, with the comma and
    the test [isspace] that [strip] applies; [validator x] tells whether
    [EmailValidator()(x)] returns, rather than raise
    [ValidationError]. *)
Context {char : Type} `{!EqDecision char}.
Context (comma : char) (isspace : char → bool).
Context (validator : list char → bool).

(** [s.split(sep)] for a separator of one character *)
Fixpoint split (sep : char) (s : list char) : list (list char) :=
  match s with
  | [] => [[]]
  | c :: s' =>
      if decide (c = sep) then [] :: split sep s'
      else
        match split sep s' with
        | piece :: rest => (c :: piece) :: rest
        | [] => [[c]]
        end
  end.

(** [s.lstrip()], [s.rstrip()] and [s.strip()] *)
Fixpoint lstrip (s : list char) : list char :=
  match s with
  | [] => []
  | c :: s' => if isspace c then lstrip s' else s
  end.

Definition rstrip (s : list char) : list char :=
  reverse (lstrip (reverse s)).

Definition strip (s : list char) : list char := rstrip (lstrip s).

(** [EventForm.clean_editors], on the value of
    [self.cleaned_data['editors']] *)
Definition clean_editors (editors : list char) : error + list (list char) :=
  match editors with
  | [] => inr []
  | _ :: _ =>
      let editors' := strip <$> split comma editors in
      if forallb validator editors' then inr editors'
      else inl ValidationError
  end.

End CleanEditors.

End EventForm.

(** * The code of a discount

    The loop of [DiscountForm.__init__] in brambling/forms/organizer.py
    that proposes a code for a discount without one. *)

Module DiscountForm.

Section GeneratedCode.

(** [EventId] is the type of the primary keys of events; a row of the
    table of discounts is read through its event and its code.
    [get_random_string n] is what the [n]-th call of
    [get_random_string(6)] answers. *)
Context {EventId : Type} `{!EqDecision EventId}.
Context (get_random_string : nat → string).

(** [Discount.objects.filter(event=self.event, code=code).exists()] *)
Definition code_exists (table : list (EventId * string)) (event : EventId)
    (code : string) : bool :=
  bool_decide ((event, code) ∈ table).

(** The loop [while ...exists(): self.generated_code =
    get_random_string(6)], entered with the answer of call [n] as the
    code and allowed [fuel] further calls; [None] when they do not
    suffice. *)
Fixpoint redraw (fuel : nat) (table : list (EventId * string))
    (event : EventId) (n : nat) (generated_code : string) : option string :=
  if code_exists table event generated_code then
    match fuel with
    | 0 => None
    | S fuel' =>
        redraw fuel' table event (S n) (get_random_string (S n))
    end
  else Some generated_code.

(** The value of [self.generated_code] after [__init__]: it stays at
    [None], the class attribute, for an instance that has a code. *)
Definition generated_code (fuel : nat) (table : list (EventId * string))
    (event : EventId) (instance_code : string) : option (option string) :=
  if decide (instance_code = "") then
    Some <$> redraw fuel table event 0 (get_random_string 0)
  else Some None.

End GeneratedCode.

End DiscountForm.

(** * A wizard of three steps

    The concrete workflows the general statements below are tried on.
    Keyword arguments are numbers, and the external state is the list of
    the facts that hold in the database. *)

Definition fact (f : string) (w : list string) : bool := bool_decide (f ∈ w).

(** A step class in the manner of the subclasses of the views: it is
    left out of a workflow built with the attribute [skip_<slug>], it is
    inactive when [off_<slug>] holds, its own completion is the fact
    [done_<slug>], and it reports an error when [bad_<slug>] holds. *)
Definition wizard_step (sl : string) : StepClass nat (list string) :=
  {| name := Some sl; url := None; slug := Some sl;
     view_name := "view_" +:+ sl;
     include_in := λ a, bool_decide (a !! ("skip_" +:+ sl) = None);
     is_active := λ _ w, negb (fact ("off_" +:+ sl) w);
     _is_completed := λ _ w, fact ("done_" +:+ sl) w;
     get_errors := λ _ w, if fact ("bad_" +:+ sl) w then ["invalid"] else [] |}.

(** A second class declared with the slug of [wizard_step "a"]. *)
Definition wizard_twin : StepClass nat (list string) :=
  {| name := Some "twin"; url := None; slug := Some "a";
     view_name := "view_twin";
     include_in := Step_include_in;
     is_active := Step_is_active_default;
     _is_completed := λ _ w, fact "done_twin" w;
     get_errors := Step_get_errors |}.

(** Among the numbers only 0 can be iterated, and it yields nothing. *)
Definition as_no_classes (v : nat)
    : option (list (option (StepClass nat (list string)))) :=
  match v with 0 => Some [] | S _ => None end.

(** A number is neither a dictionary nor a class. *)
Global Instance nat_kind : ObjectKind nat :=
  {| as_dict := λ _, None; as_class := λ _, false |}.

Definition url_of (view : string) (kwargs : gmap string nat) : string :=
  "/" +:+ view.

Definition wizard : list (StepClass nat (list string)) :=
  [wizard_step "a"; wizard_step "b"; wizard_step "c"].

Definition step_a : Step nat (list string) := Step_init (wizard_step "a") 0.
Definition step_b : Step nat (list string) := Step_init (wizard_step "b") 1.
Definition step_c : Step nat (list string) := Step_init (wizard_step "c") 2.

(** The workflow of the three steps, as built without arguments. *)
Definition abc : Workflow nat (list string) :=
  {| attrs := ∅;
     steps := [(Some "a", step_a); (Some "b", step_b); (Some "c", step_c)] |}.

(** The workflow of the first step alone, and the one of no step. *)
Definition only_a : Workflow nat (list string) :=
  {| attrs := ∅; steps := [(Some "a", step_a)] |}.

Definition no_steps : Workflow nat (list string) :=
  {| attrs := ∅; steps := [] |}.

(** External states: the first two steps are done; the first is done
    and the second switched off; the first is switched off; the first
    alone is done. *)
Definition w_ab : list string := ["done_a"; "done_b"].
Definition w_a_off_b : list string := ["done_a"; "off_b"].
Definition w_off_a : list string := ["off_a"].
Definition w_a : list string := ["done_a"].

(** [abc] after [is_completed()] has been called on its second step. *)
Definition abc_after : Workflow nat (list string) :=
  (Step_is_completed 5 w_ab 1 abc).2.

(** The calls of a client that asks the same questions several times. *)
Definition asked_twice : list call :=
  [CallIsCompleted 1; CallErrors 0; CallIsCompleted 1; CallIsAccessible 2;
   CallErrors 0; CallIsValid 1; CallIsCompleted 0].

(** The workflow built from the first definition and its twin: one
    step, which carries the index of the twin. *)
Definition twins : Workflow nat (list string) :=
  {| attrs := ∅; steps := [(Some "a", Step_init wizard_twin 1)] |}.

(** Objects some of which are dictionaries and classes: a number, a
    dictionary of numbers, and a class of the layout of the workflow. *)
Inductive pyobject : Type :=
  | PyNum (n : nat)
  | PyDict (items : list (string * nat))
  | PyClass.

Global Instance pyobject_kind : ObjectKind pyobject :=
  {| as_dict := λ v,
       match v with
       | PyDict items => Some (list_to_map (prod_map id PyNum <$> items))
       | _ => None
       end;
     as_class := λ v, match v with PyClass => true | _ => false end |}.

(** The workflow of a step followed by the twin definitions: the twin
    has taken the place of the second definition and kept its own index,
    2, at position 1. *)
Definition x_twins : Workflow nat (list string) :=
  {| attrs := ∅;
     steps := [(Some "x", Step_init (wizard_step "x") 0);
               (Some "a", Step_init wizard_twin 2)] |}.

(** Two steps that the same view serves. *)
Definition shared_step (sl : string) : StepClass nat (list string) :=
  {| name := Some sl; url := None; slug := Some sl;
     view_name := "view_shared";
     include_in := Step_include_in;
     is_active := Step_is_active_default;
     _is_completed := λ _ w, fact ("done_" +:+ sl) w;
     get_errors := Step_get_errors |}.

Definition same_view : Workflow nat (list string) :=
  {| attrs := ∅;
     steps := [(Some "a", Step_init (shared_step "a") 0);
               (Some "b", Step_init (shared_step "b") 1)] |}.

(** External states: the three steps are done; the first reports an
    error; the twin is done; the step [x] and the twin are done. *)
Definition w_abc : list string := ["done_a"; "done_b"; "done_c"].
Definition w_bad_a : list string := ["done_a"; "bad_a"].
Definition w_twin : list string := ["done_twin"].
Definition w_x_twin : list string := ["done_x"; "done_twin"].

(** [abc] after [errors] has been read on its first step in [w_a]. *)
Definition abc_read : Workflow nat (list string) :=
  (Step_errors w_a 0 abc).2.

(** * Two carts, a form

    A table of bought items for the events 1 and 2, with [true] for the
    status [RESERVED]: a cart of event 1 started at the moment 0, one
    started after 20 minutes, a bought item, and a cart of event 2. *)

Definition minute : Z := 60000000.

Definition event_1 : Event nat := {| event_pk := 1; cart_timeout := 15 |}.
Definition event_2 : Event nat := {| event_pk := 2; cart_timeout := 5 |}.

Definition bought_items : list (BoughtItem bool nat) :=
  [{| status := true;
      order := Some {| order_event := 1; cart_start_time := Some 0%Z |} |};
   {| status := true;
      order := Some {| order_event := 1;
                       cart_start_time := Some (20 * minute)%Z |} |};
   {| status := false;
      order := Some {| order_event := 1; cart_start_time := Some 0%Z |} |};
   {| status := true;
      order := Some {| order_event := 2; cart_start_time := Some 0%Z |} |};
   {| status := true;
      order := Some {| order_event := 2; cart_start_time := None |} |}].

(** Characters as bytes, named by their codes: the blank (32) and the
    tabulation (9) as spaces, the comma (44), and a validator that asks
    for an at sign (64). *)
Definition char_of (n : nat) : Ascii.ascii := Ascii.ascii_of_nat n.

Definition is_blank (c : Ascii.ascii) : bool :=
  bool_decide (c = char_of 32) || bool_decide (c = char_of 9).

Definition has_at (x : list Ascii.ascii) : bool :=
  bool_decide (char_of 64 ∈ x).

Definition two_editors : list Ascii.ascii :=
  String.list_ascii_of_string "a@b.org, c@d.org ".

(** The answers of [get_random_string], the first two of which are the
    codes of discounts of event 1. *)
Definition draws (n : nat) : string :=
  match n with
  | 0 => "AAAAAA"
  | 1 => "BBBBBB"
  | _ => "CCCCCC"
  end.

(** An interpreter that gets the memory for a string of up to 2^31
    characters, and refuses outright a size within 64 of
    [sys.maxsize]. *)
Definition memory (n : Z) : Plaintext.allocation :=
  if bool_decide (n ≤ 2147483648)%Z then Plaintext.Allocated
  else if bool_decide (n ≤ 9223372036854775807 - 64)%Z then Plaintext.NoMemory
  else Plaintext.TooLarge.

Definition discounts : list (nat * string) :=
  [(1, "AAAAAA"); (2, "CCCCCC"); (1, "BBBBBB")].

(** * Properties *)

Section Properties.

Context {value World : Type}.
Context (as_step_classes
  : value → option (list (option (StepClass value World)))).
Context `{!ObjectKind value}.
Context (reverse_url : string → gmap string value → string).

Implicit Types (W : Workflow value World) (s t : Step value World).
Implicit Types (w : World) (cls : StepClass value World).
Implicit Types (kwargs : gmap string value).

(** ** Construction *)

Lemma od_setitem_fresh {V : Type} (k : option string) (v : V)
    (od : list (option string * V)) :
  k ∉ od.*1 → od_setitem k v od = od ++ [(k, v)].
Proof.
  induction od as [|[k' v'] od IH]; simpl; [done|].
  intros Hk. apply not_elem_of_cons in Hk as [Hne Hk].
  rewrite decide_False by done. by rewrite IH.
Qed.

Lemma OrderedDict_acc {V : Type} (items acc : list (option string * V)) :
  NoDup (acc.*1 ++ items.*1) →
  foldl (λ od kv, od_setitem kv.1 kv.2 od) acc items = acc ++ items.
Proof.
  revert acc. induction items as [|[k v] items IH]; intros acc Hnd; simpl.
  - by rewrite app_nil_r.
  - rewrite od_setitem_fresh.
    + rewrite IH; [by rewrite <- app_assoc|].
      by rewrite fmap_app, <- app_assoc.
    + simpl in Hnd. apply NoDup_app in Hnd as (_ & Hdis & _).
      intros Hin. apply (Hdis _ Hin). simpl. left.
Qed.

(** With pairwise distinct keys the dictionary holds the items as
    given. *)
Lemma OrderedDict_NoDup {V : Type} (items : list (option string * V)) :
  NoDup items.*1 → OrderedDict items = items.
Proof. intros Hnd. unfold OrderedDict. by rewrite OrderedDict_acc. Qed.

Lemma setattr_stores k v (obj : gmap string value) :
  k ∉ descriptors → setattr k v obj = inr (<[k := v]> obj).
Proof.
  intros Hk. unfold setattr.
  repeat (rewrite decide_False;
          [|intros ->; apply Hk; unfold descriptors; repeat constructor]).
  done.
Qed.

Lemma setattrs_all (items : list (string * value)) (obj : gmap string value) :
  NoDup items.*1 → (∀ k, k ∈ descriptors → k ∉ items.*1) →
  setattrs items obj = inr (list_to_map items ∪ obj).
Proof.
  revert obj. induction items as [|[k v] items IH]; intros obj Hnd Hk.
  - simpl. by rewrite (left_id_L ∅ (∪)).
  - rewrite fmap_cons in Hnd. simpl in Hnd.
    apply NoDup_cons in Hnd as [Hfresh Hnd].
    simpl. rewrite setattr_stores.
    2:{ intros Hd. apply (Hk _ Hd). rewrite fmap_cons. by left. }
    rewrite IH; [|done|].
    2:{ intros k' Hd Hin. apply (Hk _ Hd). rewrite fmap_cons. by right. }
    f_equal.
    rewrite <- insert_union_l. symmetry. apply insert_union_r.
    by apply not_elem_of_list_to_map_1.
Qed.

Lemma setattrs_kwargs kwargs :
  (∀ k, k ∈ descriptors → kwargs !! k = None) →
  setattrs (map_to_list kwargs) ∅ = inr kwargs.
Proof.
  intros Hk. rewrite setattrs_all.
  - by rewrite list_to_map_to_list, (right_id_L ∅ (∪)).
  - apply NoDup_fst_map_to_list.
  - intros k Hd Hin. apply list_elem_of_fmap in Hin as ([k' v] & Heq & Hin).
    apply elem_of_map_to_list in Hin. simpl in Heq. subst k'.
    rewrite (Hk _ Hd) in Hin. done.
Qed.

Lemma descriptors_absent kwargs :
  kwargs !! "active_steps" = None → kwargs !! "__weakref__" = None →
  kwargs !! "__class__" = None → kwargs !! "__dict__" = None →
  ∀ k, k ∈ descriptors → kwargs !! k = None.
Proof.
  intros H1 H2 H3 H4 k Hk. unfold descriptors in Hk.
  repeat (apply elem_of_cons in Hk as [->|Hk]; [done|]).
  by apply elem_of_nil in Hk.
Qed.

Lemma imap_fst_slug (l : list (StepClass value World)) :
  (imap (λ i cls, (slug cls, Step_init cls i)) l).*1 = slug <$> l.
Proof. rewrite fmap_imap. exact (imap_const slug l). Qed.

Lemma imap_snd_step (l : list (StepClass value World)) :
  (imap (λ i cls, (slug cls, Step_init cls i)) l).*2
  = imap (λ i cls, Step_init cls i) l.
Proof. by rewrite fmap_imap. Qed.

(** ** Traversal *)

Lemma previous_of_Some w W s p :
  previous_of w W s = Some p ↔ nearest_active_before w W (index s) p.
Proof.
  unfold previous_of, nearest_active_before, active_at, inactive_within.
  set (l := take (index s) (values W)).
  assert (Hlen : length l = index s `min` length (values W))
    by apply length_take.
  rewrite fmap_Some. split.
  - intros ([i x] & Hfind & ->).
    apply list_find_Some in Hfind as (Hl & HP & Hbefore). simpl.
    pose proof (lookup_lt_Some _ _ _ Hl) as Hi.
    rewrite length_reverse in Hi |- *.
    rewrite reverse_lookup in Hl by done.
    apply lookup_take_Some in Hl as [Hx Hp].
    split; [done|]. split; [exists x; split; [done|by apply Is_true_true]|].
    intros q t [Hq1 Hq2] Hq.
    pose proof (lookup_lt_Some _ _ _ Hq) as Hq3.
    apply Is_true_false, (Hbefore (length l - S q)); [|lia].
    rewrite reverse_lookup by lia.
    replace (length l - S (length l - S q)) with q by lia.
    unfold l. by rewrite lookup_take_lt.
  - intros (Hp & (t & Ht & Hact) & Hbetween).
    pose proof (lookup_lt_Some _ _ _ Ht) as Hp'.
    exists (length l - S p, t). split.
    + apply list_find_Some. split_and!.
      * rewrite reverse_lookup by lia.
        replace (length l - S (length l - S p)) with p by lia.
        unfold l. by rewrite lookup_take_lt.
      * by apply Is_true_true.
      * intros j y Hj Hlt. apply Is_true_false.
        pose proof (lookup_lt_Some _ _ _ Hj) as Hj'.
        rewrite length_reverse in Hj'.
        rewrite reverse_lookup in Hj by done.
        apply lookup_take_Some in Hj as [Hy Hj''].
        apply (Hbetween (length l - S j)); [lia|done].
    + simpl. rewrite length_reverse. lia.
Qed.

Lemma previous_of_None w W s :
  previous_of w W s = None ↔ inactive_within w W 0 (index s).
Proof.
  unfold previous_of, inactive_within.
  rewrite fmap_None, list_find_None, Forall_forall. split.
  - intros Hall q t [_ Hq] Ht. apply Is_true_false, Hall.
    apply elem_of_reverse, elem_of_take. eauto.
  - intros Hall x Hx. apply elem_of_reverse, elem_of_take in Hx as (i & Hi & Hlt).
    apply Is_true_false. apply (Hall i); [lia|done].
Qed.

Lemma next_of_Some w W s p :
  next_of w W s = Some p ↔ nearest_active_after w W (index s) p.
Proof.
  unfold next_of, nearest_active_after, active_at, inactive_within.
  rewrite fmap_Some. split.
  - intros ([i x] & Hfind & ->).
    apply list_find_Some in Hfind as (Hl & HP & Hbefore). simpl.
    rewrite lookup_drop in Hl.
    split; [lia|]. split; [exists x; split; [done|by apply Is_true_true]|].
    intros q t [Hq1 Hq2] Hq.
    apply Is_true_false, (Hbefore (q - (index s + 1))); [|lia].
    rewrite lookup_drop.
    by replace (index s + 1 + (q - (index s + 1))) with q by lia.
  - intros (Hp & (t & Ht & Hact) & Hbetween).
    exists (p - (index s + 1), t). split.
    + apply list_find_Some. split_and!.
      * rewrite lookup_drop.
        by replace (index s + 1 + (p - (index s + 1))) with p by lia.
      * by apply Is_true_true.
      * intros j y Hj Hlt. apply Is_true_false.
        rewrite lookup_drop in Hj.
        apply (Hbetween (index s + 1 + j)); [lia|done].
    + simpl. lia.
Qed.

Lemma next_of_None w W s :
  next_of w W s = None ↔ no_active_after w W (index s).
Proof.
  unfold next_of, no_active_after.
  rewrite fmap_None, list_find_None, Forall_forall. split.
  - intros Hall q t Hq Ht. apply Is_true_false, Hall.
    apply list_elem_of_lookup. exists (q - (index s + 1)).
    rewrite lookup_drop.
    by replace (index s + 1 + (q - (index s + 1))) with q by lia.
  - intros Hall x Hx. apply list_elem_of_lookup in Hx as (i & Hi).
    rewrite lookup_drop in Hi.
    apply Is_true_false. apply (Hall (index s + 1 + i)); [lia|done].
Qed.

(** ** Evolution of a workflow *)

Lemma step_evolves_refl w a s : step_evolves w a s s.
Proof. split; try done; congruence. Qed.

Lemma step_evolves_trans w a s1 s2 s3 :
  step_evolves w a s1 s2 → step_evolves w a s2 s3 → step_evolves w a s1 s3.
Proof.
  intros [Hc1 Hi1 Hck1 Hek1 Hcn1 Hen1 Hcc1 Hec1]
         [Hc2 Hi2 Hck2 Hek2 Hcn2 Hen2 Hcc2 Hec2].
  split.
  - congruence.
  - congruence.
  - eauto.
  - eauto.
  - intros c Hnone Hsome. destruct (_completed s2) as [c2|] eqn:E2.
    + rewrite (Hck2 _ eq_refl) in Hsome. simplify_eq. by apply Hcn1.
    + rewrite <- Hc1. by apply Hcn2.
  - intros e Hnone Hsome. destruct (_errors s2) as [e2|] eqn:E2.
    + rewrite (Hek2 _ eq_refl) in Hsome. simplify_eq. by apply Hen1.
    + rewrite <- Hc1. by apply Hen2.
  - lia.
  - lia.
Qed.

Lemma evolves_refl w W : evolves w W W.
Proof.
  split; [done|]. apply Forall_Forall2_diag, Forall_forall.
  intros kv _. split; [done|apply step_evolves_refl].
Qed.

Lemma evolves_trans w W1 W2 W3 :
  evolves w W1 W2 → evolves w W2 W3 → evolves w W1 W3.
Proof.
  intros [Ha1 H1] [Ha2 H2]. split; [congruence|].
  rewrite Ha1 in H2.
  eapply Forall2_trans; [|exact H1|exact H2].
  intros kv1 kv2 kv3 [Hk1 Hs1] [Hk2 Hs2].
  split; [congruence|by eapply step_evolves_trans].
Qed.

Lemma evolves_length w W W' :
  evolves w W W' → length (values W') = length (values W).
Proof.
  intros [_ H]. unfold values. rewrite !length_fmap.
  symmetry. by eapply Forall2_length.
Qed.

Lemma evolves_lookup w W W' r s :
  evolves w W W' → values W !! r = Some s →
  ∃ s', values W' !! r = Some s' ∧ step_evolves w (attrs W) s s'.
Proof.
  intros [_ H] Hs. unfold values in *.
  apply list_lookup_fmap_Some_1 in Hs as (kv & -> & Hkv).
  destruct (Forall2_lookup_l _ _ _ _ _ H Hkv) as (kv' & Hkv' & _ & Hev).
  exists kv'.2. split; [|done]. by rewrite list_lookup_fmap, Hkv'.
Qed.

Lemma evolves_lookup_None w W W' r :
  evolves w W W' → values W !! r = None → values W' !! r = None.
Proof.
  intros Hev Hs. apply lookup_ge_None. apply lookup_ge_None in Hs.
  by rewrite (evolves_length _ _ _ Hev).
Qed.

Lemma evolves_lookup_inv w W W' r s' :
  evolves w W W' → values W' !! r = Some s' →
  ∃ s, values W !! r = Some s ∧ step_evolves w (attrs W) s s'.
Proof.
  intros Hev Hs'. destruct (values W !! r) as [s|] eqn:Hs.
  - destruct (evolves_lookup _ _ _ _ _ Hev Hs) as (s'' & Hs'' & Hstep).
    exists s. split; [done|]. congruence.
  - rewrite (evolves_lookup_None _ _ _ _ Hev Hs) in Hs'. done.
Qed.

Lemma evolves_od_get w W W' k :
  evolves w W W' → od_get k (steps W') = od_get k (steps W).
Proof.
  intros [_ H]. unfold od_get.
  induction H as [|kv kv' l l' [Hk _] _ IH]; [done|].
  cbn [list_find]. rewrite Hk.
  destruct (decide (kv.1 = k)); [done|].
  destruct (list_find _ l') as [[i x]|], (list_find _ l) as [[j y]|];
    simpl in *; congruence.
Qed.

(** Storing a value in a step moves the workflow forward. *)
Lemma evolves_update w W r s (f : Step value World → Step value World) :
  values W !! r = Some s →
  step_evolves w (attrs W) s (f s) →
  evolves w W (update_step r f W).
Proof.
  intros Hs Hf. split; [done|]. simpl.
  apply Forall2_same_length_lookup_2; [by rewrite length_alter|].
  intros i kv kv' Hkv Hkv'. rewrite list_lookup_alter in Hkv'.
  case_decide; simplify_eq.
  - rewrite Hkv in Hkv'. simplify_eq/=. split; [done|].
    unfold values in Hs. rewrite list_lookup_fmap, Hkv in Hs.
    by simplify_eq/=.
  - split; [done|apply step_evolves_refl].
Qed.

Lemma evolves_step_active w W W' s s' :
  evolves w W W' → step_evolves w (attrs W) s s' →
  step_active w W' s' = step_active w W s.
Proof.
  intros [Ha _] Hs. unfold step_active.
  by rewrite Ha, (evolves_class _ _ _ _ Hs).
Qed.

Lemma evolves_active_at w W W' p :
  evolves w W W' → active_at w W' p ↔ active_at w W p.
Proof.
  intros Hev. unfold active_at. split.
  - intros (t' & Ht' & Hact).
    destruct (evolves_lookup_inv _ _ _ _ _ Hev Ht') as (t & Ht & Hstep).
    exists t. by rewrite <- (evolves_step_active _ _ _ _ _ Hev Hstep).
  - intros (t & Ht & Hact).
    destruct (evolves_lookup _ _ _ _ _ Hev Ht) as (t' & Ht' & Hstep).
    exists t'. by rewrite (evolves_step_active _ _ _ _ _ Hev Hstep).
Qed.

Lemma evolves_inactive_within w W W' lo hi :
  evolves w W W' → inactive_within w W' lo hi ↔ inactive_within w W lo hi.
Proof.
  intros Hev. unfold inactive_within. split.
  - intros Hall q t Hq Ht.
    destruct (evolves_lookup _ _ _ _ _ Hev Ht) as (t' & Ht' & Hstep).
    rewrite <- (evolves_step_active _ _ _ _ _ Hev Hstep). eauto.
  - intros Hall q t' Hq Ht'.
    destruct (evolves_lookup_inv _ _ _ _ _ Hev Ht') as (t & Ht & Hstep).
    rewrite (evolves_step_active _ _ _ _ _ Hev Hstep). eauto.
Qed.

Lemma evolves_previous_of w W W' s s' :
  evolves w W W' → step_evolves w (attrs W) s s' →
  previous_of w W' s' = previous_of w W s.
Proof.
  intros Hev Hs. apply option_eq. intros p.
  rewrite !previous_of_Some. unfold nearest_active_before.
  rewrite (evolves_index _ _ _ _ Hs), (evolves_active_at _ _ _ _ Hev).
  by rewrite (evolves_inactive_within _ _ _ _ _ Hev).
Qed.

Lemma evolves_next_of w W W' s s' :
  evolves w W W' → step_evolves w (attrs W) s s' →
  next_of w W' s' = next_of w W s.
Proof.
  intros Hev Hs. apply option_eq. intros p.
  rewrite !next_of_Some. unfold nearest_active_after.
  rewrite (evolves_index _ _ _ _ Hs), (evolves_active_at _ _ _ _ Hev).
  by rewrite (evolves_inactive_within _ _ _ _ _ Hev).
Qed.

Lemma evolves_effective_completed w W W' s s' :
  evolves w W W' → step_evolves w (attrs W) s s' →
  effective_completed w W' s' = effective_completed w W s.
Proof.
  intros [Ha _] Hs. unfold effective_completed.
  rewrite Ha, (evolves_class _ _ _ _ Hs).
  destruct (_completed s) as [c|] eqn:Ec.
  - by rewrite (evolves_completed_kept _ _ _ _ Hs _ Ec).
  - destruct (_completed s') as [c'|] eqn:Ec'; [|done]. simpl.
    by apply (evolves_completed_new _ _ _ _ Hs).
Qed.

Lemma evolves_effective_errors w W W' s s' :
  evolves w W W' → step_evolves w (attrs W) s s' →
  effective_errors w W' s' = effective_errors w W s.
Proof.
  intros [Ha _] Hs. unfold effective_errors.
  rewrite Ha, (evolves_class _ _ _ _ Hs).
  destruct (_errors s) as [e|] eqn:Ee.
  - by rewrite (evolves_errors_kept _ _ _ _ Hs _ Ee).
  - destruct (_errors s') as [e'|] eqn:Ee'; [|done]. simpl.
    by apply (evolves_errors_new _ _ _ _ Hs).
Qed.

Lemma evolves_completed_at depth w W W' r :
  evolves w W W' → completed_at depth w W' r = completed_at depth w W r.
Proof.
  intros Hev. revert r. induction depth as [|d IH]; intros r; [done|].
  simpl. destruct (values W !! r) as [s|] eqn:Hs.
  - destruct (evolves_lookup _ _ _ _ _ Hev Hs) as (s' & -> & Hstep).
    rewrite (evolves_effective_completed _ _ _ _ _ Hev Hstep).
    rewrite (evolves_effective_errors _ _ _ _ _ Hev Hstep).
    rewrite (evolves_previous_of _ _ _ _ _ Hev Hstep).
    destruct (previous_of w W s); by rewrite ?IH.
  - by rewrite (evolves_lookup_None _ _ _ _ Hev Hs).
Qed.

Lemma evolves_accessible_at depth w W W' r :
  evolves w W W' → accessible_at depth w W' r = accessible_at depth w W r.
Proof.
  intros Hev. unfold accessible_at.
  destruct (values W !! r) as [s|] eqn:Hs.
  - destruct (evolves_lookup _ _ _ _ _ Hev Hs) as (s' & -> & Hstep).
    rewrite (evolves_previous_of _ _ _ _ _ Hev Hstep).
    destruct (previous_of w W s); [|done].
    by apply evolves_completed_at.
  - by rewrite (evolves_lookup_None _ _ _ _ Hev Hs).
Qed.

(** ** Methods against their readings *)

Lemma get_step_Some W r s :
  values W !! r = Some s → get_step r W = (inr s, W).
Proof. intros H. unfold get_step. by rewrite H. Qed.

Lemma get_step_None W r :
  values W !! r = None → get_step (World:=World) r W = (inl NoSuchStep, W).
Proof. intros H. unfold get_step. by rewrite H. Qed.

Lemma Step_errors_spec w W r s :
  values W !! r = Some s →
  ∃ W', Step_errors w r W = (inr (effective_errors w W s), W') ∧
        evolves w W W'.
Proof.
  intros Hs. unfold Step_errors, bind. rewrite (get_step_Some _ _ _ Hs).
  unfold effective_errors. destruct (_errors s) as [e|] eqn:Ee.
  - exists W. split; [done|apply evolves_refl].
  - unfold assign_errors, bind. rewrite (get_step_Some _ _ _ Hs).
    eexists. split; [done|]. apply (evolves_update _ _ _ s); [done|].
    split; simpl; try done; try congruence.
    + rewrite Ee. simpl. lia.
Qed.

Lemma Step_errors_dangling w W r :
  values W !! r = None → Step_errors w r W = (inl NoSuchStep, W).
Proof. intros Hs. unfold Step_errors, bind. by rewrite (get_step_None _ _ Hs). Qed.

Lemma Step_is_valid_spec w W r s :
  values W !! r = Some s →
  ∃ W', Step_is_valid w r W
        = (inr (negb (truthy (effective_errors w W s))), W') ∧
        evolves w W W'.
Proof.
  intros Hs. destruct (Step_errors_spec w _ _ _ Hs) as (W' & Herr & Hev).
  exists W'. split; [|done]. unfold Step_is_valid, bind. by rewrite Herr.
Qed.

(** The first statement of [is_completed]. *)
Lemma memo_completed_spec w W r s :
  values W !! r = Some s →
  ∃ W', match _completed s with
        | Some c => ret c
        | None => assign_completed w r
        end W = (inr (effective_completed w W s), W') ∧
        evolves w W W'.
Proof.
  intros Hs. unfold effective_completed.
  destruct (_completed s) as [c|] eqn:Ec.
  - exists W. split; [done|apply evolves_refl].
  - unfold assign_completed, bind. rewrite (get_step_Some _ _ _ Hs).
    eexists. split; [done|]. apply (evolves_update _ _ _ s); [done|].
    split; simpl; try done; try congruence.
    rewrite Ec. simpl. lia.
Qed.

Lemma Step_previous_step_spec w W r s :
  values W !! r = Some s →
  Step_previous_step w r W = (inr (previous_of w W s), W).
Proof.
  intros Hs. unfold Step_previous_step, bind. by rewrite (get_step_Some _ _ _ Hs).
Qed.

Lemma Step_next_step_spec w W r s :
  values W !! r = Some s →
  Step_next_step w r W = (inr (next_of w W s), W).
Proof.
  intros Hs. unfold Step_next_step, bind. by rewrite (get_step_Some _ _ _ Hs).
Qed.

Lemma Step_is_active_spec w W r s :
  values W !! r = Some s →
  Step_is_active w r W = (inr (step_active w W s), W).
Proof.
  intros Hs. unfold Step_is_active, bind. by rewrite (get_step_Some _ _ _ Hs).
Qed.

(** [is_completed] answers [completed_at] of the state it starts in, and
    only moves the workflow forward. *)
Lemma Step_is_completed_spec depth w W r :
  ∃ W', Step_is_completed depth w r W = (completed_at depth w W r, W') ∧
        evolves w W W'.
Proof.
  revert W r. induction depth as [|d IH]; intros W r.
  { exists W. split; [done|apply evolves_refl]. }
  cbn [Step_is_completed completed_at]. unfold bind at 1.
  destruct (values W !! r) as [s|] eqn:Hs.
  2:{ rewrite (get_step_None _ _ Hs). exists W. split; [done|apply evolves_refl]. }
  rewrite (get_step_Some _ _ _ Hs). unfold bind at 1.
  destruct (memo_completed_spec w _ _ _ Hs) as (W1 & -> & Hev1).
  destruct (effective_completed w W s).
  2:{ by exists W1. }
  destruct (evolves_lookup _ _ _ _ _ Hev1 Hs) as (s1 & Hs1 & Hstep1).
  unfold bind at 1.
  destruct (Step_is_valid_spec w _ _ _ Hs1) as (W2 & -> & Hev2).
  rewrite (evolves_effective_errors _ _ _ _ _ Hev1 Hstep1).
  pose proof (evolves_trans _ _ _ _ Hev1 Hev2) as Hev12.
  destruct (negb (truthy (effective_errors w W s))).
  2:{ by exists W2. }
  destruct (evolves_lookup _ _ _ _ _ Hev12 Hs) as (s2 & Hs2 & Hstep2).
  unfold bind at 1. rewrite (Step_previous_step_spec _ _ _ _ Hs2).
  rewrite (evolves_previous_of _ _ _ _ _ Hev12 Hstep2).
  destruct (previous_of w W s) as [q|] eqn:Hprev.
  2:{ by exists W2. }
  unfold bind at 1. rewrite (Step_previous_step_spec _ _ _ _ Hs2).
  rewrite (evolves_previous_of _ _ _ _ _ Hev12 Hstep2), Hprev.
  destruct (IH W2 q) as (W3 & -> & Hev3).
  exists W3. split.
  - by rewrite (evolves_completed_at _ _ _ _ _ Hev12).
  - by eapply evolves_trans.
Qed.

Lemma Step_is_accessible_spec depth w W r :
  ∃ W', Step_is_accessible depth w r W = (accessible_at depth w W r, W') ∧
        evolves w W W'.
Proof.
  unfold Step_is_accessible, accessible_at, bind.
  destruct (values W !! r) as [s|] eqn:Hs.
  2:{ unfold Step_previous_step, bind. rewrite (get_step_None _ _ Hs).
      exists W. split; [done|apply evolves_refl]. }
  rewrite (Step_previous_step_spec _ _ _ _ Hs).
  destruct (previous_of w W s) as [q|] eqn:Hprev.
  2:{ exists W. split; [done|apply evolves_refl]. }
  rewrite (Step_previous_step_spec _ _ _ _ Hs), Hprev.
  apply Step_is_completed_spec.
Qed.

(** A deeper interpreter stack does not change an answer. *)
Lemma completed_at_deeper depth w W r b :
  completed_at depth w W r = inr b → completed_at (S depth) w W r = inr b.
Proof.
  revert r. induction depth as [|d IH]; intros r; [done|].
  intros H. cbn [completed_at] in H |- *.
  destruct (values W !! r) as [s|]; [|done].
  destruct (effective_completed w W s); [|done].
  destruct (negb (truthy (effective_errors w W s))); [|done].
  destruct (previous_of w W s) as [q|]; [|done].
  by apply IH.
Qed.

Lemma completed_at_true depth w W r :
  completed_at depth w W r = inr true →
  ∃ s, values W !! r = Some s ∧
       (previous_of w W s = None ∨
        ∃ q, previous_of w W s = Some q ∧ completed_at depth w W q = inr true).
Proof.
  destruct depth as [|d]; [done|]. cbn [completed_at].
  destruct (values W !! r) as [s|]; [|done]. intros H. exists s. split; [done|].
  destruct (effective_completed w W s); [|done].
  destruct (negb (truthy (effective_errors w W s))); [|done].
  destruct (previous_of w W s) as [q|]; [|by left].
  right. exists q. split; [done|]. by apply completed_at_deeper.
Qed.

Lemma accessible_at_true depth w W r s :
  values W !! r = Some s →
  accessible_at depth w W r = inr true ↔
  inactive_within w W 0 (index s) ∨
  ∃ p, nearest_active_before w W (index s) p ∧
       completed_at depth w W p = inr true.
Proof.
  intros Hs. unfold accessible_at. rewrite Hs.
  destruct (previous_of w W s) as [q|] eqn:Hprev.
  - apply previous_of_Some in Hprev as Hq. split.
    + intros H. right. eauto.
    + intros [Hnone|(p & Hp & Hc)].
      * apply previous_of_None in Hnone. congruence.
      * apply previous_of_Some in Hp. congruence.
  - split; [|done]. intros _. left. by apply previous_of_None.
Qed.

(** ** Completion and accessibility *)

(** C1.  When [s.is_completed()] returns true, [s.previous_step] is
    [None] or [s.previous_step.is_completed()] returns true as well,
    whether the question is put after the call (in the state it left) or
    in its place (in the state it started from). *)
Theorem is_completed_prefix depth w W r W' :
  Step_is_completed depth w r W = (inr true, W') →
  (Step_previous_step w r W' = (inr None, W') ∨
   ∃ p W'', Step_previous_step w r W' = (inr (Some p), W') ∧
            Step_is_completed depth w p W' = (inr true, W'')) ∧
  (Step_previous_step w r W = (inr None, W) ∨
   ∃ p W'', Step_previous_step w r W = (inr (Some p), W) ∧
            Step_is_completed depth w p W = (inr true, W'')).
Proof.
  intros Hrun.
  destruct (Step_is_completed_spec depth w W r) as (W1 & Hspec & Hev).
  rewrite Hrun in Hspec. injection Hspec as Htrue <-. symmetry in Htrue.
  apply completed_at_true in Htrue as (s & Hs & Hprev).
  assert (Hany : ∀ W0, evolves w W W0 →
    Step_previous_step w r W0 = (inr None, W0) ∨
    ∃ p W'', Step_previous_step w r W0 = (inr (Some p), W0) ∧
             Step_is_completed depth w p W0 = (inr true, W'')).
  { intros W0 Hev0.
    destruct (evolves_lookup _ _ _ _ _ Hev0 Hs) as (s0 & Hs0 & Hstep0).
    rewrite (Step_previous_step_spec _ _ _ _ Hs0).
    rewrite (evolves_previous_of _ _ _ _ _ Hev0 Hstep0).
    destruct Hprev as [->|(q & -> & Hq)]; [by left|right].
    destruct (Step_is_completed_spec depth w W0 q) as (W2 & Heq & _).
    exists q, W2. split; [done|].
    by rewrite Heq, (evolves_completed_at _ _ _ _ _ Hev0), Hq. }
  split; [by apply Hany|apply Hany, evolves_refl].
Qed.

(** C2.  [s.is_accessible()] returns true exactly when no step before
    the index of [s] is active, or the nearest active step before it
    answers true to [is_completed()]. *)
Theorem is_accessible_iff depth w W r s :
  values W !! r = Some s →
  (Step_is_accessible depth w r W).1 = inr true ↔
  inactive_within w W 0 (index s) ∨
  ∃ p, nearest_active_before w W (index s) p ∧
       (Step_is_completed depth w p W).1 = inr true.
Proof.
  intros Hs.
  destruct (Step_is_accessible_spec depth w W r) as (W1 & -> & _). simpl.
  rewrite (accessible_at_true _ _ _ _ _ Hs).
  apply or_iff_compat_l. apply exist_proper. intros p.
  destruct (Step_is_completed_spec depth w W p) as (W2 & -> & _). done.
Qed.

(** C10.  A step that is itself inactive is still accessible as soon as
    no step before its index is active or the nearest active one is
    completed: [is_accessible] does not ask the step for [is_active]. *)
Theorem is_accessible_ignores_is_active depth w W r s :
  values W !! r = Some s →
  (Step_is_active w r W).1 = inr false →
  inactive_within w W 0 (index s) ∨
  (∃ p, nearest_active_before w W (index s) p ∧
        (Step_is_completed depth w p W).1 = inr true) →
  (Step_is_accessible depth w r W).1 = inr true.
Proof.
  intros Hs _ Hprev.
  destruct (Step_is_accessible_spec depth w W r) as (W1 & -> & _). simpl.
  apply (accessible_at_true _ _ _ _ _ Hs).
  destruct Hprev as [Hnone|(p & Hp & Hc)]; [by left|right].
  exists p. split; [done|].
  by destruct (Step_is_completed_spec depth w W p) as (W2 & Heq & _);
    rewrite Heq in Hc.
Qed.

(** ** Traversal as the methods run it *)

(** C4.  [previous_step] answers the first active step met scanning
    backward from just before the index of [s], [None] when there is
    none and in particular at index 0; [next_step] the first active step
    met scanning forward from just after the index; neither changes the
    workflow, and neither answers an inactive step. *)
Theorem previous_next_step_scan w W r s :
  values W !! r = Some s →
  ∃ prev next,
    Step_previous_step w r W = (inr prev, W) ∧
    Step_next_step w r W = (inr next, W) ∧
    (prev = None ↔ inactive_within w W 0 (index s)) ∧
    (∀ p, prev = Some p ↔ nearest_active_before w W (index s) p) ∧
    (index s = 0 → prev = None) ∧
    (next = None ↔ no_active_after w W (index s)) ∧
    (∀ p, next = Some p ↔ nearest_active_after w W (index s) p) ∧
    (∀ p, prev = Some p ∨ next = Some p → active_at w W p).
Proof.
  intros Hs. exists (previous_of w W s), (next_of w W s).
  split_and!.
  - by apply Step_previous_step_spec.
  - by apply Step_next_step_spec.
  - apply previous_of_None.
  - intros p. apply previous_of_Some.
  - intros H0. apply previous_of_None. rewrite H0. intros q t Hq. lia.
  - apply next_of_None.
  - intros p. apply next_of_Some.
  - intros p [Hp|Hp].
    + apply previous_of_Some in Hp. by destruct Hp as (_ & Hact & _).
    + apply next_of_Some in Hp. by destruct Hp as (_ & Hact & _).
Qed.

(** ** Active steps *)

Lemma filter_positions {A : Type} (P : A → Prop) `{!∀ x, Decision (P x)}
    (l : list A) (n : nat) :
  let res := (filter (λ it, P it.2) (imap (λ i x, (n + i, x)) l)).*1 in
  StronglySorted lt res ∧ Forall (λ p, n ≤ p) res ∧
  (λ p, l !! (p - n)) <$> res = Some <$> filter P l.
Proof.
  revert n. induction l as [|x l IH]; intros n.
  { simpl. split_and!; constructor. }
  specialize (IH (S n)). cbv zeta in IH |- *.
  assert (Hext : imap ((λ i y, (n + i, y)) ∘ S) l
                 = imap (λ i y, (S n + i, y)) l).
  { apply imap_ext. intros i y _. simpl. f_equal. lia. }
  destruct IH as (Hsorted & Hge & Hmap).
  assert (Hshift : (λ p, (x :: l) !! (p - n)) <$>
            (filter (λ it, P it.2) (imap (λ i y, (S n + i, y)) l)).*1
          = Some <$> filter P l).
  { rewrite <- Hmap. apply Forall_fmap_ext_1.
    eapply Forall_impl; [exact Hge|]. intros p Hp. simpl in Hp |- *.
    by replace (p - n) with (S (p - S n)) by lia. }
  rewrite imap_cons, Hext, !filter_cons. cbn [snd].
  destruct (decide (P x)).
  - rewrite !fmap_cons. cbn [fst]. split_and!.
    + constructor; [done|]. eapply Forall_impl; [exact Hge|]. simpl. intros; lia.
    + constructor; [lia|]. eapply Forall_impl; [exact Hge|]. simpl. intros; lia.
    + rewrite Hshift. by replace (n + 0 - n) with 0 by lia.
  - split_and!; [done| |done].
    eapply Forall_impl; [exact Hge|]. simpl. intros; lia.
Qed.

Lemma Workflow_active_steps_spec w W :
  ∃ l, Workflow_active_steps w W = (inr l, W) ∧ active_subsequence w W l.
Proof.
  eexists. split; [done|].
  assert (Hpair : imap pair (values W) = imap (λ i x, (0 + i, x)) (values W))
    by done.
  rewrite Hpair.
  destruct (filter_positions (λ t, step_active w W t) (values W) 0)
    as (Hsorted & _ & Hmap).
  split_and!; [done| |].
  - rewrite <- Hmap. apply list_fmap_ext. intros _ p _. simpl.
    by rewrite Nat.sub_0_r.
  - intros p. unfold active_at. rewrite list_elem_of_fmap. split.
    + intros ([i t] & -> & Hin). apply list_elem_of_filter in Hin as [Hact Hin].
      apply elem_of_lookup_imap in Hin as (j & y & Heq & Hy).
      simplify_eq/=. exists y. split; [done|by apply Is_true_true].
    + intros (t & Ht & Hact). exists (p, t). split; [done|].
      apply list_elem_of_filter. split; [by apply Is_true_true|].
      apply elem_of_lookup_imap. by exists p, t.
Qed.

Lemma evolves_active_at_world w w' W W' p :
  evolves w W W' → active_at w' W' p ↔ active_at w' W p.
Proof.
  intros Hev. pose proof Hev as [Ha _].
  assert (Hact : ∀ s s', step_evolves w (attrs W) s s' →
            step_active w' W' s' = step_active w' W s).
  { intros s s' Hs. unfold step_active.
    by rewrite Ha, (evolves_class _ _ _ _ Hs). }
  unfold active_at. split.
  - intros (t' & Ht' & Hactive).
    destruct (evolves_lookup_inv _ _ _ _ _ Hev Ht') as (t & Ht & Hstep).
    exists t. by rewrite <- (Hact _ _ Hstep).
  - intros (t & Ht & Hactive).
    destruct (evolves_lookup _ _ _ _ _ Hev Ht) as (t' & Ht' & Hstep).
    exists t'. by rewrite (Hact _ _ Hstep).
Qed.

Lemma evolves_answer_at depth w W W' c :
  evolves w W W' → answer_at depth w W' c = answer_at depth w W c.
Proof.
  intros Hev. destruct c as [r|r|r|r]; simpl.
  - by rewrite (evolves_completed_at _ _ _ _ _ Hev).
  - destruct (values W !! r) as [s|] eqn:Hs.
    + destruct (evolves_lookup _ _ _ _ _ Hev Hs) as (s' & -> & Hstep).
      by rewrite (evolves_effective_errors _ _ _ _ _ Hev Hstep).
    + by rewrite (evolves_lookup_None _ _ _ _ Hev Hs).
  - destruct (values W !! r) as [s|] eqn:Hs.
    + destruct (evolves_lookup _ _ _ _ _ Hev Hs) as (s' & -> & Hstep).
      by rewrite (evolves_effective_errors _ _ _ _ _ Hev Hstep).
    + by rewrite (evolves_lookup_None _ _ _ _ Hev Hs).
  - by rewrite (evolves_accessible_at _ _ _ _ _ Hev).
Qed.

Lemma run_call_spec depth w W c :
  ∃ W', run_call depth w c W = (answer_at depth w W c, W') ∧ evolves w W W'.
Proof.
  destruct c as [r|r|r|r]; unfold run_call, bind; simpl.
  - destruct (Step_is_completed_spec depth w W r) as (W' & -> & Hev).
    exists W'. split; [|done]. by destruct (completed_at depth w W r).
  - destruct (values W !! r) as [s|] eqn:Hs.
    + destruct (Step_errors_spec w _ _ _ Hs) as (W' & -> & Hev). by exists W'.
    + rewrite (Step_errors_dangling _ _ _ Hs). exists W.
      split; [done|apply evolves_refl].
  - destruct (values W !! r) as [s|] eqn:Hs.
    + destruct (Step_is_valid_spec w _ _ _ Hs) as (W' & -> & Hev). by exists W'.
    + unfold Step_is_valid, bind. rewrite (Step_errors_dangling _ _ _ Hs).
      exists W. split; [done|apply evolves_refl].
  - destruct (Step_is_accessible_spec depth w W r) as (W' & -> & Hev).
    exists W'. split; [|done]. by destruct (accessible_at depth w W r).
Qed.

Lemma run_calls_spec depth w cs W :
  (run_calls depth w cs W).1 = answer_at depth w W <$> cs ∧
  evolves w W (run_calls depth w cs W).2.
Proof.
  revert W. induction cs as [|c cs IH]; intros W.
  { split; [done|apply evolves_refl]. }
  cbn [run_calls]. cbv zeta.
  destruct (run_call_spec depth w W c) as (W1 & -> & Hev1).
  destruct (IH W1) as [Hans Hev]. cbn [fst snd]. split.
  - rewrite fmap_cons, Hans. f_equal. apply list_fmap_ext.
    intros _ c' _. by apply evolves_answer_at.
  - by eapply evolves_trans.
Qed.

(** C6.  [active_steps] answers the active steps of [values()] in their
    order and leaves the workflow as it was; it is computed at each
    access: after any calls on the steps and a change of the external
    state from [w] to [w'], the next access answers the steps active in
    [w'], on the same workflow. *)
Theorem active_steps_live depth w w' W cs :
  ∃ l l',
    Workflow_active_steps w W = (inr l, W) ∧
    active_subsequence w W l ∧
    Workflow_active_steps w' (run_calls depth w cs W).2
      = (inr l', (run_calls depth w cs W).2) ∧
    active_subsequence w' (run_calls depth w cs W).2 l' ∧
    ∀ p, p ∈ l' ↔ active_at w' W p.
Proof.
  destruct (Workflow_active_steps_spec w W) as (l & Hl & Hsub).
  destruct (Workflow_active_steps_spec w' (run_calls depth w cs W).2)
    as (l' & Hl' & Hsub').
  exists l, l'. split_and!; [done..|].
  intros p. destruct Hsub' as (_ & _ & Hmem). rewrite Hmem.
  apply evolves_active_at_world with w, run_calls_spec.
Qed.

(** ** Memoisation *)

Lemma od_setitem_values {V : Type} (k : option string) (v : V)
    (od : list (option string * V)) (x : V) :
  x ∈ (od_setitem k v od).*2 → x = v ∨ x ∈ od.*2.
Proof.
  induction od as [|[k' v'] od IH]; simpl.
  - intros ->%list_elem_of_singleton. by left.
  - destruct (decide (k = k')); simpl.
    + intros [->|Hin]%elem_of_cons; [by left|right; by right].
    + intros [->|Hin]%elem_of_cons; [right; by left|].
      destruct (IH Hin) as [->|Hin']; [by left|right; by right].
Qed.

Lemma OrderedDict_values {V : Type} (items : list (option string * V)) (x : V) :
  x ∈ (OrderedDict items).*2 → x ∈ items.*2.
Proof.
  unfold OrderedDict.
  assert (Hacc : ∀ acc,
    x ∈ (foldl (λ od kv, od_setitem kv.1 kv.2 od) acc items).*2 →
    x ∈ acc.*2 ∨ x ∈ items.*2).
  { induction items as [|[k v] items IH]; intros acc; simpl; [by left|].
    intros Hin. destruct (IH _ Hin) as [Hin'|Hin'].
    - destruct (od_setitem_values _ _ _ _ Hin') as [->|Hacc]; [|by left].
      right. by left.
    - right. by right. }
  intros Hin. destruct (Hacc [] Hin) as [Hnil|Hitems]; [|done].
  by apply elem_of_nil in Hnil.
Qed.

(** A workflow that has just been built has not been called. *)
Lemma Workflow_init_fresh registry kwargs W :
  Workflow_init as_step_classes registry kwargs = Built W → fresh W.
Proof.
  unfold Workflow_init. case_decide; [done|].
  destruct (setattrs _ _) as [[e obj]|obj]; [done|].
  destruct (lookup_step_classes _ _ _) as [e|reg]; [done|].
  intros [= <-] r s Hs. unfold values in Hs. simpl in Hs.
  apply list_elem_of_lookup_2, OrderedDict_values in Hs.
  rewrite imap_snd_step in Hs.
  apply elem_of_lookup_imap in Hs as (i & cls & -> & _). done.
Qed.

Lemma fresh_evolves_calls w W0 W r s :
  fresh W0 → evolves w W0 W → values W !! r = Some s →
  completed_calls s ≤ 1 ∧ errors_calls s ≤ 1.
Proof.
  intros Hfresh Hev Hs.
  destruct (evolves_lookup_inv _ _ _ _ _ Hev Hs) as (s0 & Hs0 & Hstep).
  destruct (Hfresh _ _ Hs0) as (Hc & He & Hcc & Hec).
  pose proof (evolves_completed_calls _ _ _ _ Hstep) as H1.
  pose proof (evolves_errors_calls _ _ _ _ Hstep) as H2.
  rewrite Hc, Hcc in H1. rewrite He, Hec in H2. simpl in H1, H2.
  split.
  - destruct (_completed s); simpl in H1; lia.
  - destruct (_errors s); simpl in H2; lia.
Qed.

(** C7.  On an unchanged external state, whatever calls a client makes
    on the steps of a workflow it has built, [_is_completed] and
    [get_errors] have been invoked at most once on each step object, and
    two calls of the same method on the same step have the same
    outcome. *)
Theorem memoised_once registry kwargs W0 depth w cs :
  Workflow_init as_step_classes registry kwargs = Built W0 →
  (∀ r s, values (run_calls depth w cs W0).2 !! r = Some s →
          completed_calls s ≤ 1 ∧ errors_calls s ≤ 1) ∧
  (∀ i j c, cs !! i = Some c → cs !! j = Some c →
            (run_calls depth w cs W0).1 !! i
            = (run_calls depth w cs W0).1 !! j).
Proof.
  intros Hbuilt. destruct (run_calls_spec depth w cs W0) as [Hans Hev].
  split.
  - intros r s. apply fresh_evolves_calls with w W0; [|done].
    by eapply Workflow_init_fresh.
  - intros i j c Hi Hj. by rewrite Hans, !list_lookup_fmap, Hi, Hj.
Qed.

(** ** Construction, as stated and as amended *)

(** C5.  A keyword argument named [steps] makes the construction raise
    [ValueError]: no workflow is built, and the exception leaves before
    any attribute has been set on the object. *)
Theorem steps_kwarg_rejected registry kwargs :
  is_Some (kwargs !! "steps") →
  Workflow_init as_step_classes registry kwargs = Failed ValueError ∅.
Proof. intros Hsteps. unfold Workflow_init. by rewrite decide_True. Qed.

(** C3, amended.  When the keyword arguments name none of [steps],
    [step_classes], [self] and the four descriptors [active_steps],
    [__class__], [__dict__] and [__weakref__], and the definitions that
    [include_in] keeps have pairwise distinct slugs, the call of the
    class builds the workflow whose attributes are the keyword arguments
    and whose steps are the kept definitions in registry order, keyed by
    their slugs, each carrying its position among them as its index and
    no memoised value. *)
Theorem Workflow_init_filters registry kwargs :
  kwargs !! "steps" = None →
  kwargs !! "step_classes" = None →
  kwargs !! "self" = None →
  kwargs !! "active_steps" = None →
  kwargs !! "__class__" = None →
  kwargs !! "__dict__" = None →
  kwargs !! "__weakref__" = None →
  NoDup (slug <$> filter (λ cls, include_in cls kwargs) registry) →
  ∃ W, Workflow_call as_step_classes registry kwargs = Built W ∧
       attrs W = kwargs ∧
       (steps W).*1 = slug <$> filter (λ cls, include_in cls kwargs) registry ∧
       step_class <$> values W
         = filter (λ cls, include_in cls kwargs) registry ∧
       (∀ i s, values W !! i = Some s → index s = i) ∧
       fresh W.
Proof.
  intros Hsteps Hclasses Hself Hactive Hclass Hdict Hweak Hslugs.
  unfold Workflow_call. rewrite decide_False by (rewrite Hself; by intros [??]).
  unfold Workflow_init. rewrite decide_False by (rewrite Hsteps; by intros [??]).
  rewrite (setattrs_kwargs _ (descriptors_absent _ Hactive Hweak Hclass Hdict)).
  unfold lookup_step_classes. rewrite Hclasses.
  set (kept := filter (λ cls, include_in cls kwargs) registry) in *.
  eexists. split; [done|]. unfold values. simpl.
  rewrite OrderedDict_NoDup by (by rewrite imap_fst_slug).
  rewrite imap_fst_slug, imap_snd_step.
  split_and!; [by apply delete_id|done| | |].
  - rewrite fmap_imap. etrans; [exact (imap_const id kept)|apply list_fmap_id].
  - intros i s Hs. apply list_lookup_imap_Some in Hs as (cls & _ & ->). done.
  - intros r s Hs. unfold values in Hs. simpl in Hs.
    rewrite imap_snd_step in Hs.
    apply list_lookup_imap_Some in Hs as (cls & _ & ->). done.
Qed.

(** ** The view mixin *)

(** The three branches of [get_success_url] on a current step. *)
Lemma get_success_url_branches w W r s
    (url_kwargs : gmap string (option value)) :
  values W !! r = Some s →
  ∃ e W',
    Step_errors w r W = (inr e, W') ∧
    (e ≠ [] →
     WorkflowMixin_get_success_url reverse_url w (Some r) url_kwargs W
     = (inr (reverse_url (view_name (step_class s))
                         (WorkflowMixin_clean_kwargs url_kwargs)), W')) ∧
    (e = [] → ∀ q t,
     Step_next_step w r W = (inr (Some q), W) → values W !! q = Some t →
     WorkflowMixin_get_success_url reverse_url w (Some r) url_kwargs W
     = (inr (reverse_url (view_name (step_class t))
                         (WorkflowMixin_clean_kwargs url_kwargs)), W')) ∧
    (e = [] → no_active_after w W (index s) →
     Step_next_step w r W = (inr None, W) ∧
     WorkflowMixin_get_success_url reverse_url w (Some r) url_kwargs W
     = (inl AttributeError, W')).
Proof.
  intros Hs. destruct (Step_errors_spec w _ _ _ Hs) as (W' & Herr & Hev).
  exists (effective_errors w W s), W'. split; [done|].
  destruct (evolves_lookup _ _ _ _ _ Hev Hs) as (s' & Hs' & Hstep).
  rewrite (Step_next_step_spec _ _ _ _ Hs).
  unfold WorkflowMixin_get_success_url.
  split_and!.
  - intros Hne. unfold bind at 1. rewrite Herr.
    destruct (effective_errors w W s) as [|x e] eqn:Ee; [done|].
    cbn [truthy]. unfold bind. rewrite (get_step_Some _ _ _ Hs'). unfold ret.
    by rewrite (evolves_class _ _ _ _ Hstep).
  - intros Hnil q t [= Hnext] Ht. unfold bind at 1. rewrite Herr, Hnil.
    cbn [truthy]. unfold bind.
    rewrite (Step_next_step_spec _ _ _ _ Hs').
    rewrite (evolves_next_of _ _ _ _ _ Hev Hstep), Hnext.
    destruct (evolves_lookup _ _ _ _ _ Hev Ht) as (t' & Ht' & Hstept).
    rewrite (get_step_Some _ _ _ Ht'). unfold ret.
    by rewrite (evolves_class _ _ _ _ Hstept).
  - intros Hnil Hlast. apply next_of_None in Hlast. rewrite Hlast.
    split; [done|]. unfold bind at 1. rewrite Herr, Hnil.
    cbn [truthy]. unfold bind.
    rewrite (Step_next_step_spec _ _ _ _ Hs').
    by rewrite (evolves_next_of _ _ _ _ _ Hev Hstep), Hlast.
Qed.

(** C9, amended.  [get_success_url] first reads [errors] of the current
    step.  With a non-empty list it answers the location of the current
    step itself.  With an empty list it answers the location of the
    next active step when there is one, and when no step after the
    current one is active it raises [AttributeError], reading
    [view_name] of [None].  So the location of the current step is
    answered exactly when the list is non-empty provided that the next
    active step, if there is one, has another location than the current
    step; two steps of one [view_name] have the same. *)
Theorem get_success_url_cases w W r s
    (url_kwargs : gmap string (option value)) :
  values W !! r = Some s →
  ∃ e W',
    Step_errors w r W = (inr e, W') ∧
    (e ≠ [] →
     WorkflowMixin_get_success_url reverse_url w (Some r) url_kwargs W
     = (inr (reverse_url (view_name (step_class s))
                         (WorkflowMixin_clean_kwargs url_kwargs)), W')) ∧
    (e = [] → ∀ q t,
     Step_next_step w r W = (inr (Some q), W) → values W !! q = Some t →
     WorkflowMixin_get_success_url reverse_url w (Some r) url_kwargs W
     = (inr (reverse_url (view_name (step_class t))
                         (WorkflowMixin_clean_kwargs url_kwargs)), W')) ∧
    (e = [] → no_active_after w W (index s) →
     Step_next_step w r W = (inr None, W) ∧
     WorkflowMixin_get_success_url reverse_url w (Some r) url_kwargs W
     = (inl AttributeError, W')) ∧
    ((∀ q t,
        Step_next_step w r W = (inr (Some q), W) → values W !! q = Some t →
        reverse_url (view_name (step_class t))
                    (WorkflowMixin_clean_kwargs url_kwargs)
        ≠ reverse_url (view_name (step_class s))
                      (WorkflowMixin_clean_kwargs url_kwargs)) →
     (WorkflowMixin_get_success_url reverse_url w (Some r) url_kwargs W
      = (inr (reverse_url (view_name (step_class s))
                          (WorkflowMixin_clean_kwargs url_kwargs)), W')
      ↔ e ≠ [])).
Proof.
  intros Hs.
  destruct (get_success_url_branches w W r s url_kwargs Hs)
    as (e & W' & Herr & Hown & Hnext & Hlast).
  exists e, W'. split_and!; [done..|].
  intros Hother. split; [|done].
  intros Hrun ->.
  rewrite (Step_next_step_spec _ _ _ _ Hs) in Hnext, Hlast.
  destruct (next_of w W s) as [q|] eqn:Hq.
  - pose proof Hq as Hq'. apply next_of_Some in Hq' as (_ & (t & Ht & _) & _).
    rewrite (Hnext eq_refl q t eq_refl Ht) in Hrun.
    injection Hrun as Hrun. apply (Hother q t); [|done..].
    by rewrite (Step_next_step_spec _ _ _ _ Hs), Hq.
  - apply next_of_None in Hq. destruct (Hlast eq_refl Hq) as [_ Hraise].
    by rewrite Hraise in Hrun.
Qed.

Lemma evolves_open_at depth w W W' r :
  evolves w W W' → open_at depth w W' r ↔ open_at depth w W r.
Proof.
  intros Hev. unfold open_at.
  by rewrite (evolves_accessible_at _ _ _ _ _ Hev), (evolves_active_at _ _ _ _ Hev).
Qed.

Lemma evolves_closed_at depth w W W' r :
  evolves w W W' → closed_at depth w W' r ↔ closed_at depth w W r.
Proof.
  intros Hev. unfold closed_at.
  rewrite (evolves_accessible_at _ _ _ _ _ Hev).
  apply or_iff_compat_l, and_iff_compat_l. split.
  - intros (t' & Ht' & Hact).
    destruct (evolves_lookup_inv _ _ _ _ _ Hev Ht') as (t & Ht & Hstep).
    exists t. by rewrite <- (evolves_step_active _ _ _ _ _ Hev Hstep).
  - intros (t & Ht & Hact).
    destruct (evolves_lookup _ _ _ _ _ Hev Ht) as (t' & Ht' & Hstep).
    exists t'. by rewrite (evolves_step_active _ _ _ _ _ Hev Hstep).
Qed.

(** One turn of the loop of [dispatch] on a step that is turned down. *)
Lemma redirect_scan_closed depth w W q rest :
  closed_at depth w W q →
  ∃ W1, redirect_scan depth w (q :: rest) W = redirect_scan depth w rest W1 ∧
        evolves w W W1.
Proof.
  intros Hclosed. cbn [redirect_scan]. unfold bind at 1.
  destruct (Step_is_accessible_spec depth w W q) as (W1 & -> & Hev).
  exists W1. split; [|done].
  destruct Hclosed as [->|(-> & t & Ht & Hact)]; [done|].
  destruct (evolves_lookup _ _ _ _ _ Hev Ht) as (t' & Ht' & Hstep).
  unfold bind. rewrite (Step_is_active_spec _ _ _ _ Ht').
  by rewrite (evolves_step_active _ _ _ _ _ Hev Hstep), Hact.
Qed.

Lemma redirect_scan_miss depth w W cands :
  (∀ q, q ∈ cands → closed_at depth w W q) →
  ∃ W', redirect_scan depth w cands W = (inr None, W') ∧ evolves w W W'.
Proof.
  revert W. induction cands as [|q rest IH]; intros W Hall.
  { exists W. split; [done|apply evolves_refl]. }
  destruct (redirect_scan_closed depth w W q rest) as (W1 & -> & Hev1).
  { apply Hall. by left. }
  destruct (IH W1) as (W' & -> & Hev').
  { intros q' Hq'. apply (evolves_closed_at _ _ _ _ _ Hev1), Hall. by right. }
  exists W'. split; [done|by eapply evolves_trans].
Qed.

Lemma redirect_scan_hit depth w W before p after :
  (∀ q, q ∈ before → closed_at depth w W q) →
  open_at depth w W p →
  ∃ W', redirect_scan depth w (before ++ p :: after) W = (inr (Some p), W') ∧
        evolves w W W'.
Proof.
  revert W. induction before as [|q rest IH]; intros W Hall Hopen.
  - simpl. unfold bind at 1.
    destruct (Step_is_accessible_spec depth w W p) as (W1 & -> & Hev).
    destruct Hopen as [-> (t & Ht & Hact)].
    destruct (evolves_lookup _ _ _ _ _ Hev Ht) as (t' & Ht' & Hstep).
    unfold bind. rewrite (Step_is_active_spec _ _ _ _ Ht').
    rewrite (evolves_step_active _ _ _ _ _ Hev Hstep), Hact.
    by exists W1.
  - rewrite <- app_comm_cons.
    destruct (redirect_scan_closed depth w W q (rest ++ p :: after))
      as (W1 & -> & Hev1).
    { apply Hall. by left. }
    destruct (IH W1) as (W' & -> & Hev').
    { intros q' Hq'. apply (evolves_closed_at _ _ _ _ _ Hev1), Hall. by right. }
    { by apply (evolves_open_at _ _ _ _ _ Hev1). }
    exists W'. split; [done|by eapply evolves_trans].
Qed.

Lemma reverse_seq_split (n p : nat) :
  p < n →
  reverse (seq 0 n) = reverse (seq (S p) (n - S p)) ++ p :: reverse (seq 0 p).
Proof.
  intros Hp. replace n with (p + (1 + (n - S p))) at 1 by lia.
  rewrite !seq_app, !reverse_app. simpl.
  replace (p + 1) with (S p) by lia.
  by rewrite reverse_singleton, <- app_assoc.
Qed.

Lemma request_refused_open depth w W r :
  open_at depth w W r →
  ∃ W', request_refused depth w (Some r) W = (inr false, W') ∧ evolves w W W'.
Proof.
  intros [Hacc (t & Ht & Hact)]. unfold request_refused, bind.
  rewrite (Step_is_active_spec _ _ _ _ Ht), Hact.
  destruct (Step_is_accessible_spec depth w W r) as (W' & -> & Hev).
  rewrite Hacc. by exists W'.
Qed.

Lemma request_refused_spec depth w W slug :
  refused depth w W slug →
  ∃ W', request_refused depth w (od_get (Some slug) (steps W)) W
        = (inr true, W') ∧ evolves w W W'.
Proof.
  intros [->|(r & t & -> & Ht & Hwhy)].
  { exists W. split; [done|apply evolves_refl]. }
  unfold request_refused, bind. rewrite (Step_is_active_spec _ _ _ _ Ht).
  destruct (step_active w W t) eqn:Hact.
  - destruct Hwhy as [?|Hacc]; [done|].
    destruct (Step_is_accessible_spec depth w W r) as (W' & -> & Hev).
    rewrite Hacc. by exists W'.
  - exists W. split; [done|apply evolves_refl].
Qed.

Lemma dispatch_returns_intro depth w W slug
    (url_kwargs : gmap string (option value)) resp W' :
  dispatch_step reverse_url depth w slug url_kwargs W = (inr resp, W') →
  dispatch_returns reverse_url depth w W slug url_kwargs resp.
Proof.
  intros Hrun. exists W'. unfold WorkflowMixin_dispatch. by rewrite Hrun.
Qed.

Lemma dispatch_proceeds depth w W slug
    (url_kwargs : gmap string (option value)) r :
  od_get (Some slug) (steps W) = Some r → open_at depth w W r →
  dispatch_returns reverse_url depth w W slug url_kwargs
    (SuperDispatch (Some r)).
Proof.
  intros Hr Hopen.
  destruct (request_refused_open _ _ _ _ Hopen) as (W1 & Hrun & _).
  apply dispatch_returns_intro with W1.
  unfold dispatch_step. unfold bind at 1. unfold get_workflow_state.
  rewrite Hr. unfold bind at 1. by rewrite Hrun.
Qed.

Lemma dispatch_redirects depth w W slug
    (url_kwargs : gmap string (option value)) p t :
  refused depth w W slug →
  last_open depth w W p → values W !! p = Some t →
  dispatch_returns reverse_url depth w W slug url_kwargs
    (HttpResponseRedirect
       (reverse_url (view_name (step_class t))
                    (WorkflowMixin_clean_kwargs url_kwargs))).
Proof.
  intros Hrefused [Hopen Hlater] Ht.
  destruct (request_refused_spec _ _ _ _ Hrefused) as (W1 & Hrun1 & Hev1).
  pose proof (lookup_lt_Some _ _ _ Ht) as Hp.
  destruct (redirect_scan_hit depth w W1
              (reverse (seq (S p) (length (values W) - S p))) p
              (reverse (seq 0 p))) as (W2 & Hrun2 & Hev2).
  { intros q Hq. apply elem_of_reverse, elem_of_seq in Hq.
    apply (evolves_closed_at _ _ _ _ _ Hev1), Hlater. lia. }
  { by apply (evolves_open_at _ _ _ _ _ Hev1). }
  pose proof (evolves_trans _ _ _ _ Hev1 Hev2) as Hev.
  destruct (evolves_lookup _ _ _ _ _ Hev Ht) as (t' & Ht' & Hstep).
  apply dispatch_returns_intro with W2.
  unfold dispatch_step. unfold bind at 1. unfold get_workflow_state.
  unfold bind at 1. rewrite Hrun1. unfold bind at 1.
  rewrite (reverse_seq_split _ _ Hp), Hrun2.
  unfold bind. rewrite (get_step_Some _ _ _ Ht'). unfold ret.
  by rewrite (evolves_class _ _ _ _ Hstep).
Qed.

Lemma dispatch_falls_through depth w W slug
    (url_kwargs : gmap string (option value)) :
  refused depth w W slug →
  (∀ q, q < length (values W) → closed_at depth w W q) →
  dispatch_returns reverse_url depth w W slug url_kwargs
    (SuperDispatch (od_get (Some slug) (steps W))).
Proof.
  intros Hrefused Hall.
  destruct (request_refused_spec _ _ _ _ Hrefused) as (W1 & Hrun1 & Hev1).
  destruct (redirect_scan_miss depth w W1
              (reverse (seq 0 (length (values W))))) as (W2 & Hrun2 & Hev2).
  { intros q Hq. apply elem_of_reverse, elem_of_seq in Hq.
    apply (evolves_closed_at _ _ _ _ _ Hev1), Hall. lia. }
  apply dispatch_returns_intro with W2.
  unfold dispatch_step. unfold bind at 1. unfold get_workflow_state.
  unfold bind at 1. rewrite Hrun1. unfold bind at 1. by rewrite Hrun2.
Qed.

(** ** Every request: the cases of [dispatch] *)

Lemma od_get_lookup {V : Type} (k : option string)
    (od : list (option string * V)) r :
  od_get k od = Some r → ∃ v, od !! r = Some (k, v).
Proof.
  unfold od_get. rewrite fmap_Some. intros ([i [k' v]] & Hfind & ->).
  apply list_find_Some in Hfind as (Hl & Hk & _). simpl in *. subst.
  by exists v.
Qed.

Lemma od_get_values W k r :
  od_get k (steps W) = Some r → ∃ t, values W !! r = Some t.
Proof.
  intros (v & Hv)%od_get_lookup. exists v.
  unfold values. by rewrite list_lookup_fmap, Hv.
Qed.

Lemma completed_at_total depth w W r :
  indexed_by_position W → r < depth → r < length (values W) →
  ∃ b, completed_at depth w W r = inr b.
Proof.
  intros Hidx. revert r. induction depth as [|d IH]; intros r Hd Hr; [lia|].
  cbn [completed_at].
  destruct (lookup_lt_is_Some_2 _ _ Hr) as [s Hs]. rewrite Hs.
  destruct (effective_completed w W s); [|by eexists].
  destruct (negb (truthy (effective_errors w W s))); [|by eexists].
  destruct (previous_of w W s) as [q|] eqn:Hprev; [|by eexists].
  apply previous_of_Some in Hprev as (Hq & _ & _).
  rewrite (Hidx _ _ Hs) in Hq. apply IH; lia.
Qed.

Lemma accessible_at_total depth w W r :
  indexed_by_position W → length (values W) ≤ depth →
  r < length (values W) →
  ∃ b, accessible_at depth w W r = inr b.
Proof.
  intros Hidx Hd Hr. unfold accessible_at.
  destruct (lookup_lt_is_Some_2 _ _ Hr) as [s Hs]. rewrite Hs.
  destruct (previous_of w W s) as [q|] eqn:Hprev; [|by eexists].
  apply previous_of_Some in Hprev as (Hq & _ & _).
  rewrite (Hidx _ _ Hs) in Hq. apply completed_at_total; [done|lia..].
Qed.

Lemma redirect_scan_raises depth w W before p after e :
  (∀ q, q ∈ before → closed_at depth w W q) →
  accessible_at depth w W p = inl e →
  ∃ W', redirect_scan depth w (before ++ p :: after) W = (inl e, W') ∧
        evolves w W W'.
Proof.
  revert W. induction before as [|q rest IH]; intros W Hall Hacc.
  - simpl. unfold bind at 1.
    destruct (Step_is_accessible_spec depth w W p) as (W1 & -> & Hev).
    rewrite Hacc. by exists W1.
  - rewrite <- app_comm_cons.
    destruct (redirect_scan_closed depth w W q (rest ++ p :: after))
      as (W1 & -> & Hev1).
    { apply Hall. by left. }
    destruct (IH W1) as (W' & -> & Hev').
    { intros q' Hq'. apply (evolves_closed_at _ _ _ _ _ Hev1), Hall. by right. }
    { by rewrite (evolves_accessible_at _ _ _ _ _ Hev1). }
    exists W'. split; [done|by eapply evolves_trans].
Qed.

Lemma dispatch_raises_intro depth w W slug
    (url_kwargs : gmap string (option value)) e W' :
  dispatch_step reverse_url depth w slug url_kwargs W = (inl e, W') →
  dispatch_raises reverse_url depth w W slug url_kwargs e.
Proof.
  intros Hrun. exists W'. unfold WorkflowMixin_dispatch. by rewrite Hrun.
Qed.

(** The requested step is active and [is_accessible()] raises on it:
    [dispatch] raises. *)
Lemma dispatch_raises_on_request depth w W slug
    (url_kwargs : gmap string (option value)) r t e :
  od_get (Some slug) (steps W) = Some r → values W !! r = Some t →
  step_active w W t = true → accessible_at depth w W r = inl e →
  dispatch_raises reverse_url depth w W slug url_kwargs e.
Proof.
  intros Hr Ht Hact Hacc.
  destruct (Step_is_accessible_spec depth w W r) as (W1 & Hrun & _).
  apply dispatch_raises_intro with W1.
  unfold dispatch_step. unfold bind at 1. unfold get_workflow_state.
  rewrite Hr. unfold bind at 1. unfold request_refused. unfold bind at 1.
  rewrite (Step_is_active_spec _ _ _ _ Ht), Hact.
  unfold bind. by rewrite Hrun, Hacc.
Qed.

(** The request is turned down and the scan comes to a step on which
    [is_accessible()] raises: [dispatch] raises. *)
Lemma dispatch_raises_in_scan depth w W slug
    (url_kwargs : gmap string (option value)) p e :
  refused depth w W slug → scan_raises depth w W p e →
  dispatch_raises reverse_url depth w W slug url_kwargs e.
Proof.
  intros Hrefused (Hp & Hacc & Hlater).
  destruct (request_refused_spec _ _ _ _ Hrefused) as (W1 & Hrun1 & Hev1).
  destruct (redirect_scan_raises depth w W1
              (reverse (seq (S p) (length (values W) - S p))) p
              (reverse (seq 0 p)) e) as (W2 & Hrun2 & Hev2).
  { intros q Hq. apply elem_of_reverse, elem_of_seq in Hq.
    apply (evolves_closed_at _ _ _ _ _ Hev1), Hlater. lia. }
  { by rewrite (evolves_accessible_at _ _ _ _ _ Hev1). }
  apply dispatch_raises_intro with W2.
  unfold dispatch_step. unfold bind at 1. unfold get_workflow_state.
  unfold bind at 1. rewrite Hrun1. unfold bind at 1.
  by rewrite (reverse_seq_split _ _ Hp), Hrun2.
Qed.

(** What a request finds on the step it names. *)
Lemma request_cases depth w W slug :
  (∃ r, od_get (Some slug) (steps W) = Some r ∧ open_at depth w W r) ∨
  (∃ r t e, od_get (Some slug) (steps W) = Some r ∧ values W !! r = Some t ∧
            step_active w W t = true ∧ accessible_at depth w W r = inl e) ∨
  refused depth w W slug.
Proof.
  destruct (od_get (Some slug) (steps W)) as [r|] eqn:Hr.
  2:{ right. right. left. by rewrite Hr. }
  destruct (od_get_values _ _ _ Hr) as [t Ht].
  destruct (step_active w W t) eqn:Hact.
  2:{ right. right. right. exists r, t. rewrite Hr. split_and!; [done..|].
      by left. }
  destruct (accessible_at depth w W r) as [e|[|]] eqn:Hacc.
  - right. left. by exists r, t, e.
  - left. exists r. split; [done|]. split; [done|]. by exists t.
  - right. right. right. exists r, t. rewrite Hr. split_and!; [done..|].
    by right.
Qed.

(** What the scan finds on a step. *)
Lemma position_cases depth w W q :
  q < length (values W) →
  open_at depth w W q ∨ closed_at depth w W q ∨
  ∃ e, accessible_at depth w W q = inl e.
Proof.
  intros Hq. destruct (lookup_lt_is_Some_2 _ _ Hq) as [t Ht].
  unfold open_at, closed_at, active_at.
  destruct (accessible_at depth w W q) as [e|[|]].
  - right. right. by exists e.
  - destruct (step_active w W t) eqn:Hact.
    + left. split; [done|]. by exists t.
    + right. left. right. split; [done|]. by exists t.
  - right. left. by left.
Qed.

Lemma scan_cases_below depth w W n :
  n ≤ length (values W) →
  (∀ q, q < n → closed_at depth w W q) ∨
  ∃ p, p < n ∧
       (open_at depth w W p ∨ ∃ e, accessible_at depth w W p = inl e) ∧
       ∀ q, p < q < n → closed_at depth w W q.
Proof.
  induction n as [|n IH]; intros Hn; [left; intros; lia|].
  destruct (position_cases depth w W n) as [Hopen|[Hclosed|Hraise]]; [lia|..].
  - right. exists n. split_and!; [lia|by left|intros; lia].
  - destruct IH as [Hall|(p & Hp & Hwhat & Hlater)]; [lia|..].
    + left. intros q Hq. destruct (decide (q = n)) as [->|?]; [done|].
      apply Hall. lia.
    + right. exists p. split_and!; [lia|done|].
      intros q Hq. destruct (decide (q = n)) as [->|?]; [done|].
      apply Hlater. lia.
  - right. exists n. split_and!; [lia|by right|intros; lia].
Qed.

(** What the scan of a turned-down request comes to. *)
Lemma scan_cases depth w W :
  (∃ p, last_open depth w W p) ∨
  (∃ p e, scan_raises depth w W p e) ∨
  (∀ q, q < length (values W) → closed_at depth w W q).
Proof.
  destruct (scan_cases_below depth w W (length (values W)))
    as [Hall|(p & Hp & [Hopen|[e Hraise]] & Hlater)]; [lia|..].
  - right. by right.
  - left. exists p. by split.
  - right. left. by exists p, e.
Qed.

(** C8, amended.  A request for a step that exists, is active and is
    accessible proceeds to that step; when [is_accessible()] raises on
    such an active step, [dispatch] raises.  A request that names no
    step, an inactive step or an inaccessible one is turned down, and
    the steps are scanned from the end: over the steps that are
    inaccessible or inactive, to the first step that is not.  When that
    step is accessible and active, the last such step of the full
    sequence, the request is redirected to it; when [is_accessible()]
    raises on it, [dispatch] raises; when every step is inaccessible or
    inactive there is no redirect and the request proceeds with the
    step it named, or with none.  Every request is in one of these five
    cases, and [is_accessible()] raises on no step of a workflow whose
    steps are indexed by their positions when the stack is as deep as
    the workflow is long. *)
Theorem dispatch_routes depth w W slug
    (url_kwargs : gmap string (option value)) :
  (∀ r, od_get (Some slug) (steps W) = Some r → open_at depth w W r →
        dispatch_returns reverse_url depth w W slug url_kwargs
          (SuperDispatch (Some r))) ∧
  (∀ r t e, od_get (Some slug) (steps W) = Some r → values W !! r = Some t →
            step_active w W t = true → accessible_at depth w W r = inl e →
            dispatch_raises reverse_url depth w W slug url_kwargs e) ∧
  (refused depth w W slug → ∀ p t,
     last_open depth w W p → values W !! p = Some t →
     dispatch_returns reverse_url depth w W slug url_kwargs
       (HttpResponseRedirect
          (reverse_url (view_name (step_class t))
                       (WorkflowMixin_clean_kwargs url_kwargs)))) ∧
  (refused depth w W slug → ∀ p e,
     scan_raises depth w W p e →
     dispatch_raises reverse_url depth w W slug url_kwargs e) ∧
  (refused depth w W slug →
   (∀ q, q < length (values W) → closed_at depth w W q) →
   dispatch_returns reverse_url depth w W slug url_kwargs
     (SuperDispatch (od_get (Some slug) (steps W)))) ∧
  ((∃ r, od_get (Some slug) (steps W) = Some r ∧ open_at depth w W r) ∨
   (∃ r t e, od_get (Some slug) (steps W) = Some r ∧ values W !! r = Some t ∧
             step_active w W t = true ∧ accessible_at depth w W r = inl e) ∨
   (refused depth w W slug ∧
    ((∃ p, last_open depth w W p) ∨
     (∃ p e, scan_raises depth w W p e) ∨
     (∀ q, q < length (values W) → closed_at depth w W q)))) ∧
  (indexed_by_position W → length (values W) ≤ depth →
   ∀ q, q < length (values W) → ∃ b, accessible_at depth w W q = inr b).
Proof.
  split_and!.
  - intros r. apply dispatch_proceeds.
  - intros r t e. apply dispatch_raises_on_request.
  - intros Hrefused p t. by apply dispatch_redirects.
  - intros Hrefused p e. by apply dispatch_raises_in_scan.
  - apply dispatch_falls_through.
  - destruct (request_cases depth w W slug) as [?|[?|Hrefused]];
      [by left|by right; left|].
    right. right. split; [done|]. apply scan_cases.
  - intros Hidx Hd q Hq. by apply accessible_at_total.
Qed.

(** ** Enough depth: every question gets an answer *)

Lemma open_or_closed depth w W r :
  indexed_by_position W → length (values W) ≤ depth →
  r < length (values W) →
  open_at depth w W r ∨ closed_at depth w W r.
Proof.
  intros Hidx Hd Hr.
  destruct (accessible_at_total depth w W r Hidx Hd Hr) as [b Hb].
  destruct (lookup_lt_is_Some_2 _ _ Hr) as [s Hs].
  unfold open_at, closed_at, active_at. rewrite Hb.
  destruct b; [|by right; left].
  destruct (step_active w W s) eqn:Hact; [left|right; right]; eauto.
Qed.

(** Below an active step there is a step that is accessible and active:
    the step itself, or one of the active steps before it. *)
Lemma open_below_active depth w W p :
  indexed_by_position W → length (values W) ≤ depth →
  active_at w W p → ∃ q, q ≤ p ∧ open_at depth w W q.
Proof.
  intros Hidx Hd. induction (lt_wf p) as [p _ IH]. intros Hact.
  pose proof Hact as (s & Hs & Hon).
  pose proof (lookup_lt_Some _ _ _ Hs) as Hp.
  destruct (accessible_at_total depth w W p Hidx Hd Hp) as [[|] Hb].
  { exists p. split; [lia|]. by split. }
  unfold accessible_at in Hb. rewrite Hs in Hb.
  destruct (previous_of w W s) as [q|] eqn:Hprev; [|done].
  apply previous_of_Some in Hprev as (Hq & Hactq & _).
  rewrite (Hidx _ _ Hs) in Hq.
  destruct (IH q Hq Hactq) as (q' & Hq' & Hopen).
  exists q'. split; [lia|done].
Qed.

Lemma last_open_below depth w W n :
  (∀ q, q < n → open_at depth w W q ∨ closed_at depth w W q) →
  (∃ q, q < n ∧ open_at depth w W q) →
  ∃ p, p < n ∧ open_at depth w W p ∧
       ∀ q, p < q < n → closed_at depth w W q.
Proof.
  induction n as [|n IH]; intros Hdec (q & Hq & Hopen); [lia|].
  destruct (Hdec n) as [Hn|Hn]; [lia| |].
  { exists n. split_and!; [lia|done|intros; lia]. }
  destruct (decide (q = n)) as [->|Hne].
  { exists n. split_and!; [lia|done|intros; lia]. }
  destruct IH as (p & Hp & Hopenp & Hlater).
  { intros q' Hq'. apply Hdec. lia. }
  { exists q. split; [lia|done]. }
  exists p. split_and!; [lia|done|].
  intros q' Hq'. destruct (decide (q' = n)) as [->|?]; [done|].
  apply Hlater. lia.
Qed.

(** With the steps indexed by their positions and a stack as deep as the
    workflow is long, a workflow with an active step has a last step that
    is accessible and active. *)
Lemma last_open_exists depth w W p :
  indexed_by_position W → length (values W) ≤ depth →
  active_at w W p → ∃ q, last_open depth w W q.
Proof.
  intros Hidx Hd Hact.
  destruct (open_below_active depth w W p Hidx Hd Hact) as (q & Hq & Hopen).
  pose proof Hact as (s & Hs & _).
  pose proof (lookup_lt_Some _ _ _ Hs) as Hp.
  destruct (last_open_below depth w W (length (values W)))
    as (l & _ & Hl & Hlater).
  { intros q' Hq'. by apply open_or_closed. }
  { exists q. split; [lia|done]. }
  exists l. by split.
Qed.

(** A turned-down request is redirected as soon as one step is active. *)
Lemma dispatch_redirects_when_active depth w W slug
    (url_kwargs : gmap string (option value)) p :
  indexed_by_position W → length (values W) ≤ depth →
  refused depth w W slug → active_at w W p →
  ∃ q t, last_open depth w W q ∧ values W !! q = Some t ∧
    dispatch_returns reverse_url depth w W slug url_kwargs
      (HttpResponseRedirect
         (reverse_url (view_name (step_class t))
                      (WorkflowMixin_clean_kwargs url_kwargs))).
Proof.
  intros Hidx Hd Hrefused Hact.
  destruct (last_open_exists depth w W p Hidx Hd Hact) as (q & Hlast).
  pose proof Hlast as [[_ (t & Ht & _)] _].
  exists q, t. split_and!; [done..|]. by apply dispatch_redirects with q.
Qed.

(** It proceeds without a redirect when no step is active. *)
Lemma dispatch_proceeds_when_none_active depth w W slug
    (url_kwargs : gmap string (option value)) :
  refused depth w W slug →
  (∀ q t, values W !! q = Some t → step_active w W t = false) →
  dispatch_returns reverse_url depth w W slug url_kwargs
    (SuperDispatch (od_get (Some slug) (steps W))).
Proof.
  intros Hrefused Hnone. apply dispatch_falls_through; [done|].
  intros q Hq. destruct (lookup_lt_is_Some_2 _ _ Hq) as [t Ht].
  right. split; [|eauto].
  unfold accessible_at. rewrite Ht.
  assert (Hprev : previous_of w W t = None).
  { apply previous_of_None. intros q' t' _ Ht'. eauto. }
  by rewrite Hprev.
Qed.

(** A workflow built from definitions with distinct slugs is indexed by
    position, and evolution keeps it so. *)
Lemma evolves_indexed_by_position w W W' :
  evolves w W W' → indexed_by_position W → indexed_by_position W'.
Proof.
  intros Hev Hidx r s' Hs'.
  destruct (evolves_lookup_inv _ _ _ _ _ Hev Hs') as (s & Hs & Hstep).
  rewrite (evolves_index _ _ _ _ Hstep). eauto.
Qed.

(** ** One pass over the steps *)

Lemma prefix_done_true w W n :
  prefix_done w W n = true ↔
  ∀ q t, q < n → values W !! q = Some t →
         step_active w W t = true → own_done w W t = true.
Proof.
  unfold prefix_done. rewrite forallb_forall. split.
  - intros Hall q t Hq Ht Hact.
    assert (Hin : In t (take n (values W))).
    { apply list_elem_of_In, elem_of_take. eauto. }
    specialize (Hall _ Hin). by rewrite Hact in Hall.
  - intros Hall t Hin.
    apply list_elem_of_In, elem_of_take in Hin as (q & Ht & Hq).
    destruct (step_active w W t) eqn:Hact; [|done]. simpl. eauto.
Qed.

Lemma prefix_done_inactive w W n :
  inactive_within w W 0 n → prefix_done w W n = true.
Proof.
  intros Hnone. apply prefix_done_true. intros q t Hq Ht Hact.
  rewrite (Hnone q t) in Hact; [done|lia|done].
Qed.

Lemma prefix_done_nearest w W n q t :
  nearest_active_before w W n q → values W !! q = Some t →
  prefix_done w W n = own_done w W t && prefix_done w W q.
Proof.
  intros (Hq & (t0 & Ht0 & Hact) & Hbetween) Ht. simplify_eq.
  apply Bool.eq_iff_eq_true. rewrite andb_true_iff, !prefix_done_true. split.
  - intros Hall. split; [by apply (Hall q)|].
    intros q' t' Hq' Ht' Hact'. apply (Hall q'); [lia|done..].
  - intros [Hown Hall] q' t' Hq' Ht' Hact'.
    destruct (decide (q' < q)); [by apply (Hall q')|].
    destruct (decide (q' = q)) as [->|]; [by simplify_eq|].
    rewrite (Hbetween q' t') in Hact'; [done|lia|done].
Qed.

Lemma completed_at_forward depth w W r s :
  indexed_by_position W → r < depth → values W !! r = Some s →
  completed_at depth w W r = inr (own_done w W s && prefix_done w W r).
Proof.
  intros Hidx. revert r s. induction depth as [|d IH]; intros r s Hd Hs; [lia|].
  cbn [completed_at]. rewrite Hs. unfold own_done at 1.
  destruct (effective_completed w W s); [|done].
  destruct (negb (truthy (effective_errors w W s))); [|done].
  destruct (previous_of w W s) as [q|] eqn:Hprev.
  - apply previous_of_Some in Hprev. rewrite (Hidx _ _ Hs) in Hprev.
    pose proof Hprev as (Hq & (t & Ht & _) & _).
    rewrite (IH q t) by (done || lia).
    by rewrite (prefix_done_nearest _ _ _ _ _ Hprev Ht).
  - apply previous_of_None in Hprev. rewrite (Hidx _ _ Hs) in Hprev.
    by rewrite prefix_done_inactive.
Qed.

Lemma accessible_at_forward depth w W r s :
  indexed_by_position W → r ≤ depth → values W !! r = Some s →
  accessible_at depth w W r = inr (prefix_done w W r).
Proof.
  intros Hidx Hd Hs. unfold accessible_at. rewrite Hs.
  destruct (previous_of w W s) as [q|] eqn:Hprev.
  - apply previous_of_Some in Hprev. rewrite (Hidx _ _ Hs) in Hprev.
    pose proof Hprev as (Hq & (t & Ht & _) & _).
    rewrite (completed_at_forward _ _ _ _ t) by (done || lia).
    by rewrite (prefix_done_nearest _ _ _ _ _ Hprev Ht).
  - apply previous_of_None in Hprev. rewrite (Hidx _ _ Hs) in Hprev.
    by rewrite prefix_done_inactive.
Qed.

(** X1.  In a workflow whose steps are indexed by their positions, and
    with a stack deeper than the position of the step, [is_completed()]
    returns, and it returns true exactly when the step answers for
    itself (own completion without errors) and so does every active step
    before it: the recursion over [previous_step] computes a single
    forward scan. *)
Theorem is_completed_forward_scan depth w W r s :
  indexed_by_position W → r < depth → values W !! r = Some s →
  (Step_is_completed depth w r W).1
  = inr (own_done w W s && prefix_done w W r).
Proof.
  intros Hidx Hd Hs.
  destruct (Step_is_completed_spec depth w W r) as (W' & -> & _).
  by apply completed_at_forward.
Qed.

(** X2.  Under the same conditions [is_accessible()] returns true
    exactly when every active step before the step answers for itself,
    whether the step is active or not. *)
Theorem is_accessible_forward_scan depth w W r s :
  indexed_by_position W → r ≤ depth → values W !! r = Some s →
  (Step_is_accessible depth w r W).1 = inr (prefix_done w W r).
Proof.
  intros Hidx Hd Hs.
  destruct (Step_is_accessible_spec depth w W r) as (W' & -> & _).
  by apply (accessible_at_forward _ _ _ _ s).
Qed.

(** ** Completion over the whole prefix *)

Lemma completed_at_before depth w W r s q :
  index_from_position W →
  completed_at depth w W r = inr true → values W !! r = Some s →
  q < index s → active_at w W q → completed_at depth w W q = inr true.
Proof.
  intros Hidx. revert r s. induction depth as [|d IH]; intros r s; [done|].
  intros Hc Hs Hq Hact. cbn [completed_at] in Hc. rewrite Hs in Hc.
  destruct (effective_completed w W s); [|done].
  destruct (negb (truthy (effective_errors w W s))); [|done].
  destruct (previous_of w W s) as [p|] eqn:Hprev.
  - apply previous_of_Some in Hprev as (Hp & (t & Ht & _) & Hbetween).
    destruct (decide (q = p)) as [->|Hne]; [by apply completed_at_deeper|].
    apply completed_at_deeper, (IH p t); [done..| |done].
    pose proof (Hidx _ _ Ht) as Hpt.
    destruct (decide (q < p)); [lia|].
    destruct Hact as (u & Hu & Hon).
    rewrite (Hbetween q u) in Hon; [done|lia|done].
  - apply previous_of_None in Hprev. destruct Hact as (u & Hu & Hon).
    rewrite (Hprev q u) in Hon; [done|lia|done].
Qed.

(** X3.  Completion is a property of the whole prefix, not of one hop:
    in a workflow where no step sits before the place its index names,
    when [s.is_completed()] returns true, [is_completed()] returns true
    on every active step before the index of [s]. *)
Theorem is_completed_all_before depth w W r s q :
  index_from_position W → values W !! r = Some s →
  (Step_is_completed depth w r W).1 = inr true →
  q < index s → active_at w W q →
  (Step_is_completed depth w q W).1 = inr true.
Proof.
  intros Hidx Hs Hc Hq Hact.
  destruct (Step_is_completed_spec depth w W r) as (W1 & Heq & _).
  rewrite Heq in Hc.
  destruct (Step_is_completed_spec depth w W q) as (W2 & -> & _).
  by apply (completed_at_before _ _ _ r s).
Qed.

(** ** Neighbours *)

Lemma next_of_previous_of w W r s q t :
  indexed_by_position W → values W !! r = Some s → values W !! q = Some t →
  step_active w W s = true →
  next_of w W s = Some q → previous_of w W t = Some r.
Proof.
  intros Hidx Hs Ht Hact Hnext.
  apply next_of_Some in Hnext as (Hlt & _ & Hbetween).
  apply previous_of_Some.
  rewrite (Hidx _ _ Hs) in Hlt, Hbetween. rewrite (Hidx _ _ Ht).
  split; [done|]. split; [by exists s|done].
Qed.

Lemma previous_of_next_of w W r s p t :
  indexed_by_position W → values W !! r = Some s → values W !! p = Some t →
  step_active w W s = true →
  previous_of w W s = Some p → next_of w W t = Some r.
Proof.
  intros Hidx Hs Ht Hact Hprev.
  apply previous_of_Some in Hprev as (Hlt & _ & Hbetween).
  apply next_of_Some.
  rewrite (Hidx _ _ Hs) in Hlt, Hbetween. rewrite (Hidx _ _ Ht).
  split; [done|]. split; [by exists s|done].
Qed.

(** X4.  In a workflow whose steps are indexed by their positions, the
    neighbours of an active step point back at it: its [next_step] has
    it as [previous_step], and its [previous_step] has it as
    [next_step]. *)
Theorem neighbours_point_back w W r s :
  indexed_by_position W → values W !! r = Some s →
  (Step_is_active w r W).1 = inr true →
  (∀ q, (Step_next_step w r W).1 = inr (Some q) →
        (Step_previous_step w q W).1 = inr (Some r)) ∧
  (∀ p, (Step_previous_step w r W).1 = inr (Some p) →
        (Step_next_step w p W).1 = inr (Some r)).
Proof.
  intros Hidx Hs. rewrite (Step_is_active_spec _ _ _ _ Hs).
  rewrite (Step_next_step_spec _ _ _ _ Hs).
  rewrite (Step_previous_step_spec _ _ _ _ Hs). simpl.
  intros [= Hact]. split.
  - intros q [= Hnext].
    pose proof Hnext as (_ & (t & Ht & _) & _)%next_of_Some.
    rewrite (Step_previous_step_spec _ _ _ _ Ht). simpl. f_equal.
    by apply (next_of_previous_of _ _ _ s q).
  - intros p [= Hprev].
    pose proof Hprev as (_ & (t & Ht & _) & _)%previous_of_Some.
    rewrite (Step_next_step_spec _ _ _ _ Ht). simpl. f_equal.
    by apply (previous_of_next_of _ _ _ s p).
Qed.

(** ** A step that precedes itself *)

Lemma completed_at_self w W r s :
  values W !! r = Some s → previous_of w W s = Some r →
  own_done w W s = true →
  ∀ depth, completed_at depth w W r = inl RuntimeError.
Proof.
  intros Hs Hprev Hown depth. induction depth as [|d IH]; [done|].
  cbn [completed_at]. rewrite Hs.
  unfold own_done in Hown. apply andb_true_iff in Hown as [-> ->].
  by rewrite Hprev.
Qed.

Lemma completed_at_self_never w W r s :
  values W !! r = Some s → previous_of w W s = Some r →
  ∀ depth, completed_at depth w W r ≠ inr true.
Proof.
  intros Hs Hprev depth. induction depth as [|d IH]; [done|].
  cbn [completed_at]. rewrite Hs.
  destruct (effective_completed w W s); [|done].
  destruct (negb (truthy (effective_errors w W s))); [|done].
  by rewrite Hprev.
Qed.

(** X5.  When the backward scan of a step finds the step itself, as it
    does for a step whose index exceeds its position after two included
    definitions have shared a slug, the step is never completed and
    never accessible; and when it answers for itself, [is_completed()]
    and [is_accessible()] exceed the recursion limit, however deep the
    stack. *)
Theorem step_preceding_itself w W r s :
  values W !! r = Some s →
  (Step_previous_step w r W).1 = inr (Some r) →
  (∀ depth, (Step_is_completed depth w r W).1 ≠ inr true ∧
            (Step_is_accessible depth w r W).1 ≠ inr true) ∧
  (own_done w W s = true →
   ∀ depth, (Step_is_completed depth w r W).1 = inl RuntimeError ∧
            (Step_is_accessible depth w r W).1 = inl RuntimeError).
Proof.
  intros Hs. rewrite (Step_previous_step_spec _ _ _ _ Hs). simpl.
  intros [= Hprev].
  assert (Hacc : ∀ depth,
    accessible_at depth w W r = completed_at depth w W r).
  { intros depth. unfold accessible_at. by rewrite Hs, Hprev. }
  split.
  - intros depth.
    destruct (Step_is_completed_spec depth w W r) as (W1 & -> & _).
    destruct (Step_is_accessible_spec depth w W r) as (W2 & -> & _).
    simpl. rewrite Hacc. split; by apply (completed_at_self_never _ _ _ s).
  - intros Hown depth.
    destruct (Step_is_completed_spec depth w W r) as (W1 & -> & _).
    destruct (Step_is_accessible_spec depth w W r) as (W2 & -> & _).
    simpl. rewrite Hacc. split; by apply (completed_at_self _ _ _ s).
Qed.

(** ** The step a request lands on *)

Lemma last_active_Some w W p :
  last_active w W = Some p ↔ active_at w W p ∧ no_active_after w W p.
Proof.
  unfold last_active, active_at, no_active_after.
  set (l := values W). rewrite fmap_Some. split.
  - intros ([i x] & Hfind & ->).
    apply list_find_Some in Hfind as (Hl & HP & Hbefore). simpl.
    pose proof (lookup_lt_Some _ _ _ Hl) as Hi.
    rewrite length_reverse in Hi. rewrite reverse_lookup in Hl by done.
    split; [exists x; split; [done|by apply Is_true_true]|].
    intros q t Hq Ht. pose proof (lookup_lt_Some _ _ _ Ht) as Hq'.
    apply Is_true_false, (Hbefore (length l - S q)); [|lia].
    rewrite reverse_lookup by lia.
    by replace (length l - S (length l - S q)) with q by lia.
  - intros ((t & Ht & Hact) & Hafter).
    pose proof (lookup_lt_Some _ _ _ Ht) as Hp.
    exists (length l - S p, t). split.
    + apply list_find_Some. split_and!.
      * rewrite reverse_lookup by lia.
        by replace (length l - S (length l - S p)) with p by lia.
      * by apply Is_true_true.
      * intros j y Hj Hlt. apply Is_true_false.
        pose proof (lookup_lt_Some _ _ _ Hj) as Hj'.
        rewrite length_reverse in Hj'. rewrite reverse_lookup in Hj by done.
        apply (Hafter (length l - S j)); [lia|done].
    + simpl. lia.
Qed.

Lemma last_active_None w W :
  last_active w W = None ↔
  ∀ q t, values W !! q = Some t → step_active w W t = false.
Proof.
  unfold last_active. rewrite fmap_None, list_find_None, Forall_forall. split.
  - intros Hall q t Ht. apply Is_true_false, Hall, elem_of_reverse.
    by eapply list_elem_of_lookup_2.
  - intros Hall x Hx. rewrite elem_of_reverse in Hx.
    apply list_elem_of_lookup in Hx as (q & Hq).
    apply Is_true_false. by apply (Hall q).
Qed.

Lemma open_at_served depth w W r :
  indexed_by_position W → length (values W) ≤ depth →
  open_at depth w W r ↔ served w W r = true.
Proof.
  intros Hidx Hd. unfold open_at, served, active_at. split.
  - intros [Hacc (t & Ht & Hact)]. rewrite Ht, Hact. simpl.
    pose proof (lookup_lt_Some _ _ _ Ht) as Hr.
    rewrite (accessible_at_forward _ _ _ _ t) in Hacc by (done || lia).
    congruence.
  - destruct (values W !! r) as [t|] eqn:Ht; [|done].
    pose proof (lookup_lt_Some _ _ _ Ht) as Hr.
    intros [Hact Hpre]%andb_true_iff. split; [|by exists t].
    rewrite (accessible_at_forward _ _ _ _ t) by (done || lia).
    by rewrite Hpre.
Qed.

Lemma closed_at_served depth w W r :
  indexed_by_position W → length (values W) ≤ depth →
  r < length (values W) → served w W r = false → closed_at depth w W r.
Proof.
  intros Hidx Hd Hr Hno.
  destruct (open_or_closed depth w W r Hidx Hd Hr) as [Hopen|]; [|done].
  apply (open_at_served _ _ _ _ Hidx Hd) in Hopen. congruence.
Qed.

Lemma frontier_last_open depth w W p :
  indexed_by_position W → length (values W) ≤ depth →
  frontier w W = Some p → last_open depth w W p.
Proof.
  intros Hidx Hd. unfold frontier.
  destruct (list_find _ (values W)) as [[i t]|] eqn:Hfind.
  - intros [= <-]. simpl.
    apply list_find_Some in Hfind as (Ht & Hbad & Hbefore).
    apply Is_true_true, andb_true_iff in Hbad as [Hact Hown].
    apply negb_true_iff in Hown. split.
    + apply (open_at_served _ _ _ _ Hidx Hd). unfold served.
      rewrite Ht, Hact. simpl. apply prefix_done_true.
      intros q u Hq Hu Hon. specialize (Hbefore q u Hu Hq).
      apply Is_true_false in Hbefore. rewrite Hon in Hbefore. simpl in Hbefore.
      by apply negb_false_iff in Hbefore.
    + intros q [Hq1 Hq2]. apply closed_at_served; [done..|].
      unfold served. destruct (values W !! q) as [u|]; [|done].
      apply andb_false_iff. right.
      apply not_true_is_false. intros Hpre.
      rewrite prefix_done_true in Hpre.
      rewrite (Hpre i t) in Hown; done.
  - intros Hlast. apply list_find_None in Hfind.
    rewrite Forall_forall in Hfind.
    assert (Hpre : ∀ n, prefix_done w W n = true).
    { intros n. apply prefix_done_true. intros q u _ Hu Hon.
      specialize (Hfind u (list_elem_of_lookup_2 _ _ _ Hu)).
      apply Is_true_false in Hfind. rewrite Hon in Hfind. simpl in Hfind.
      by apply negb_false_iff in Hfind. }
    apply last_active_Some in Hlast as [(t & Ht & Hact) Hafter]. split.
    + apply (open_at_served _ _ _ _ Hidx Hd). unfold served.
      by rewrite Ht, Hact, Hpre.
    + intros q [Hq1 Hq2]. apply closed_at_served; [done..|].
      unfold served. destruct (values W !! q) as [u|] eqn:Hu; [|done].
      by rewrite (Hafter q u).
Qed.

Lemma frontier_None_closed depth w W :
  indexed_by_position W → length (values W) ≤ depth →
  frontier w W = None → ∀ q, q < length (values W) → closed_at depth w W q.
Proof.
  intros Hidx Hd. unfold frontier.
  destruct (list_find _ (values W)) as [[i t]|]; [done|].
  intros Hnone q Hq. pose proof (proj1 (last_active_None _ _) Hnone) as Hoff.
  apply closed_at_served; [done..|].
  unfold served. destruct (values W !! q) as [u|] eqn:Hu; [|done].
  by rewrite (Hoff q u).
Qed.

Lemma open_not_closed depth w W r :
  open_at depth w W r → closed_at depth w W r → False.
Proof.
  intros [Hacc (t & Ht & Hact)] [Hno|(_ & u & Hu & Hoff)]; congruence.
Qed.

Lemma last_open_unique depth w W p q :
  last_open depth w W p → last_open depth w W q → p = q.
Proof.
  intros [Hp Hafterp] [Hq Hafterq].
  pose proof Hp as (_ & t & Ht & _). pose proof Hq as (_ & u & Hu & _).
  apply lookup_lt_Some in Ht, Hu.
  destruct (decide (p < q)).
  { destruct (open_not_closed depth w W q); [done|]. apply Hafterp. lia. }
  destruct (decide (q < p)); [|lia].
  destruct (open_not_closed depth w W p); [done|]. apply Hafterq. lia.
Qed.

(** X6.  In a workflow whose steps are indexed by their positions, and
    with a stack as deep as the workflow is long, the last step that is
    accessible and active, to which [dispatch] redirects, is the first
    active step that does not answer for itself, or the last active step
    when every active step does. *)
Theorem last_open_frontier depth w W p :
  indexed_by_position W → length (values W) ≤ depth →
  last_open depth w W p ↔ frontier w W = Some p.
Proof.
  intros Hidx Hd. split; [|by apply frontier_last_open].
  intros Hlast. destruct (frontier w W) as [q|] eqn:Hq.
  - f_equal. apply (last_open_unique depth w W); [|done].
    by apply frontier_last_open.
  - pose proof Hlast as [Hopen _]. pose proof Hopen as (_ & t & Ht & _).
    destruct (open_not_closed depth w W p Hopen).
    apply frontier_None_closed; [done..|]. by eapply lookup_lt_Some.
Qed.

Lemma refused_served depth w W slug :
  indexed_by_position W → length (values W) ≤ depth →
  from_option (served w W) false (od_get (Some slug) (steps W)) = false →
  refused depth w W slug.
Proof.
  intros Hidx Hd. destruct (od_get _ _) as [r|] eqn:Hr; [|by left].
  simpl. intros Hno. right.
  destruct (od_get_values _ _ _ Hr) as (t & Ht).
  pose proof (lookup_lt_Some _ _ _ Ht) as Hlt.
  exists r, t. split_and!; [done..|].
  unfold served in Hno. rewrite Ht in Hno.
  apply andb_false_iff in Hno as [Hact|Hpre]; [by left|right].
  rewrite (accessible_at_forward _ _ _ _ t) by (done || lia). by rewrite Hpre.
Qed.

Lemma dispatch_outcome_returned depth w W slug
    (url_kwargs : gmap string (option value)) :
  indexed_by_position W → length (values W) ≤ depth →
  dispatch_returns reverse_url depth w W slug url_kwargs
    (dispatch_outcome reverse_url w W slug url_kwargs).
Proof.
  intros Hidx Hd. unfold dispatch_outcome. cbv zeta.
  destruct (from_option _ _ _) eqn:Hserved.
  - destruct (od_get _ _) as [r|] eqn:Hr; [|done]. simpl in Hserved.
    apply dispatch_proceeds; [done|].
    by apply (open_at_served _ _ _ _ Hidx Hd).
  - pose proof (refused_served _ _ _ _ Hidx Hd Hserved) as Hrefused.
    destruct (frontier w W) as [p|] eqn:Hp.
    + pose proof (frontier_last_open _ _ _ _ Hidx Hd Hp) as Hlast.
      pose proof Hlast as [(_ & t & Ht & _) _]. rewrite Ht.
      by apply dispatch_redirects with p.
    + apply dispatch_falls_through; [done|].
      by apply frontier_None_closed.
Qed.

(** X7.  In a workflow whose steps are indexed by their positions, and
    with a stack as deep as the workflow is long, [dispatch] raises
    nothing and its response can be read in one pass: the request
    proceeds with the step it names when that step is active and every
    active step before it answers for itself; otherwise it is redirected
    to the first active step that does not, or to the last active step
    when all do; and with no active step it proceeds with the step it
    named, or with none. *)
Theorem dispatch_one_pass depth w W slug
    (url_kwargs : gmap string (option value)) :
  indexed_by_position W → length (values W) ≤ depth →
  dispatch_returns reverse_url depth w W slug url_kwargs
    (dispatch_outcome reverse_url w W slug url_kwargs).
Proof. apply dispatch_outcome_returned. Qed.

(** ** Following a redirect *)

Lemma od_get_NoDup {V : Type} (k : option string) (v : V)
    (od : list (option string * V)) p :
  NoDup od.*1 → od !! p = Some (k, v) → od_get k od = Some p.
Proof.
  intros Hnd Hp. unfold od_get. apply fmap_Some. exists (p, (k, v)).
  split; [|done]. apply list_find_Some. split_and!; [done..|].
  intros j [k' v'] Hj Hlt Hk. simpl in Hk. subst k'.
  assert (j = p); [|lia].
  apply (NoDup_lookup _ _ _ k Hnd); by rewrite list_lookup_fmap, ?Hj, ?Hp.
Qed.

Lemma od_get_key W p sl :
  NoDup (steps W).*1 → (steps W).*1 !! p = Some (Some sl) →
  od_get (Some sl) (steps W) = Some p.
Proof.
  intros Hnd Hp. apply list_lookup_fmap_Some_1 in Hp as ([k v] & Hk & Hp).
  simpl in Hk. subst k. by apply (od_get_NoDup _ v).
Qed.

Lemma dispatch_returns_agree depth w W slug
    (url_kwargs : gmap string (option value)) resp resp' :
  dispatch_returns reverse_url depth w W slug url_kwargs resp →
  dispatch_returns reverse_url depth w W slug url_kwargs resp' →
  resp = resp'.
Proof. intros (W1 & H1) (W2 & H2). congruence. Qed.

(** X8.  A redirect is followed without a second one.  In a workflow
    with pairwise distinct keys whose steps are indexed by their
    positions, and with a stack as deep as the workflow is long, when
    [dispatch] answers a redirect, the location is that of a step of the
    workflow, and a request that names this step by its key, in the same
    external state, proceeds with it. *)
Theorem redirect_is_followed depth w W slug
    (url_kwargs : gmap string (option value)) location :
  indexed_by_position W → length (values W) ≤ depth →
  NoDup (steps W).*1 →
  dispatch_returns reverse_url depth w W slug url_kwargs
    (HttpResponseRedirect location) →
  ∃ p t, values W !! p = Some t ∧
    location = reverse_url (view_name (step_class t))
                           (WorkflowMixin_clean_kwargs url_kwargs) ∧
    ∀ sl (url_kwargs' : gmap string (option value)),
      (steps W).*1 !! p = Some (Some sl) →
      dispatch_returns reverse_url depth w W sl url_kwargs'
        (SuperDispatch (Some p)).
Proof.
  intros Hidx Hd Hnd Hret.
  pose proof (dispatch_outcome_returned depth w W slug url_kwargs Hidx Hd)
    as Hout.
  pose proof (dispatch_returns_agree _ _ _ _ _ _ _ Hret Hout) as Heq.
  unfold dispatch_outcome in Heq. cbv zeta in Heq.
  destruct (from_option _ _ _); [done|].
  destruct (frontier w W) as [p|] eqn:Hp; [|done].
  destruct (values W !! p) as [t|] eqn:Ht; [|done].
  injection Heq as ->. exists p, t. split_and!; [done..|].
  intros sl url_kwargs' Hkey.
  apply dispatch_proceeds; [by apply od_get_key|].
  by apply (frontier_last_open _ _ _ _ Hidx Hd).
Qed.

(** ** From a step to the next *)

Lemma prefix_done_mono w W n m :
  n ≤ m → prefix_done w W m = true → prefix_done w W n = true.
Proof.
  rewrite !prefix_done_true. intros Hnm Hall q t Hq. apply Hall. lia.
Qed.

(** X9.  The step [get_success_url] sends to after a submission without
    errors is the next active step.  In a workflow with pairwise
    distinct keys whose steps are indexed by their positions, and with a
    stack as deep as the workflow is long, a request that names the next
    step of an active step proceeds with it when the active step is
    completed, and is redirected to the active step or to a step before
    it when the active step is not completed. *)
Theorem next_step_request depth w W r s q sl
    (url_kwargs : gmap string (option value)) :
  indexed_by_position W → length (values W) ≤ depth →
  NoDup (steps W).*1 →
  values W !! r = Some s →
  (Step_is_active w r W).1 = inr true →
  (Step_next_step w r W).1 = inr (Some q) →
  (steps W).*1 !! q = Some (Some sl) →
  ((Step_is_completed depth w r W).1 = inr true →
   dispatch_returns reverse_url depth w W sl url_kwargs
     (SuperDispatch (Some q))) ∧
  ((Step_is_completed depth w r W).1 = inr false →
   ∃ p t, p ≤ r ∧ values W !! p = Some t ∧
     dispatch_returns reverse_url depth w W sl url_kwargs
       (HttpResponseRedirect
          (reverse_url (view_name (step_class t))
                       (WorkflowMixin_clean_kwargs url_kwargs)))).
Proof.
  intros Hidx Hd Hnd Hs.
  rewrite (Step_is_active_spec _ _ _ _ Hs), (Step_next_step_spec _ _ _ _ Hs).
  simpl. intros [= Hact] [= Hnext] Hkey.
  pose proof Hnext as (Hlt & Hq & Hbetween)%next_of_Some.
  rewrite (Hidx _ _ Hs) in Hlt, Hbetween.
  pose proof Hq as (t & Ht & Hon).
  pose proof (next_of_previous_of _ _ _ _ _ _ Hidx Hs Ht Hact Hnext) as Hprev.
  pose proof (od_get_key _ _ _ Hnd Hkey) as Hget.
  assert (Hacc : accessible_at depth w W q = completed_at depth w W r).
  { unfold accessible_at. by rewrite Ht, Hprev. }
  destruct (Step_is_completed_spec depth w W r) as (W1 & -> & _). simpl.
  split; intros Hc.
  - apply dispatch_proceeds; [done|]. split; [congruence|done].
  - assert (Hrefused : refused depth w W sl).
    { right. exists q, t. split_and!; [done..|]. right. congruence. }
    destruct (last_open_exists depth w W r Hidx Hd) as (p & Hlast);
      [by exists s|].
    pose proof Hlast as [Hopen _]. pose proof Hopen as (_ & u & Hu & Hup).
    exists p, u. split_and!; [|done|by apply dispatch_redirects with p].
    destruct (decide (p ≤ r)); [done|]. exfalso.
    pose proof (lookup_lt_Some _ _ _ Ht) as Hqlen.
    rewrite (accessible_at_forward _ _ _ _ t) in Hacc by (done || lia).
    rewrite Hc in Hacc. injection Hacc as Hpre.
    apply (open_at_served _ _ _ _ Hidx Hd) in Hopen. unfold served in Hopen.
    rewrite Hu in Hopen. apply andb_true_iff in Hopen as [_ Hprep].
    destruct (decide (p < q)).
    + rewrite (Hbetween p u) in Hup; [done|lia|done].
    + rewrite (prefix_done_mono w W q p) in Hpre; [done|lia|done].
Qed.

(** ** What the calls leave alone *)

Lemma same_structure_refl W : same_structure W W.
Proof.
  split; [done|]. apply Forall_Forall2_diag, Forall_forall.
  intros kv _. split_and!; done.
Qed.

Lemma same_structure_trans W1 W2 W3 :
  same_structure W1 W2 → same_structure W2 W3 → same_structure W1 W3.
Proof.
  intros [Ha1 H1] [Ha2 H2]. split; [congruence|].
  eapply Forall2_trans; [|exact H1|exact H2].
  intros kv1 kv2 kv3 (Hk1 & Hc1 & Hi1 & Hck1 & Hek1)
                     (Hk2 & Hc2 & Hi2 & Hck2 & Hek2).
  split_and!; [congruence..|eauto|eauto].
Qed.

Lemma evolves_same_structure w W W' : evolves w W W' → same_structure W W'.
Proof.
  intros [Ha H]. split; [done|].
  eapply Forall2_impl; [exact H|]. intros kv kv' [Hk Hs].
  split_and!; [done|apply Hs..].
Qed.

Lemma same_structure_lookup W W' r s :
  same_structure W W' → values W !! r = Some s →
  ∃ s', values W' !! r = Some s' ∧
        step_class s' = step_class s ∧ index s' = index s ∧
        (∀ c, _completed s = Some c → _completed s' = Some c) ∧
        (∀ e, _errors s = Some e → _errors s' = Some e).
Proof.
  intros [_ H] Hs. unfold values in *.
  apply list_lookup_fmap_Some_1 in Hs as (kv & -> & Hkv).
  destruct (Forall2_lookup_l _ _ _ _ _ H Hkv) as (kv' & Hkv' & _ & Hrest).
  exists kv'.2. split; [|done]. by rewrite list_lookup_fmap, Hkv'.
Qed.

Lemma request_refused_evolves depth w W (current_step : option nat) :
  evolves w W (request_refused depth w current_step W).2.
Proof.
  destruct current_step as [r|]; [|apply evolves_refl].
  unfold request_refused, bind.
  destruct (values W !! r) as [s|] eqn:Hs.
  - rewrite (Step_is_active_spec _ _ _ _ Hs).
    destruct (step_active w W s); [|apply evolves_refl].
    destruct (Step_is_accessible_spec depth w W r) as (W' & -> & Hev).
    by destruct (accessible_at depth w W r).
  - unfold Step_is_active, bind. rewrite (get_step_None _ _ Hs).
    apply evolves_refl.
Qed.

Lemma redirect_scan_evolves depth w W cands :
  evolves w W (redirect_scan depth w cands W).2.
Proof.
  revert W. induction cands as [|r rest IH]; intros W; [apply evolves_refl|].
  cbn [redirect_scan]. unfold bind at 1.
  destruct (Step_is_accessible_spec depth w W r) as (W1 & -> & Hev1).
  destruct (accessible_at depth w W r) as [e|[|]]; [done| |].
  - unfold bind. destruct (values W1 !! r) as [s|] eqn:Hs.
    + rewrite (Step_is_active_spec _ _ _ _ Hs).
      destruct (step_active w W1 s); [done|].
      eapply evolves_trans; [exact Hev1|apply IH].
    + unfold Step_is_active, bind. by rewrite (get_step_None _ _ Hs).
  - eapply evolves_trans; [exact Hev1|apply IH].
Qed.

Lemma dispatch_step_evolves depth w W slug
    (url_kwargs : gmap string (option value)) :
  evolves w W (dispatch_step reverse_url depth w slug url_kwargs W).2.
Proof.
  unfold dispatch_step. unfold bind at 1. unfold get_workflow_state.
  unfold bind at 1.
  pose proof (request_refused_evolves depth w W
                (od_get (Some slug) (steps W))) as Hev1.
  destruct (request_refused _ _ _ W) as [[e|[|]] W1]; simpl in Hev1;
    [done| |done].
  unfold bind at 1.
  pose proof (redirect_scan_evolves depth w W1
                (reverse (seq 0 (length (values W))))) as Hev2.
  destruct (redirect_scan _ _ _ W1) as [[e|[p|]] W2]; simpl in Hev2.
  - by eapply evolves_trans.
  - unfold bind, get_step. destruct (values W2 !! p); by eapply evolves_trans.
  - by eapply evolves_trans.
Qed.

Lemma get_success_url_evolves w W (current_step : option nat)
    (url_kwargs : gmap string (option value)) :
  evolves w W
    (WorkflowMixin_get_success_url reverse_url w current_step url_kwargs W).2.
Proof.
  destruct current_step as [r|]; [|apply evolves_refl].
  unfold WorkflowMixin_get_success_url. unfold bind at 1.
  destruct (values W !! r) as [s|] eqn:Hs.
  - destruct (Step_errors_spec w _ _ _ Hs) as (W1 & -> & Hev).
    unfold bind at 1. destruct (truthy _).
    + unfold bind, get_step. by destruct (values W1 !! r).
    + unfold bind at 1. unfold Step_next_step, bind at 1, get_step.
      destruct (values W1 !! r) as [s1|]; [|done].
      destruct (next_of w W1 s1) as [q|]; [|done].
      unfold bind. by destruct (values W1 !! q).
  - rewrite (Step_errors_dangling _ _ _ Hs). apply evolves_refl.
Qed.

(** X10.  No call writes anything but the two memoised attributes:
    after any calls of [is_completed], [errors], [is_valid] and
    [is_accessible], after [dispatch] and after [get_success_url],
    returned or raised, the workflow has the attributes, the keys in
    their order, and for each step the class and the index it had, and
    every value that was memoised is still there. *)
Theorem calls_keep_structure depth w W cs slug (current_step : option nat)
    (url_kwargs : gmap string (option value)) :
  same_structure W (run_calls depth w cs W).2 ∧
  same_structure W (dispatch_step reverse_url depth w slug url_kwargs W).2 ∧
  same_structure W
    (WorkflowMixin_get_success_url reverse_url w current_step url_kwargs W).2.
Proof.
  split_and!; apply (evolves_same_structure w).
  - apply run_calls_spec.
  - apply dispatch_step_evolves.
  - apply get_success_url_evolves.
Qed.

(** ** Memoised values outlive the state they were read in *)

Lemma Step_errors_stored w W r e W1 :
  Step_errors w r W = (inr e, W1) →
  ∃ s1, values W1 !! r = Some s1 ∧ _errors s1 = Some e.
Proof.
  unfold Step_errors, bind, get_step.
  destruct (values W !! r) as [s|] eqn:Hs; [|done].
  destruct (_errors s) as [e0|] eqn:Ee.
  - intros [= <- <-]. by exists s.
  - unfold assign_errors, bind. rewrite (get_step_Some _ _ _ Hs).
    intros [= <- <-]. unfold values, update_step. simpl.
    unfold values in Hs. apply list_lookup_fmap_Some_1 in Hs as (kv & -> & Hkv).
    eexists. split.
    + rewrite list_lookup_fmap, list_lookup_alter, decide_True by done.
      by rewrite Hkv.
    + done.
Qed.

Lemma Step_errors_memoised w W r s e :
  values W !! r = Some s → _errors s = Some e →
  Step_errors w r W = (inr e, W).
Proof.
  intros Hs He. unfold Step_errors, bind.
  by rewrite (get_step_Some _ _ _ Hs), He.
Qed.

(** X11.  Once [errors] has been read on a step, every later read on
    that step object answers the same list, and [is_valid] accordingly,
    whatever calls were made on the workflow in between and whatever the
    external state has become: the memoised list is not refreshed. *)
Theorem errors_frozen w W r e W1 depth w' cs w'' :
  Step_errors w r W = (inr e, W1) →
  Step_errors w'' r (run_calls depth w' cs W1).2
    = (inr e, (run_calls depth w' cs W1).2) ∧
  Step_is_valid w'' r (run_calls depth w' cs W1).2
    = (inr (negb (truthy e)), (run_calls depth w' cs W1).2).
Proof.
  intros Hread.
  destruct (Step_errors_stored _ _ _ _ _ Hread) as (s1 & Hs1 & He1).
  pose proof (evolves_same_structure w' _ _
                (proj2 (run_calls_spec depth w' cs W1))) as Hsame.
  destruct (same_structure_lookup _ _ _ _ Hsame Hs1)
    as (s2 & Hs2 & _ & _ & _ & Hkept).
  pose proof (Step_errors_memoised w'' _ _ _ _ Hs2 (Hkept _ He1)) as Hagain.
  split; [done|]. unfold Step_is_valid, bind. by rewrite Hagain.
Qed.

(** ** Construction, whatever the arguments *)


Lemma setattrs_inr (items : list (string * value))
    (obj obj' : gmap string value) :
  setattrs items obj = inr obj' →
  ("active_steps" ∉ items.*1) ∧ ("__weakref__" ∉ items.*1) ∧
  ("__class__" ∉ items.*1) ∧
  ∀ v, ("__dict__", v) ∈ items → is_Some (as_dict v).
Proof.
  revert obj. induction items as [|[k v] items IH]; intros obj.
  - intros _. split_and!; try (intros Hin; by apply elem_of_nil in Hin).
    intros v Hin. by apply elem_of_nil in Hin.
  - cbn [setattrs]. rewrite fmap_cons. cbn [fst].
    destruct (setattr k v obj) as [e'|obj1] eqn:Hset; [done|].
    intros (Ha & Hw & Hc & Hd)%IH. unfold setattr in Hset.
    repeat case_decide; try done.
    + by destruct (as_class v).
    + subst k. destruct (as_dict v) as [d|] eqn:Hv; [|done].
      split_and!; try (apply not_elem_of_cons; by split).
      intros v' [[= <-]|Hin]%elem_of_cons; [by rewrite Hv|by apply Hd].
    + split_and!; try (apply not_elem_of_cons; by split).
      intros v' [[= ? ?]|Hin]%elem_of_cons; [done|by apply Hd].
Qed.

Lemma elem_of_fst_map_to_list kwargs k :
  k ∈ (map_to_list kwargs).*1 ↔ is_Some (kwargs !! k).
Proof.
  rewrite list_elem_of_fmap. split.
  - intros ([k' v] & -> & Hin). apply elem_of_map_to_list in Hin. by exists v.
  - intros [v Hv]. exists (k, v). split; [done|]. by apply elem_of_map_to_list.
Qed.




(** ** Definitions that share a slug *)

Lemma od_setitem_keys {V : Type} (k : option string) (v : V)
    (od : list (option string * V)) :
  (od_setitem k v od).*1 = if decide (k ∈ od.*1) then od.*1 else od.*1 ++ [k].
Proof.
  induction od as [|[k' v'] od IH]; [done|].
  cbn [od_setitem]. rewrite !fmap_cons. cbn [fst].
  destruct (decide (k = k')) as [->|Hne].
  - rewrite decide_True by left. done.
  - rewrite fmap_cons, IH. cbn [fst].
    destruct (decide (k ∈ od.*1)) as [Hin|Hnin].
    + rewrite decide_True by (by right). done.
    + rewrite decide_False; [done|].
      intros [?|?]%elem_of_cons; done.
Qed.

Lemma od_setitem_NoDup {V : Type} (k : option string) (v : V)
    (od : list (option string * V)) :
  NoDup od.*1 → NoDup (od_setitem k v od).*1.
Proof.
  intros Hnd. rewrite od_setitem_keys. case_decide; [done|].
  apply NoDup_app. split_and!; [done| |apply NoDup_singleton].
  intros x Hx ->%list_elem_of_singleton. done.
Qed.

Lemma od_setitem_length {V : Type} (k : option string) (v : V)
    (od : list (option string * V)) :
  length (od_setitem k v od) ≤ S (length od).
Proof.
  rewrite <- (length_fmap fst (od_setitem k v od)), od_setitem_keys.
  case_decide; rewrite ?length_app, length_fmap; simpl; lia.
Qed.

Lemma od_setitem_lookup {V : Type} (k : option string) (v : V)
    (od : list (option string * V)) r k' v' :
  od_setitem k v od !! r = Some (k', v') →
  (k' = k ∧ v' = v) ∨ (k' ≠ k ∧ od !! r = Some (k', v')) ∨
  (k' = k ∧ ∃ j, j < r ∧ od.*1 !! j = Some k).
Proof.
  revert r. induction od as [|[k0 v0] od IH]; intros r.
  - simpl. destruct r; [|done]. intros [= <- <-]. by left.
  - cbn [od_setitem]. destruct (decide (k = k0)) as [->|Hne].
    + destruct r as [|r]; simpl.
      * intros [= <- <-]. by left.
      * intros Hr. destruct (decide (k' = k0)) as [->|Hne'].
        -- right. right. split; [done|]. exists 0. split; [lia|done].
        -- right. left. done.
    + destruct r as [|r]; simpl.
      * intros [= <- <-]. right. left. split; [congruence|done].
      * intros Hr. destruct (IH _ Hr) as [?|[?|(-> & j & Hj & Hk)]];
          [by left|by right; left|].
        right. right. split; [done|]. exists (S j). split; [lia|done].
Qed.

Lemma OrderedDict_snoc {V : Type} (items : list (option string * V)) k v :
  OrderedDict (items ++ [(k, v)]) = od_setitem k v (OrderedDict items).
Proof. unfold OrderedDict. by rewrite foldl_app. Qed.

(** An ordered dictionary built from a list of items: the keys are
    pairwise distinct, they are the keys of the items, and a value sits
    under its key no later than the last item with that key, which it
    comes from. *)
Lemma OrderedDict_last_wins {V : Type} (items : list (option string * V)) :
  NoDup (OrderedDict items).*1 ∧
  length (OrderedDict items) ≤ length items ∧
  (∀ k, k ∈ (OrderedDict items).*1 ↔ k ∈ items.*1) ∧
  ∀ r k v, OrderedDict items !! r = Some (k, v) →
    ∃ j, items !! j = Some (k, v) ∧ r ≤ j ∧
         ∀ j' v', items !! j' = Some (k, v') → j' ≤ j.
Proof.
  induction items as [|[k v] items IH] using rev_ind.
  { split_and!; [constructor|done|done|done]. }
  destruct IH as (Hnd & Hlen & Hkeys & Hlast).
  rewrite OrderedDict_snoc. split_and!.
  - by apply od_setitem_NoDup.
  - pose proof (od_setitem_length k v (OrderedDict items)).
    rewrite length_app. simpl. lia.
  - intros k'. rewrite od_setitem_keys, fmap_app, elem_of_app. simpl.
    rewrite list_elem_of_singleton, <- Hkeys.
    case_decide as Hin.
    + split; [by left|]. intros [?| ->]; done.
    + by rewrite elem_of_app, list_elem_of_singleton.
  - intros r k' v' Hr.
    pose proof (lookup_lt_Some _ _ _ Hr) as Hrlt.
    pose proof (od_setitem_length k v (OrderedDict items)) as Hlen'.
    destruct (od_setitem_lookup _ _ _ _ _ _ Hr)
      as [[-> ->]|[[Hne Hold]|(-> & j & Hj & Hk)]].
    + exists (length items). split_and!.
      * by rewrite lookup_app_r, Nat.sub_diag by lia.
      * lia.
      * intros j' v'' Hj'. apply lookup_lt_Some in Hj'.
        rewrite length_app in Hj'. simpl in Hj'. lia.
    + destruct (Hlast _ _ _ Hold) as (j & Hj & Hrj & Hmax).
      exists j. split_and!; [|done|].
      * by apply lookup_app_l_Some.
      * intros j' v'' Hj'. apply lookup_app_Some in Hj' as [Hj'|[_ Hj']].
        -- by apply (Hmax j' v'').
        -- destruct (j' - length items); simplify_eq/=.
    + exfalso.
      pose proof (od_setitem_NoDup k v _ Hnd) as Hnd'.
      assert (Hkeys' : (od_setitem k v (OrderedDict items)).*1
                       = (OrderedDict items).*1).
      { rewrite od_setitem_keys, decide_True; [done|].
        by eapply list_elem_of_lookup_2. }
      rewrite Hkeys' in Hnd'.
      assert (r = j); [|lia].
      apply (NoDup_lookup _ _ _ k Hnd'); [|done].
      by rewrite <- Hkeys', list_lookup_fmap, Hr.
Qed.

(** A workflow that is built has the classes that the attribute
    [step_classes] of the instance dictionary yields; this dictionary
    is the keyword arguments unless one of them is [__dict__]. *)
Lemma Workflow_init_Built registry kwargs W :
  Workflow_init as_step_classes registry kwargs = Built W →
  ∃ obj reg,
    (kwargs !! "__dict__" = None → obj = kwargs) ∧
    lookup_step_classes as_step_classes registry obj = inr reg ∧
    attrs W = delete "steps" obj ∧
    steps W = OrderedDict
      (imap (λ i cls, (slug cls, Step_init cls i))
            (filter (λ cls, include_in cls obj) reg)).
Proof.
  unfold Workflow_init. case_decide as Hsteps; [done|].
  destruct (setattrs (map_to_list kwargs) ∅) as [[e partial]|obj] eqn:Hset;
    [done|].
  destruct (setattrs_inr _ _ _ Hset) as (Ha & Hw & Hc & _).
  rewrite elem_of_fst_map_to_list in Ha, Hw, Hc.
  apply eq_None_not_Some in Ha, Hw, Hc.
  destruct (lookup_step_classes _ _ _) as [e|reg] eqn:Hreg; [done|].
  intros [= <-]. exists obj, reg. split_and!; [|done..].
  intros Hdict.
  rewrite (setattrs_kwargs _ (descriptors_absent _ Ha Hw Hc Hdict)) in Hset.
  by injection Hset as <-.
Qed.


Lemma Workflow_init_index_from_position registry kwargs W :
  Workflow_init as_step_classes registry kwargs = Built W →
  index_from_position W.
Proof.
  intros (obj & reg & _ & _ & _ & Hsteps)%Workflow_init_Built r s Hs.
  unfold values in Hs.
  apply list_lookup_fmap_Some_1 in Hs as ([k s'] & -> & Hr).
  rewrite Hsteps in Hr.
  destruct (OrderedDict_last_wins
    (imap (λ i cls, (slug cls, Step_init cls i))
          (filter (λ cls, include_in cls obj) reg)))
    as (_ & _ & _ & Hlast).
  destruct (Hlast _ _ _ Hr) as (j & Hj & Hrj & _).
  apply list_lookup_imap_Some in Hj as (cls & _ & [= _ ->]). done.
Qed.

(** ** A request, from the construction of its workflow *)

Lemma Workflow_init_no_kwargs registry :
  NoDup (slug <$> filter (λ cls, include_in cls ∅) registry) →
  ∃ W, Workflow_call as_step_classes registry ∅ = Built W ∧
       attrs W = ∅ ∧
       steps W = imap (λ i cls, (slug cls, Step_init cls i))
                      (filter (λ cls, include_in cls ∅) registry).
Proof.
  intros Hnd. unfold Workflow_call, Workflow_init.
  rewrite !decide_False by (rewrite lookup_empty; by intros [??]).
  rewrite map_to_list_empty. cbn [setattrs].
  unfold lookup_step_classes. rewrite lookup_empty.
  eexists. split_and!; [done|apply delete_empty|]. simpl.
  apply OrderedDict_NoDup. by rewrite imap_fst_slug.
Qed.

Lemma imap_steps_indexed W (kept : list (StepClass value World)) :
  steps W = imap (λ i cls, (slug cls, Step_init cls i)) kept →
  indexed_by_position W ∧ length (values W) = length kept ∧
  step_class <$> values W = kept.
Proof.
  intros Hsteps. unfold indexed_by_position, values. rewrite Hsteps.
  rewrite imap_snd_step. split_and!.
  - intros r s Hs. apply list_lookup_imap_Some in Hs as (cls & _ & ->). done.
  - by rewrite length_imap.
  - rewrite fmap_imap. etrans; [exact (imap_const id kept)|apply list_fmap_id].
Qed.

(** X14.  A request from the first statement of [dispatch], with
    [get_workflow] as the mixin defines it.  When the class of the view
    names a registry whose definitions included without any attribute
    have pairwise distinct slugs, and the stack is as deep as they are
    many, the workflow is built without attributes from these
    definitions in their order and the request gets the response read
    in one pass; a view that leaves [workflow_class] unset raises
    [TypeError] on every request, whatever slug it has. *)
Theorem dispatch_request_default depth w registry sl
    (url_kwargs : gmap string (option value)) :
  NoDup (slug <$> filter (λ cls, include_in cls ∅) registry) →
  length (filter (λ cls, include_in cls ∅) registry) ≤ depth →
  (∃ W W',
     WorkflowMixin_get_workflow_default as_step_classes (Some registry)
       = Built W ∧
     attrs W = ∅ ∧
     step_class <$> values W = filter (λ cls, include_in cls ∅) registry ∧
     WorkflowMixin_dispatch_request as_step_classes reverse_url depth w
       (Some registry) (Some sl) url_kwargs
     = (inr (dispatch_outcome reverse_url w W sl url_kwargs), Some W')) ∧
  (∀ current_step_slug,
     WorkflowMixin_dispatch_request as_step_classes reverse_url depth w
       None current_step_slug url_kwargs
     = (inl TypeError, None)).
Proof.
  intros Hnd Hd. split; [|done].
  destruct (Workflow_init_no_kwargs registry Hnd)
    as (W & Hbuilt & Hattrs & Hsteps).
  destruct (imap_steps_indexed _ _ Hsteps) as (Hidx & Hlen & Hcls).
  destruct (dispatch_outcome_returned depth w W sl url_kwargs Hidx)
    as (W' & Hrun); [lia|].
  exists W, W'. split_and!; [done..|].
  unfold WorkflowMixin_dispatch_request, WorkflowMixin_get_workflow_default,
    WorkflowMixin_get_workflow.
  by rewrite Hbuilt.
Qed.

(** ** The active steps as a chain *)

Lemma StronglySorted_lt_lookup (l : list nat) i j x y :
  StronglySorted lt l → i < j → l !! i = Some x → l !! j = Some y → x < y.
Proof.
  intros Hsorted. revert i j. induction Hsorted as [|z l Hsorted IH Hall];
    intros i j Hij Hi Hj; [done|].
  destruct j as [|j]; [lia|]. simpl in Hj. destruct i as [|i]; simpl in Hi.
  - simplify_eq. rewrite Forall_forall in Hall.
    apply Hall. by eapply list_elem_of_lookup_2.
  - apply (IH i j); [lia|done..].
Qed.

Lemma active_subsequence_between w W l i a b q :
  active_subsequence w W l → l !! i = Some a → l !! S i = Some b →
  a < q < b → ¬ active_at w W q.
Proof.
  intros (Hsorted & _ & Hmem) Ha Hb Hq Hact.
  apply Hmem, list_elem_of_lookup in Hact as (j & Hj).
  destruct (decide (j < i)) as [Hlt|Hge].
  { pose proof (StronglySorted_lt_lookup _ _ _ _ _ Hsorted Hlt Hj Ha). lia. }
  destruct (decide (j = i)) as [->|Hne]; [simplify_eq; lia|].
  destruct (decide (j = S i)) as [->|Hne']; [simplify_eq; lia|].
  assert (Hgt : S i < j) by lia.
  pose proof (StronglySorted_lt_lookup _ _ _ _ _ Hsorted Hgt Hb Hj). lia.
Qed.

Lemma not_active_at w W q t :
  values W !! q = Some t → ¬ active_at w W q → step_active w W t = false.
Proof.
  intros Ht Hno. apply not_true_is_false. intros Hact. apply Hno. by exists t.
Qed.

(** X24.  In a workflow whose steps are indexed by their positions,
    [active_steps] is the chain that [next_step] follows: each step of
    the list has the one after it as [next_step] and is the
    [previous_step] of that one, the first has no [previous_step] and
    the last no [next_step]. *)
Theorem active_steps_chain w W l :
  indexed_by_position W →
  Workflow_active_steps w W = (inr l, W) →
  (∀ i a b, l !! i = Some a → l !! S i = Some b →
            (Step_next_step w a W).1 = inr (Some b) ∧
            (Step_previous_step w b W).1 = inr (Some a)) ∧
  (∀ a, head l = Some a → (Step_previous_step w a W).1 = inr None) ∧
  (∀ a, last l = Some a → (Step_next_step w a W).1 = inr None).
Proof.
  intros Hidx Hrun.
  destruct (Workflow_active_steps_spec w W) as (l' & Hrun' & Hsub).
  rewrite Hrun in Hrun'. injection Hrun' as <-.
  pose proof Hsub as (Hsorted & _ & Hmem).
  assert (Hstep : ∀ a, a ∈ l →
    ∃ s, values W !! a = Some s ∧ index s = a ∧ step_active w W s = true).
  { intros a (s & Hs & Hact)%Hmem. exists s. split_and!; [done| |done].
    by apply Hidx. }
  split_and!.
  - intros i a b Ha Hb.
    destruct (Hstep a) as (s & Hs & His & Hacts);
      [by eapply list_elem_of_lookup_2|].
    destruct (Hstep b) as (t & Ht & Hit & Hactt);
      [by eapply list_elem_of_lookup_2|].
    assert (Hab : a < b).
    { apply (StronglySorted_lt_lookup l i (S i)); [done|lia|done..]. }
    assert (Hbetween : inactive_within w W (S a) b).
    { intros q u Hq Hu. apply (not_active_at _ _ q); [done|].
      apply (active_subsequence_between _ _ l i a b); [done..|lia]. }
    rewrite (Step_next_step_spec _ _ _ _ Hs).
    rewrite (Step_previous_step_spec _ _ _ _ Ht). simpl. split; f_equal.
    + apply next_of_Some. rewrite His. split_and!; [done|by exists t|done].
    + apply previous_of_Some. rewrite Hit. split_and!; [done|by exists s|done].
  - intros a Ha. apply head_Some in Ha as (l0 & ->).
    destruct (Hstep a) as (s & Hs & His & _); [by left|].
    rewrite (Step_previous_step_spec _ _ _ _ Hs). simpl. f_equal.
    apply previous_of_None. rewrite His. intros q u [_ Hq] Hu.
    apply (not_active_at _ _ q); [done|].
    intros Hact%Hmem. apply list_elem_of_lookup in Hact as (j & Hj).
    destruct j as [|j]; simpl in Hj; [simplify_eq; lia|].
    assert (H0 : 0 < S j) by lia.
    pose proof (StronglySorted_lt_lookup (a :: l0) 0 (S j) a q
                  Hsorted H0 eq_refl Hj). lia.
  - intros a Ha.
    destruct (Hstep a) as (s & Hs & His & _); [by apply last_Some_elem_of|].
    rewrite (Step_next_step_spec _ _ _ _ Hs). simpl. f_equal.
    apply next_of_None. rewrite His. intros q u Hq Hu.
    apply (not_active_at _ _ q); [done|].
    intros Hact%Hmem. apply list_elem_of_lookup in Hact as (j & Hj).
    rewrite last_lookup in Ha.
    pose proof (lookup_lt_Some _ _ _ Hj) as Hjlen.
    destruct (decide (j = pred (length l))) as [->|Hne]; [simplify_eq; lia|].
    assert (Hlt : j < pred (length l)) by lia.
    pose proof (StronglySorted_lt_lookup l _ _ _ _ Hsorted Hlt Hj Ha). lia.
Qed.

(** ** The steps a question touches *)

Lemma update_step_lookup_ne r (f : Step value World → Step value World) W q :
  q ≠ r → steps (update_step r f W) !! q = steps W !! q.
Proof. intros Hne. simpl. by apply list_lookup_alter_ne. Qed.

Lemma memo_completed_touches w W r s q :
  values W !! r = Some s → q ≠ r →
  steps (match _completed s with
         | Some c => ret c
         | None => assign_completed w r
         end W).2 !! q = steps W !! q.
Proof.
  intros Hs Hne. destruct (_completed s); [done|].
  unfold assign_completed, bind. rewrite (get_step_Some _ _ _ Hs).
  by apply update_step_lookup_ne.
Qed.

Lemma Step_errors_touches w W r q :
  q ≠ r → steps (Step_errors w r W).2 !! q = steps W !! q.
Proof.
  intros Hne. unfold Step_errors, bind, get_step.
  destruct (values W !! r) as [s|] eqn:Hs; [|done].
  destruct (_errors s); [done|].
  unfold assign_errors, bind. rewrite (get_step_Some _ _ _ Hs).
  by apply update_step_lookup_ne.
Qed.

Lemma Step_is_valid_touches w W r q :
  q ≠ r → steps (Step_is_valid w r W).2 !! q = steps W !! q.
Proof.
  intros Hne. pose proof (Step_errors_touches w W r q Hne) as Ht.
  unfold Step_is_valid, bind. by destruct (Step_errors w r W) as [[e|l] W1].
Qed.

Lemma Step_is_completed_touches depth w W r q :
  indexed_by_position W → r < q →
  steps (Step_is_completed depth w r W).2 !! q = steps W !! q.
Proof.
  revert W r. induction depth as [|d IH]; intros W r Hidx Hq; [done|].
  cbn [Step_is_completed]. unfold bind at 1.
  destruct (values W !! r) as [s|] eqn:Hs.
  2:{ by rewrite (get_step_None _ _ Hs). }
  rewrite (get_step_Some _ _ _ Hs). unfold bind at 1.
  assert (Hne : q ≠ r) by lia.
  pose proof (memo_completed_touches w W r s q Hs Hne) as Ht1.
  destruct (memo_completed_spec w _ _ _ Hs) as (W1 & Hrun1 & Hev1).
  rewrite Hrun1 in Ht1 |- *. simpl in Ht1.
  destruct (effective_completed w W s); [|done].
  destruct (evolves_lookup _ _ _ _ _ Hev1 Hs) as (s1 & Hs1 & Hstep1).
  unfold bind at 1.
  pose proof (Step_is_valid_touches w W1 r q Hne) as Ht2.
  destruct (Step_is_valid_spec w _ _ _ Hs1) as (W2 & Hrun2 & Hev2).
  rewrite Hrun2 in Ht2 |- *. simpl in Ht2.
  assert (Ht12 : steps W2 !! q = steps W !! q) by congruence.
  destruct (negb _); [|done].
  pose proof (evolves_trans _ _ _ _ Hev1 Hev2) as Hev12.
  pose proof (evolves_indexed_by_position _ _ _ Hev12 Hidx) as Hidx2.
  destruct (evolves_lookup _ _ _ _ _ Hev12 Hs) as (s2 & Hs2 & Hstep2).
  unfold bind at 1. rewrite (Step_previous_step_spec _ _ _ _ Hs2).
  destruct (previous_of w W2 s2) as [p|] eqn:Hprev; [|done].
  unfold bind at 1. rewrite (Step_previous_step_spec _ _ _ _ Hs2), Hprev.
  apply previous_of_Some in Hprev as (Hp & _).
  rewrite (Hidx2 _ _ Hs2) in Hp.
  rewrite (IH W2 p Hidx2) by lia. done.
Qed.

Lemma Step_is_accessible_touches depth w W r q :
  indexed_by_position W → r ≤ q →
  steps (Step_is_accessible depth w r W).2 !! q = steps W !! q.
Proof.
  intros Hidx Hq. unfold Step_is_accessible, bind.
  destruct (values W !! r) as [s|] eqn:Hs.
  2:{ unfold Step_previous_step, bind. by rewrite (get_step_None _ _ Hs). }
  rewrite (Step_previous_step_spec _ _ _ _ Hs).
  destruct (previous_of w W s) as [p|] eqn:Hprev; [|done].
  rewrite (Step_previous_step_spec _ _ _ _ Hs), Hprev.
  apply previous_of_Some in Hprev as (Hp & _). rewrite (Hidx _ _ Hs) in Hp.
  apply Step_is_completed_touches; [done|lia].
Qed.

(** X26.  A question put to a step touches no later step.  In a
    workflow whose steps are indexed by their positions,
    [is_completed()] on a step, returned or raised, leaves every step
    after it as it was, memoised values and probes included, and
    [is_accessible()] leaves the step itself as it was too: the hooks
    [_is_completed] and [get_errors] of these steps are not run. *)
Theorem questions_touch_no_later_step depth w W r :
  indexed_by_position W →
  (∀ q, r < q →
     values (Step_is_completed depth w r W).2 !! q = values W !! q) ∧
  (∀ q, r ≤ q →
     values (Step_is_accessible depth w r W).2 !! q = values W !! q).
Proof.
  intros Hidx. unfold values. split; intros q Hq; rewrite !list_lookup_fmap.
  - by rewrite Step_is_completed_touches.
  - by rewrite Step_is_accessible_touches.
Qed.

End Properties.

(** * Expired carts *)

Section CartProperties.

Context {Status EventId : Type} `{!EqDecision Status, !EqDecision EventId}.
Context (RESERVED : Status).

Implicit Types (event : Event EventId) (item : BoughtItem Status EventId).
Implicit Types (table : list (BoughtItem Status EventId)).

Lemma expired_reservation_later event item (before before' : Z) :
  (before ≤ before')%Z →
  expired_reservation RESERVED event before item = true →
  expired_reservation RESERVED event before' item = true.
Proof.
  intros Hle. unfold expired_reservation.
  destruct (bool_decide (status item = RESERVED)); [|done].
  destruct (order item) as [o|]; [|done].
  destruct (bool_decide (order_event o = event_pk event)); [|done].
  destruct (cart_start_time o) as [started|]; [|done]. simpl.
  rewrite !bool_decide_eq_true. lia.
Qed.

Lemma clear_expired_carts_elem_of now event table item :
  item ∈ clear_expired_carts RESERVED now event table ↔
  item ∈ table ∧
  expired_reservation RESERVED event
    (now - timedelta_minutes (cart_timeout event)) item = false.
Proof.
  unfold clear_expired_carts. cbv zeta. rewrite list_elem_of_filter. tauto.
Qed.

(** X15.  What a clearing deletes and what it leaves.  The rows
    left are the rows of the table in their order; a row is deleted
    exactly when it is reserved, belongs to an order of the event, and
    its cart was started at least [cart_timeout] minutes before the
    clearing; so a row that is not reserved, or has no order, or is of
    another event, or whose cart has no starting time or a younger one,
    stays. *)
Theorem clear_expired_carts_deletes now event table :
  sublist (clear_expired_carts RESERVED now event table) table ∧
  ∀ item, item ∈ table →
    (item ∉ clear_expired_carts RESERVED now event table ↔
     status item = RESERVED ∧
     ∃ o started, order item = Some o ∧ order_event o = event_pk event ∧
       cart_start_time o = Some started ∧
       (started + cart_timeout event * 60000000 ≤ now)%Z).
Proof.
  split; [apply sublist_filter|].
  intros item Hin. rewrite clear_expired_carts_elem_of.
  unfold expired_reservation, timedelta_minutes.
  destruct (decide (status item = RESERVED)) as [Hst|Hst].
  2:{ rewrite bool_decide_eq_false_2 by done. simpl. split; [tauto|].
      by intros [? _]. }
  rewrite bool_decide_eq_true_2 by done. simpl.
  destruct (order item) as [o|].
  2:{ split; [tauto|]. by intros (_ & o & started & ? & _). }
  destruct (decide (order_event o = event_pk event)) as [Hev|Hev].
  2:{ rewrite bool_decide_eq_false_2 by done. simpl. split; [tauto|].
      intros (_ & o' & started & [= <-] & ? & _). done. }
  rewrite bool_decide_eq_true_2 by done. simpl.
  destruct (cart_start_time o) as [started|] eqn:Hstart.
  2:{ split; [tauto|].
      intros (_ & o' & started & [= <-] & _ & ? & _). congruence. }
  rewrite bool_decide_eq_false. split.
  - intros Hno. split; [done|]. exists o, started. split_and!; [done..|].
    destruct (decide (started ≤ now - cart_timeout event * 60000000)%Z);
      [lia|]. destruct Hno. by split.
  - intros (_ & o' & started' & [= <-] & _ & Hs & Hle) [_ Hgt].
    rewrite Hstart in Hs. injection Hs as <-. lia.
Qed.

(** X16.  Clearings compose.  A clearing followed by a later clearing
    for the same event leaves what the later one alone leaves, so that
    clearing twice at one moment is clearing once; and clearings for two
    events, at any two moments, leave the same table in either
    order. *)
Theorem clear_expired_carts_compose now now' event event' table :
  ((now ≤ now')%Z →
   clear_expired_carts RESERVED now' event
     (clear_expired_carts RESERVED now event table)
   = clear_expired_carts RESERVED now' event table) ∧
  clear_expired_carts RESERVED now' event'
    (clear_expired_carts RESERVED now event table)
  = clear_expired_carts RESERVED now event
      (clear_expired_carts RESERVED now' event' table).
Proof.
  unfold clear_expired_carts. cbv zeta. split.
  - intros Hle. rewrite list_filter_filter. apply list_filter_iff.
    intros item. split; [tauto|]. intros Hkeep. split; [done|].
    apply not_true_is_false. intros Hgone.
    apply (expired_reservation_later event item _
             (now' - timedelta_minutes (cart_timeout event))) in Hgone;
      [congruence|lia].
  - rewrite !list_filter_filter. apply list_filter_iff. intros item. tauto.
Qed.

End CartProperties.

(** * The navigation of an event *)

Lemma prefix_of_both (a b s : string) :
  String.prefix a s = true → String.prefix b s = true →
  String.prefix a b = true ∨ String.prefix b a = true.
Proof.
  revert a b. induction s as [|c s IH]; intros a b.
  - destruct a, b; try done. intros _ _. by left.
  - destruct a as [|x a]; [intros _ _; left; by destruct b|].
    destruct b as [|y b]; [by intros _ _; right|].
    simpl.
    destruct (Ascii.ascii_dec x c) as [->|]; [|done].
    destruct (Ascii.ascii_dec y c) as [->|]; [|done].
    destruct (Ascii.ascii_dec c c); [|done]. apply IH.
Qed.

Lemma prefix_app_r (a s rest : string) :
  String.prefix a s = true → String.prefix a (s +:+ rest) = true.
Proof.
  revert a. induction s as [|c s IH]; intros a.
  - destruct a; [|done]. intros _. by destruct rest.
  - destruct a as [|x a]; [done|]. simpl.
    destruct (Ascii.ascii_dec x c); [apply IH|done].
Qed.

Lemma get_event_admin_nav_editable reverse es os path :
  get_event_admin_nav reverse true es os path
  = (λ it, NavItem.init path
             (reverse it.1.1
                {[ "event_slug" := es; "organization_slug" := os ]})
             it.1.2 it.2) <$> admin_nav_items.
Proof. done. Qed.

Lemma get_event_admin_nav_lookup reverse es os path i item :
  get_event_admin_nav reverse true es os path !! i = Some item →
  NavItem.request_path item = path ∧
  ∃ view, NavItem.url item
          = reverse view {[ "event_slug" := es; "organization_slug" := os ]}.
Proof.
  rewrite get_event_admin_nav_editable, list_lookup_fmap.
  destruct (admin_nav_items !! i) as [[[view lbl] ico]|]; [|done].
  simpl. intros [= <-]. split; [done|]. by exists view.
Qed.

(** X17.  The navigation of an event is empty for a user who may not
    edit it and has the eight items in their order otherwise, none of
    them disabled.  An item that is active on a path is active on every
    path that extends it, and two items are active at once only when the
    URL of one is the beginning of the URL of the other. *)
Theorem get_event_admin_nav_active reverse es os path :
  get_event_admin_nav reverse false es os path = [] ∧
  NavItem.label <$> get_event_admin_nav reverse true es os path
    = ["Summary"; "Settings"; "Items"; "Forms"; "Discounts"; "Attendees";
       "Orders"; "Finances"] ∧
  (∀ item, item ∈ get_event_admin_nav reverse true es os path →
           NavItem.disabled item = false) ∧
  (∀ i item item' rest,
     get_event_admin_nav reverse true es os path !! i = Some item →
     get_event_admin_nav reverse true es os (path +:+ rest) !! i = Some item' →
     NavItem.is_active item = true → NavItem.is_active item' = true) ∧
  (∀ i j item item',
     get_event_admin_nav reverse true es os path !! i = Some item →
     get_event_admin_nav reverse true es os path !! j = Some item' →
     NavItem.is_active item = true → NavItem.is_active item' = true →
     String.prefix (NavItem.url item) (NavItem.url item') = true ∨
     String.prefix (NavItem.url item') (NavItem.url item) = true).
Proof.
  split_and!; [done|done| | |].
  - intros item Hin. rewrite get_event_admin_nav_editable in Hin.
    apply list_elem_of_fmap in Hin as (it & -> & _). done.
  - intros i item item' rest.
    rewrite !get_event_admin_nav_editable, !list_lookup_fmap.
    destruct (admin_nav_items !! i) as [[[view lbl] ico]|]; [|done].
    simpl. intros [= <-] [= <-]. unfold NavItem.is_active. simpl.
    apply prefix_app_r.
  - intros i j item item' Hi Hj.
    destruct (get_event_admin_nav_lookup _ _ _ _ _ _ Hi) as [Hp _].
    destruct (get_event_admin_nav_lookup _ _ _ _ _ _ Hj) as [Hp' _].
    unfold NavItem.is_active. rewrite Hp, Hp'. apply prefix_of_both.
Qed.

(** * The filter [ljust] *)

Lemma string_app_cons (c : Ascii.ascii) (s t : string) :
  String c s +:+ t = String c (s +:+ t).
Proof. done. Qed.

Lemma string_length_app (s t : string) :
  String.length (s +:+ t) = String.length s + String.length t.
Proof.
  induction s as [|c s IH]; [done|].
  rewrite string_app_cons. simpl. by rewrite IH.
Qed.

Lemma string_app_empty_r (s : string) : s +:+ "" = s.
Proof.
  induction s as [|c s IH]; [done|]. by rewrite string_app_cons, IH.
Qed.

Lemma string_prefix_app (s t : string) : String.prefix s (s +:+ t) = true.
Proof.
  induction s as [|c s IH]; [by destruct t|].
  rewrite string_app_cons. simpl. by destruct (Ascii.ascii_dec c c).
Qed.

Lemma fill_length c n : String.length (Plaintext.fill c n) = n.
Proof. induction n as [|n IH]; simpl; [done|by rewrite IH]. Qed.

Lemma fill_get c n i : i < n → String.get i (Plaintext.fill c n) = Some c.
Proof.
  revert i. induction n as [|n IH]; intros i Hi; [lia|].
  destruct i as [|i]; simpl; [done|]. apply IH. lia.
Qed.

Lemma string_get_app_r (s t : string) i :
  String.length s ≤ i →
  String.get i (s +:+ t) = String.get (i - String.length s) t.
Proof.
  revert i. induction s as [|c s IH]; intros i Hi.
  - simpl. by rewrite Nat.sub_0_r.
  - rewrite string_app_cons. simpl in Hi |- *.
    destruct i as [|i]; [lia|]. simpl. apply IH. lia.
Qed.

(** X18.  For a string, a width that fits a size, a fill of one
    character and, when the width exceeds the length of the string,
    the memory for a string of that width, [ljust] answers the string
    followed by copies of the fill: a string that begins with the one
    given, is as long as the longer of the given one and the width, and
    holds the fill at every place after the given one.  Padding the
    answer again to the same width changes nothing. *)
Theorem ljust_pads (maxsize : Z) (allocate : Z → Plaintext.allocation)
    (s : string) (n : Z) (c : Ascii.ascii) :
  (- maxsize - 1 ≤ n ≤ maxsize)%Z →
  (n ≤ Z.of_nat (String.length s))%Z ∨ allocate n = Plaintext.Allocated →
  ∃ r,
    Plaintext.ljust maxsize allocate (Plaintext.PyStr s) (Plaintext.PyInt n)
                    (Plaintext.PyStr (String c "")) = inr r ∧
    String.length r = String.length s `max` Z.to_nat n ∧
    String.prefix s r = true ∧
    (∀ i, String.length s ≤ i < String.length r → String.get i r = Some c) ∧
    ((n ≤ Z.of_nat (String.length s))%Z → r = s) ∧
    Plaintext.ljust maxsize allocate (Plaintext.PyStr r) (Plaintext.PyInt n)
                    (Plaintext.PyStr (String c "")) = inr r.
Proof.
  intros Hn Hmem.
  set (r := s +:+ Plaintext.fill c (Z.to_nat n - String.length s)).
  assert (Hshort : (n ≤ Z.of_nat (String.length s))%Z → r = s).
  { intros Hshort. unfold r.
    replace (Z.to_nat n - String.length s) with 0 by lia.
    cbn [Plaintext.fill]. apply string_app_empty_r. }
  assert (Hlen : String.length r = String.length s `max` Z.to_nat n).
  { unfold r. rewrite string_length_app, fill_length. lia. }
  exists r. split_and!.
  - unfold Plaintext.ljust, Plaintext.call_ljust, Plaintext.str_ljust.
    rewrite bool_decide_eq_true_2 by done.
    case_bool_decide as Hs; [by rewrite Hshort|].
    destruct Hmem as [?| ->]; [lia|done].
  - exact Hlen.
  - apply string_prefix_app.
  - intros i Hi. unfold r. rewrite string_get_app_r by lia. apply fill_get.
    rewrite Hlen in Hi. lia.
  - exact Hshort.
  - unfold Plaintext.ljust, Plaintext.call_ljust, Plaintext.str_ljust.
    rewrite bool_decide_eq_true_2 by done.
    rewrite bool_decide_eq_true_2; [done|]. rewrite Hlen. lia.
Qed.

(** X19.  What the filter answers to the other arguments, and what
    escapes it.  [ljust] answers the empty string for a value that is
    not a string, for a string with a width that is not an integer, and
    for a string with an integer width that fits a size and a fill that
    is not a string of one character.  For a string and an integer width
    that does not fit a size it raises [OverflowError], whatever the
    fill.  For a string shorter than a width that fits a size, with a
    fill of one character, it raises [MemoryError] or [OverflowError]
    when the interpreter refuses a string of that width in the one way
    or the other.  No other exception escapes, and none on other
    arguments. *)
Theorem ljust_escapes (maxsize : Z) (allocate : Z → Plaintext.allocation)
    (string width fillchar : Plaintext.pyvalue) :
  ((∀ s, string ≠ Plaintext.PyStr s) →
   Plaintext.ljust maxsize allocate string width fillchar = inr "") ∧
  (∀ s, string = Plaintext.PyStr s → (∀ n, width ≠ Plaintext.PyInt n) →
   Plaintext.ljust maxsize allocate string width fillchar = inr "") ∧
  (∀ s n, string = Plaintext.PyStr s → width = Plaintext.PyInt n →
   ¬ (- maxsize - 1 ≤ n ≤ maxsize)%Z →
   Plaintext.ljust maxsize allocate string width fillchar
   = inl Plaintext.OverflowError) ∧
  (∀ s n, string = Plaintext.PyStr s → width = Plaintext.PyInt n →
   (- maxsize - 1 ≤ n ≤ maxsize)%Z →
   (∀ c, fillchar ≠ Plaintext.PyStr (String c "")) →
   Plaintext.ljust maxsize allocate string width fillchar = inr "") ∧
  (∀ s n c, string = Plaintext.PyStr s → width = Plaintext.PyInt n →
   fillchar = Plaintext.PyStr (String c "") →
   (Z.of_nat (String.length s) < n ≤ maxsize)%Z →
   Plaintext.ljust maxsize allocate string width fillchar
   = match allocate n with
     | Plaintext.Allocated =>
         inr (s +:+ Plaintext.fill c (Z.to_nat n - String.length s))
     | Plaintext.NoMemory => inl Plaintext.MemoryError
     | Plaintext.TooLarge => inl Plaintext.OverflowError
     end) ∧
  (∀ e, Plaintext.ljust maxsize allocate string width fillchar = inl e →
   (e = Plaintext.OverflowError ∨ e = Plaintext.MemoryError) ∧
   ∃ s n, string = Plaintext.PyStr s ∧ width = Plaintext.PyInt n ∧
          (¬ (- maxsize - 1 ≤ n ≤ maxsize)%Z ∨
           ((Z.of_nat (String.length s) < n ≤ maxsize)%Z ∧
            (∃ c, fillchar = Plaintext.PyStr (String c "")) ∧
            allocate n ≠ Plaintext.Allocated))).
Proof.
  unfold Plaintext.ljust, Plaintext.call_ljust, Plaintext.str_ljust.
  split_and!.
  - intros Hno. destruct string as [s| |]; [by destruct (Hno s)|done..].
  - intros s -> Hno. destruct width as [|n|]; [done|by destruct (Hno n)|done].
  - intros s n -> -> Hn. by rewrite bool_decide_eq_false_2.
  - intros s n -> -> Hn Hno. rewrite bool_decide_eq_true_2 by done.
    destruct fillchar as [[|c [|c' f]]| |]; try done. by destruct (Hno c).
  - intros s n c -> -> -> Hn.
    rewrite bool_decide_eq_true_2 by lia.
    rewrite bool_decide_eq_false_2 by lia.
    by destruct (allocate n).
  - intros e. destruct string as [s| |]; [|done..].
    destruct width as [|n|]; [done| |done].
    case_bool_decide as Hn.
    2:{ intros [= <-]. split; [by left|]. exists s, n. split_and!; [done..|].
        by left. }
    destruct fillchar as [[|c [|c' f]]| |]; try done.
    case_bool_decide as Hs; [done|].
    destruct (allocate n) eqn:Hmem; [done| |]; intros [= <-].
    + split; [by right|]. exists s, n. split_and!; [done..|]. right.
      split_and!; [lia|lia|by exists c|by rewrite Hmem].
    + split; [by left|]. exists s, n. split_and!; [done..|]. right.
      split_and!; [lia|lia|by exists c|by rewrite Hmem].
Qed.

(** * The dates of an event *)

Lemma elem_of_xrange (k n : Z) : n ∈ EventForm.xrange k ↔ (0 ≤ n < k)%Z.
Proof.
  unfold EventForm.xrange. rewrite list_elem_of_fmap. split.
  - intros (i & -> & Hi). apply elem_of_seq in Hi. lia.
  - intros Hn. exists (Z.to_nat n). split; [lia|]. apply elem_of_seq. lia.
Qed.

Lemma xrange_nil (k : Z) : (k ≤ 0)%Z → EventForm.xrange k = [].
Proof.
  intros Hk. unfold EventForm.xrange. by replace (Z.to_nat k) with 0 by lia.
Qed.

Lemma date_set_of_inr (start_date : Z) (ns : list Z) :
  (∀ n, n ∈ ns →
        (EventForm.date_min ≤ start_date + (n - 1) ≤ EventForm.date_max)%Z) →
  ∃ ds, EventForm.date_set_of start_date ns = inr ds ∧
        ∀ d, d ∈ ds ↔ ∃ n, n ∈ ns ∧ d = (start_date + (n - 1))%Z.
Proof.
  induction ns as [|n ns IH]; intros Hall.
  - exists ∅. split; [done|]. intros d. split; [set_solver|].
    intros (n & Hn & _). by apply elem_of_nil in Hn.
  - destruct IH as (ds & Hds & Hmem).
    { intros m Hm. apply Hall. by right. }
    exists ({[ (start_date + (n - 1))%Z ]} ∪ ds). split.
    + cbn [EventForm.date_set_of]. unfold EventForm.date_add.
      rewrite bool_decide_eq_true_2 by (apply Hall; by left).
      by rewrite Hds.
    + intros d. rewrite elem_of_union, elem_of_singleton, Hmem. split.
      * intros [->|(m & Hm & ->)]; [exists n|exists m];
          (split; [|done]); [by left|by right].
      * intros (m & [->|Hm]%elem_of_cons & ->); [by left|right; by exists m].
Qed.

(** The set of the days from the eve of the first day to the last. *)
Lemma date_set_of_xrange (start_date end_date : Z) :
  (EventForm.date_min < start_date)%Z →
  (end_date ≤ EventForm.date_max)%Z →
  ∃ ds, EventForm.date_set_of start_date
          (EventForm.xrange (end_date - start_date + 2)) = inr ds ∧
        ∀ d, d ∈ ds ↔ (start_date - 1 ≤ d ≤ end_date)%Z.
Proof.
  intros Hmin Hmax.
  destruct (date_set_of_inr start_date
              (EventForm.xrange (end_date - start_date + 2)))
    as (ds & Hds & Hmem).
  { intros n Hn%elem_of_xrange. lia. }
  exists ds. split; [done|]. intros d. rewrite Hmem. split.
  - intros (n & Hn%elem_of_xrange & ->). lia.
  - intros Hd. exists (d - start_date + 1)%Z. split; [|lia].
    apply elem_of_xrange. lia.
Qed.

Lemma elem_of_created (ds : gset Z) (table : list Z) (d : Z) :
  d ∈ filter (λ d, d ∉ (list_to_set (filter (λ d, d ∈ ds) table) : gset Z))
             (elements ds) ↔
  d ∈ ds ∧ d ∉ table.
Proof.
  rewrite list_elem_of_filter, elem_of_elements, elem_of_list_to_set,
    list_elem_of_filter.
  tauto.
Qed.

(** X20.  The dates of an event that starts after the first day of the
    calendar and does not end before it starts.  The block raises
    nothing; it adds to the table one row for each day, from the eve of
    the first day to the last day, that had none, and touches no other
    row; the housing dates of the event are then the rows of the days
    from the eve of the first day to the last day, and its dates the
    rows of the days from the first to the last.  A table without two
    rows for one day stays so, and then each of these days is there
    once. *)
Theorem save_dates_range (start_date end_date : Z) (table : list Z) :
  (EventForm.date_min < start_date)%Z → (start_date ≤ end_date)%Z →
  (end_date ≤ EventForm.date_max)%Z →
  ∃ housing_dates dates created,
    EventForm.save_dates start_date end_date table
      = (inr (housing_dates, dates), table ++ created) ∧
    NoDup created ∧
    (∀ d, d ∈ created ↔ (start_date - 1 ≤ d ≤ end_date)%Z ∧ d ∉ table) ∧
    (∀ d, d ∈ housing_dates ↔ (start_date - 1 ≤ d ≤ end_date)%Z) ∧
    (∀ d, d ∈ dates ↔ (start_date ≤ d ≤ end_date)%Z) ∧
    (NoDup table →
     NoDup (table ++ created) ∧ NoDup housing_dates ∧ NoDup dates).
Proof.
  intros Hmin Hle Hmax.
  destruct (date_set_of_xrange start_date end_date Hmin Hmax)
    as (ds & Hds & Hmem).
  unfold EventForm.save_dates. rewrite Hds. cbv zeta.
  unfold EventForm.date_add.
  rewrite bool_decide_eq_true_2 by lia.
  rewrite decide_True by (apply Hmem; lia).
  set (created := filter _ (elements ds)).
  assert (Hcreated : ∀ d, d ∈ created ↔ d ∈ ds ∧ d ∉ table)
    by apply elem_of_created.
  assert (Hnd : NoDup created) by apply NoDup_filter, NoDup_elements.
  assert (Hall : ∀ d, d ∈ ds → d ∈ table ++ created).
  { intros d Hd. rewrite elem_of_app, Hcreated.
    destruct (decide (d ∈ table)); [by left|by right]. }
  eexists _, _, created. split_and!; [done|done| | | |].
  - intros d. by rewrite Hcreated, Hmem.
  - intros d. rewrite list_elem_of_filter, <- Hmem. split; [tauto|].
    intros Hd. split; [done|by apply Hall].
  - intros d. rewrite list_elem_of_filter, elem_of_difference,
      elem_of_singleton, Hmem.
    split; [lia|]. intros Hd. split; [lia|]. apply Hall, Hmem. lia.
  - intros Htable.
    assert (Hnew : NoDup (table ++ created)).
    { apply NoDup_app. split_and!; [done| |done].
      intros d Hd Hc. apply Hcreated in Hc. tauto. }
    split_and!; [done|by apply NoDup_filter..].
Qed.

(** X21.  The exceptions of the block.  For an event that starts on
    the first day of the calendar it raises [OverflowError], reaching
    for the eve of that day; for an event that ends more than one day
    before it starts it raises [KeyError], removing an eve that is not
    in the set; in both cases the table is as it was.  For an event that
    ends on the eve of its first day it raises nothing and the event has
    no dates. *)
Theorem save_dates_raises (start_date end_date : Z) (table : list Z) :
  (start_date = EventForm.date_min →
   EventForm.save_dates start_date end_date table
   = (inl EventForm.OverflowError, table)) ∧
  ((EventForm.date_min < start_date ≤ EventForm.date_max)%Z →
   (end_date < start_date - 1)%Z →
   EventForm.save_dates start_date end_date table
   = (inl EventForm.KeyError, table)) ∧
  ((EventForm.date_min < start_date ≤ EventForm.date_max)%Z →
   end_date = (start_date - 1)%Z →
   ∃ housing_dates table',
     EventForm.save_dates start_date end_date table
     = (inr (housing_dates, []), table')).
Proof.
  split_and!.
  - intros ->. unfold EventForm.save_dates.
    destruct (decide (end_date - EventForm.date_min + 2 ≤ 0)%Z) as [Hk|Hk].
    + rewrite (xrange_nil _ Hk). cbn [EventForm.date_set_of]. cbv zeta.
      rewrite elements_empty, filter_nil, app_nil_r. done.
    + unfold EventForm.xrange.
      destruct (Z.to_nat (end_date - EventForm.date_min + 2)) as [|k] eqn:Ek;
        [lia|].
      done.
  - intros Hstart Hend. unfold EventForm.save_dates.
    rewrite xrange_nil by lia. cbn [EventForm.date_set_of]. cbv zeta.
    rewrite elements_empty, filter_nil, app_nil_r.
    unfold EventForm.date_add. rewrite bool_decide_eq_true_2 by lia.
    by rewrite decide_False by set_solver.
  - intros Hstart ->.
    destruct (date_set_of_xrange start_date (start_date - 1))
      as (ds & Hds & Hmem); [lia|unfold EventForm.date_max in *; lia|].
    unfold EventForm.save_dates. rewrite Hds. cbv zeta.
    unfold EventForm.date_add. rewrite bool_decide_eq_true_2 by lia.
    rewrite decide_True by (apply Hmem; lia).
    assert (Hnone : ∀ l : list Z,
      filter (λ d, d ∈ ds ∖ {[ (start_date + -1)%Z ]}) l = []).
    { induction l as [|d l IH]; [done|].
      rewrite filter_cons, decide_False; [done|].
      rewrite elem_of_difference, elem_of_singleton, Hmem. lia. }
    eexists _, _. by rewrite Hnone.
Qed.
(** * The editors of an event *)

Section CleanEditorsProperties.

Context {char : Type} `{!EqDecision char}.
Context (comma : char) (isspace : char → bool).
Context (validator : list char → bool).

Implicit Types (s x piece : list char) (c sep : char).

Lemma split_not_nil sep s : EventForm.split sep s ≠ [].
Proof.
  destruct s as [|c s]; simpl; [done|].
  case_decide; [done|]. by destruct (EventForm.split sep s).
Qed.

Lemma split_length sep s :
  length (EventForm.split sep s) = S (length (filter (λ c, c = sep) s)).
Proof.
  induction s as [|c s IH]; [done|].
  cbn [EventForm.split]. rewrite filter_cons.
  destruct (decide (c = sep)); simpl; [by rewrite IH|].
  pose proof (split_not_nil sep s).
  destruct (EventForm.split sep s); [done|]. by rewrite <- IH.
Qed.

Lemma split_no_sep sep s piece :
  piece ∈ EventForm.split sep s → sep ∉ piece.
Proof.
  revert piece. induction s as [|c s IH]; intros piece.
  - simpl. intros ->%list_elem_of_singleton. apply not_elem_of_nil.
  - cbn [EventForm.split]. destruct (decide (c = sep)) as [->|Hne].
    + intros [->|Hin]%elem_of_cons; [apply not_elem_of_nil|by apply IH].
    + pose proof (split_not_nil sep s).
      destruct (EventForm.split sep s) as [|p rest]; [done|].
      intros [->|Hin]%elem_of_cons.
      * apply not_elem_of_cons. split; [done|]. apply IH. by left.
      * apply IH. by right.
Qed.

Lemma split_snoc sep s :
  EventForm.split sep (s ++ [sep]) = EventForm.split sep s ++ [[]].
Proof.
  induction s as [|c s IH]; simpl.
  - by rewrite decide_True.
  - destruct (decide (c = sep)); [by rewrite IH|]. rewrite IH.
    pose proof (split_not_nil sep s).
    by destruct (EventForm.split sep s).
Qed.

Lemma lstrip_suffix s : EventForm.lstrip isspace s `suffix_of` s.
Proof.
  induction s as [|c s IH]; simpl; [done|].
  destruct (isspace c); [by apply suffix_cons_r|done].
Qed.

Lemma lstrip_head s c :
  head (EventForm.lstrip isspace s) = Some c → isspace c = false.
Proof.
  induction s as [|c' s IH]; simpl; [done|].
  destruct (isspace c') eqn:Hc; [done|]. simpl. by intros [= <-].
Qed.

Lemma lstrip_blank s :
  forallb isspace s = true → EventForm.lstrip isspace s = [].
Proof.
  induction s as [|c s IH]; simpl; [done|].
  destruct (isspace c); [done|done].
Qed.

Lemma rstrip_prefix s : EventForm.rstrip isspace s `prefix_of` s.
Proof.
  unfold EventForm.rstrip.
  destruct (lstrip_suffix (reverse s)) as [k Hk].
  exists (reverse k). by rewrite <- reverse_app, <- Hk, reverse_involutive.
Qed.

Lemma rstrip_last s c :
  last (EventForm.rstrip isspace s) = Some c → isspace c = false.
Proof.
  unfold EventForm.rstrip. rewrite last_reverse. apply lstrip_head.
Qed.

Lemma strip_sublist s c : c ∈ EventForm.strip isspace s → c ∈ s.
Proof.
  unfold EventForm.strip. intros Hc.
  destruct (rstrip_prefix (EventForm.lstrip isspace s)) as [k Hk].
  destruct (lstrip_suffix s) as [k' Hk'].
  rewrite Hk', Hk, !elem_of_app. auto.
Qed.

Lemma strip_ends s c :
  (head (EventForm.strip isspace s) = Some c → isspace c = false) ∧
  (last (EventForm.strip isspace s) = Some c → isspace c = false).
Proof.
  unfold EventForm.strip. split; [|apply rstrip_last].
  intros Hhead. apply (lstrip_head s).
  destruct (rstrip_prefix (EventForm.lstrip isspace s)) as [k Hk].
  rewrite Hk.
  by destruct (EventForm.rstrip isspace (EventForm.lstrip isspace s)).
Qed.

Lemma strip_blank s :
  forallb isspace s = true → EventForm.strip isspace s = [].
Proof. intros Hs. unfold EventForm.strip. by rewrite lstrip_blank. Qed.

(** X22.  The editors of a form, for a value that is not empty.  When
    [clean_editors] returns, it returns one address for each piece
    between the commas of the value, one more than there are commas;
    each address has passed the validator, holds no comma, and neither
    begins nor ends with a space.  When it raises, it raises
    [ValidationError], and the validator has turned down one of the
    pieces once stripped. *)
Theorem clean_editors_addresses (editors : list char) :
  editors ≠ [] →
  match EventForm.clean_editors comma isspace validator editors with
  | inr addresses =>
      length addresses = S (length (filter (λ c, c = comma) editors)) ∧
      ∀ x, x ∈ addresses →
        validator x = true ∧ (comma ∉ x) ∧
        (∀ c, head x = Some c → isspace c = false) ∧
        (∀ c, last x = Some c → isspace c = false)
  | inl e =>
      e = EventForm.ValidationError ∧
      ∃ piece, piece ∈ EventForm.split comma editors ∧
               validator (EventForm.strip isspace piece) = false
  end.
Proof.
  intros Hne. destruct editors as [|c0 editors]; [done|].
  unfold EventForm.clean_editors. cbv zeta.
  set (s := c0 :: editors).
  destruct (forallb validator _) eqn:Hvalid.
  - split; [by rewrite length_fmap, split_length|].
    intros x Hx. rewrite forallb_forall in Hvalid.
    split; [by apply Hvalid, list_elem_of_In|].
    apply list_elem_of_fmap in Hx as (piece & -> & Hpiece).
    split_and!.
    + intros Hin%strip_sublist. by apply (split_no_sep comma s piece).
    + intros c. apply strip_ends.
    + intros c. apply strip_ends.
  - split; [done|].
    apply not_true_iff_false in Hvalid. rewrite forallb_forall in Hvalid.
    destruct (decide (Forall (λ x, validator x = true)
                        (EventForm.strip isspace <$> EventForm.split comma s)))
      as [Hall|Hsome].
    + destruct Hvalid. intros x Hx%list_elem_of_In.
      by apply (proj1 (Forall_forall _ _) Hall).
    + apply not_Forall_Exists in Hsome; [|apply _].
      apply Exists_exists in Hsome as (x & Hx & Hbad).
      apply list_elem_of_fmap in Hx as (piece & -> & Hpiece).
      exists piece. split; [done|]. by apply not_true_is_false.
Qed.

(** X23.  An empty value gives no editor and the validator is not
    asked.  When the validator turns down the empty address, a value
    with a piece between commas that is empty or all spaces makes
    [clean_editors] raise [ValidationError]; so does a value that ends
    with a comma, and one that begins with a comma. *)
Theorem clean_editors_blank_piece (editors : list char) :
  validator [] = false →
  EventForm.clean_editors comma isspace validator [] = inr [] ∧
  (editors ≠ [] →
   (∃ piece, piece ∈ EventForm.split comma editors ∧
             forallb isspace piece = true) →
   EventForm.clean_editors comma isspace validator editors
   = inl EventForm.ValidationError) ∧
  EventForm.clean_editors comma isspace validator (editors ++ [comma])
  = inl EventForm.ValidationError ∧
  EventForm.clean_editors comma isspace validator (comma :: editors)
  = inl EventForm.ValidationError.
Proof.
  intros Hempty.
  assert (Hblank : ∀ s, s ≠ [] →
    (∃ piece, piece ∈ EventForm.split comma s ∧ forallb isspace piece = true) →
    EventForm.clean_editors comma isspace validator s
    = inl EventForm.ValidationError).
  { intros s Hne (piece & Hpiece & Hsp). destruct s as [|c0 s]; [done|].
    unfold EventForm.clean_editors. cbv zeta.
    destruct (forallb validator _) eqn:Hvalid; [|done].
    rewrite forallb_forall in Hvalid.
    specialize (Hvalid (EventForm.strip isspace piece)).
    rewrite strip_blank, Hempty in Hvalid by done.
    discriminate Hvalid. apply list_elem_of_In, list_elem_of_fmap.
    exists piece. split; [|done]. by rewrite strip_blank. }
  split_and!; [done|apply Hblank| |].
  - apply Hblank; [by destruct editors|].
    exists []. split; [|done]. rewrite split_snoc, elem_of_app. right. by left.
  - apply Hblank; [done|]. exists []. split; [|done].
    cbn [EventForm.split]. rewrite decide_True by done. by left.
Qed.

End CleanEditorsProperties.

(** * The code of a discount *)

Section GeneratedCodeProperties.

Context {EventId : Type} `{!EqDecision EventId}.
Context (get_random_string : nat → string).

Implicit Types (table : list (EventId * string)) (event : EventId).

Lemma redraw_Some fuel table event n code :
  DiscountForm.redraw get_random_string fuel table event n
    (get_random_string n) = Some code →
  ∃ k, n ≤ k ≤ n + fuel ∧ code = get_random_string k ∧
       ((event, code) ∉ table) ∧
       ∀ j, n ≤ j < k → (event, get_random_string j) ∈ table.
Proof.
  revert n. induction fuel as [|fuel IH]; intros n; cbn [DiscountForm.redraw];
    unfold DiscountForm.code_exists; case_bool_decide as Hused.
  - done.
  - intros [= <-]. exists n. split_and!; [lia..|done|done|intros; lia].
  - intros (k & Hk & -> & Hfree & Hbefore)%IH.
    exists k. split_and!; [lia..|done|done|].
    intros j Hj. destruct (decide (j = n)) as [->|]; [done|].
    apply Hbefore. lia.
  - intros [= <-]. exists n. split_and!; [lia..|done|done|intros; lia].
Qed.

Lemma redraw_returns fuel table event n k :
  n ≤ k ≤ n + fuel → (event, get_random_string k) ∉ table →
  is_Some (DiscountForm.redraw get_random_string fuel table event n
             (get_random_string n)).
Proof.
  revert n. induction fuel as [|fuel IH]; intros n Hk Hfree;
    cbn [DiscountForm.redraw]; unfold DiscountForm.code_exists;
    case_bool_decide as Hused; try done.
  - assert (k = n) as -> by lia. done.
  - apply IH; [|done]. destruct (decide (k = n)) as [->|]; [done|lia].
Qed.

(** X25.  The code proposed for a discount.  For an instance without a
    code, when the loop ends the proposed code is the first answer of
    [get_random_string] that no discount of the event has, every answer
    before it being the code of a discount of the event; and the loop
    ends as soon as one of the answers it may draw is such.  For an
    instance with a code nothing is drawn and [generated_code] stays
    [None]. *)
Theorem generated_code_unused fuel table event instance_code :
  (instance_code = "" →
   (∀ code, DiscountForm.generated_code get_random_string fuel table event
              instance_code = Some (Some code) →
      ∃ k, k ≤ fuel ∧ code = get_random_string k ∧
           ((event, code) ∉ table) ∧
           ∀ j, j < k → (event, get_random_string j) ∈ table) ∧
   (∀ k, k ≤ fuel → (event, get_random_string k) ∉ table →
      ∃ code, DiscountForm.generated_code get_random_string fuel table event
                instance_code = Some (Some code))) ∧
  (instance_code ≠ "" →
   DiscountForm.generated_code get_random_string fuel table event
     instance_code = Some None).
Proof.
  unfold DiscountForm.generated_code. split.
  - intros ->. rewrite decide_True by done. split.
    + intros code Hrun. apply fmap_Some in Hrun as (c & Hrun & [= <-]).
      apply redraw_Some in Hrun as (k & Hk & -> & Hfree & Hbefore).
      exists k. split_and!; [lia|done|done|]. intros j Hj. apply Hbefore. lia.
    + intros k Hk Hfree.
      destruct (redraw_returns fuel table event 0 k) as [code Hcode];
        [lia|done|].
      exists code. by rewrite Hcode.
  - intros Hcode. by rewrite decide_False.
Qed.

End GeneratedCodeProperties.

(** * The statements on the wizard *)

Lemma abc_built : Workflow_init as_no_classes wizard ∅ = Built abc.
Proof. reflexivity. Qed.

(** The scenario of three included and active steps, the first completed
    without errors and the second not completed. *)
Lemma wizard_first_step_done :
  (Step_is_completed 5 w_a 0 abc).1 = inr true ∧
  (Step_is_accessible 5 w_a 1 abc).1 = inr true ∧
  (Step_is_accessible 5 w_a 2 abc).1 = inr false ∧
  (Step_previous_step w_a 1 abc).1 = inr (Some 0) ∧
  (Step_next_step w_a 0 abc).1 = inr (Some 1) ∧
  (Step_previous_step w_a 2 abc).1 = inr (Some 1).
Proof. repeat split; reflexivity. Qed.

(** The same registry when [include_in] of the second definition is
    false: two steps, with indices 0 and 1, each the neighbour of the
    other. *)
Lemma wizard_without_second_step :
  ∃ W, Workflow_init as_no_classes wizard {[ "skip_b" := 1 ]} = Built W ∧
       (λ s, (slug (step_class s), index s)) <$> values W
       = [(Some "a", 0); (Some "c", 1)] ∧
       (Step_next_step [] 0 W).1 = inr (Some 1) ∧
       (Step_previous_step [] 1 W).1 = inr (Some 0).
Proof. eexists. repeat split; reflexivity. Qed.

Lemma is_completed_prefix_witness :
  Step_is_completed 5 w_ab 1 abc = (inr true, abc_after) ∧
  (Step_previous_step w_ab 1 abc_after = (inr None, abc_after) ∨
   ∃ p W'', Step_previous_step w_ab 1 abc_after = (inr (Some p), abc_after) ∧
            Step_is_completed 5 w_ab p abc_after = (inr true, W'')) ∧
  (Step_previous_step w_ab 1 abc = (inr None, abc) ∨
   ∃ p W'', Step_previous_step w_ab 1 abc = (inr (Some p), abc) ∧
            Step_is_completed 5 w_ab p abc = (inr true, W'')).
Proof.
  split; [reflexivity|].
  apply (is_completed_prefix 5 w_ab abc 1 abc_after). reflexivity.
Defined.

Lemma is_accessible_iff_witness :
  values abc !! 2 = Some step_c ∧
  ((Step_is_accessible 5 w_ab 2 abc).1 = inr true ↔
   inactive_within w_ab abc 0 2 ∨
   ∃ p, nearest_active_before w_ab abc 2 p ∧
        (Step_is_completed 5 w_ab p abc).1 = inr true).
Proof.
  split; [reflexivity|].
  apply (is_accessible_iff 5 w_ab abc 2 step_c). reflexivity.
Defined.

Lemma is_accessible_ignores_is_active_witness :
  values abc !! 1 = Some step_b ∧
  (Step_is_active w_a_off_b 1 abc).1 = inr false ∧
  (Step_is_accessible 5 w_a_off_b 1 abc).1 = inr true.
Proof.
  split; [reflexivity|]. split; [reflexivity|].
  apply (is_accessible_ignores_is_active 5 w_a_off_b abc 1 step_b);
    [reflexivity|reflexivity|].
  right. exists 0. split; [|reflexivity].
  apply previous_of_Some. reflexivity.
Defined.

Lemma previous_next_step_scan_witness :
  values abc !! 1 = Some step_b ∧
  ∃ prev next,
    Step_previous_step w_ab 1 abc = (inr prev, abc) ∧
    Step_next_step w_ab 1 abc = (inr next, abc) ∧
    (prev = None ↔ inactive_within w_ab abc 0 1) ∧
    (∀ p, prev = Some p ↔ nearest_active_before w_ab abc 1 p) ∧
    (1 = 0 → prev = None) ∧
    (next = None ↔ no_active_after w_ab abc 1) ∧
    (∀ p, next = Some p ↔ nearest_active_after w_ab abc 1 p) ∧
    (∀ p, prev = Some p ∨ next = Some p → active_at w_ab abc p).
Proof.
  split; [reflexivity|].
  apply (previous_next_step_scan w_ab abc 1 step_b). reflexivity.
Defined.

Lemma memoised_once_witness :
  Workflow_init as_no_classes wizard ∅ = Built abc ∧
  (∀ r s, values (run_calls 5 w_ab asked_twice abc).2 !! r = Some s →
          completed_calls s ≤ 1 ∧ errors_calls s ≤ 1) ∧
  (∀ i j c, asked_twice !! i = Some c → asked_twice !! j = Some c →
            (run_calls 5 w_ab asked_twice abc).1 !! i
            = (run_calls 5 w_ab asked_twice abc).1 !! j).
Proof.
  split; [reflexivity|].
  apply (memoised_once as_no_classes wizard ∅ abc 5 w_ab asked_twice).
  reflexivity.
Defined.

Lemma steps_kwarg_rejected_witness :
  is_Some (({[ "order" := 7; "steps" := 3 ]} : gmap string nat) !! "steps") ∧
  Workflow_init as_no_classes wizard {[ "order" := 7; "steps" := 3 ]}
  = Failed ValueError ∅.
Proof.
  assert (Hsteps : is_Some (({[ "order" := 7; "steps" := 3 ]}
                             : gmap string nat) !! "steps")).
  { exists 3. reflexivity. }
  split; [exact Hsteps|].
  exact (steps_kwarg_rejected as_no_classes wizard _ Hsteps).
Defined.

Lemma Workflow_init_filters_witness :
  ({[ "skip_b" := 1 ]} : gmap string nat) !! "steps" = None ∧
  ({[ "skip_b" := 1 ]} : gmap string nat) !! "step_classes" = None ∧
  ({[ "skip_b" := 1 ]} : gmap string nat) !! "self" = None ∧
  ({[ "skip_b" := 1 ]} : gmap string nat) !! "active_steps" = None ∧
  ({[ "skip_b" := 1 ]} : gmap string nat) !! "__class__" = None ∧
  ({[ "skip_b" := 1 ]} : gmap string nat) !! "__dict__" = None ∧
  ({[ "skip_b" := 1 ]} : gmap string nat) !! "__weakref__" = None ∧
  NoDup (slug <$> filter (λ cls, include_in cls {[ "skip_b" := 1 ]}) wizard) ∧
  ∃ W, Workflow_call as_no_classes wizard {[ "skip_b" := 1 ]} = Built W ∧
       attrs W = {[ "skip_b" := 1 ]} ∧
       (steps W).*1
         = slug <$> filter (λ cls, include_in cls {[ "skip_b" := 1 ]}) wizard ∧
       step_class <$> values W
         = filter (λ cls, include_in cls {[ "skip_b" := 1 ]}) wizard ∧
       (∀ i s, values W !! i = Some s → index s = i) ∧
       fresh W.
Proof.
  assert (Hslugs : NoDup (slug <$> filter
            (λ cls, include_in cls ({[ "skip_b" := 1 ]} : gmap string nat))
            wizard)).
  { apply (bool_decide_unpack (NoDup _)). vm_compute. exact I. }
  do 7 (split; [reflexivity|]). split; [exact Hslugs|].
  apply (Workflow_init_filters as_no_classes wizard {[ "skip_b" := 1 ]});
    [reflexivity..|exact Hslugs].
Defined.

Lemma get_success_url_cases_witness :
  values abc !! 2 = Some step_c ∧
  ∃ e W',
    Step_errors w_ab 2 abc = (inr e, W') ∧
    (e ≠ [] →
     WorkflowMixin_get_success_url url_of w_ab (Some 2) ∅ abc
     = (inr (url_of (view_name (step_class step_c))
                    (WorkflowMixin_clean_kwargs ∅)), W')) ∧
    (e = [] → ∀ q t,
     Step_next_step w_ab 2 abc = (inr (Some q), abc) → values abc !! q = Some t →
     WorkflowMixin_get_success_url url_of w_ab (Some 2) ∅ abc
     = (inr (url_of (view_name (step_class t))
                    (WorkflowMixin_clean_kwargs ∅)), W')) ∧
    (e = [] → no_active_after w_ab abc 2 →
     Step_next_step w_ab 2 abc = (inr None, abc) ∧
     WorkflowMixin_get_success_url url_of w_ab (Some 2) ∅ abc
     = (inl AttributeError, W')) ∧
    ((∀ q t,
        Step_next_step w_ab 2 abc = (inr (Some q), abc) →
        values abc !! q = Some t →
        url_of (view_name (step_class t)) (WorkflowMixin_clean_kwargs ∅)
        ≠ url_of (view_name (step_class step_c))
                 (WorkflowMixin_clean_kwargs ∅)) →
     (WorkflowMixin_get_success_url url_of w_ab (Some 2) ∅ abc
      = (inr (url_of (view_name (step_class step_c))
                     (WorkflowMixin_clean_kwargs ∅)), W')
      ↔ e ≠ [])).
Proof.
  split; [reflexivity|].
  apply (get_success_url_cases url_of w_ab abc 2 step_c ∅). reflexivity.
Defined.

(** C9 as stated fails in its "only when" half.  In a workflow of two
    steps that the same view serves, the first step has no error and
    [get_success_url] answers the location of the second step, which is
    the location of the first. *)
Lemma get_success_url_counterexample :
  Workflow_call as_no_classes [shared_step "a"; shared_step "b"] ∅
    = Built same_view ∧
  Step_errors [] 0 same_view
    = (inr [], (Step_errors [] 0 same_view).2) ∧
  Step_next_step [] 0 same_view = (inr (Some 1), same_view) ∧
  (WorkflowMixin_get_success_url url_of [] (Some 0) ∅ same_view).1
    = inr "/view_shared" ∧
  url_of (view_name (shared_step "a")) (WorkflowMixin_clean_kwargs ∅)
    = "/view_shared".
Proof. repeat split; reflexivity. Qed.

(** The second step is switched off between two accesses to
    [active_steps], with calls on the steps in between: the second access
    leaves it out. *)
Lemma active_steps_follow_state :
  (Workflow_active_steps w_ab abc).1 = inr [0; 1; 2] ∧
  (Workflow_active_steps w_a_off_b (run_calls 5 w_ab asked_twice abc).2).1
  = inr [0; 2].
Proof. split; reflexivity. Qed.

(** The probes after the calls of [asked_twice]: each hook has run once
    on the steps that were asked, and the answers repeat. *)
Lemma asked_twice_probes :
  (λ s, (completed_calls s, errors_calls s))
    <$> values (run_calls 5 w_ab asked_twice abc).2
  = [(1, 1); (1, 1); (0, 0)] ∧
  (run_calls 5 w_ab asked_twice abc).1
  = [inr (AnsBool true); inr (AnsErrors []); inr (AnsBool true);
     inr (AnsBool true); inr (AnsErrors []); inr (AnsBool true);
     inr (AnsBool true)].
Proof. split; reflexivity. Qed.

(** The last step of the wizard has no errors and no active step after
    it: [get_success_url] raises. *)
Lemma get_success_url_last_step :
  (Step_errors w_ab 2 abc).1 = inr [] ∧
  (WorkflowMixin_get_success_url url_of w_ab (Some 2) ∅ abc).1
  = inl AttributeError.
Proof. split; reflexivity. Qed.

(** A request for the third step while the second is not completed is
    sent to the second, the last step that is accessible and active. *)
Lemma dispatch_redirects_to_last_open :
  (WorkflowMixin_dispatch url_of 5 w_a (Some abc) (Some "c") ∅).1
  = inr (HttpResponseRedirect "/view_b").
Proof. reflexivity. Qed.

Lemma dispatch_routes_witness :
  refused 5 w_a abc "c" ∧
  last_open 5 w_a abc 1 ∧
  dispatch_returns url_of 5 w_a abc "c" ∅
    (HttpResponseRedirect (url_of "view_b" (WorkflowMixin_clean_kwargs ∅))).
Proof.
  assert (Hrefused : refused 5 w_a abc "c").
  { right. exists 2, step_c. split_and!; [reflexivity..|]. right. reflexivity. }
  assert (Hlast : last_open 5 w_a abc 1).
  { split.
    - split; [reflexivity|]. exists step_b. split; reflexivity.
    - intros q Hq. assert (q = 2) as -> by (simpl in Hq; lia).
      left. reflexivity. }
  split; [exact Hrefused|]. split; [exact Hlast|].
  apply (proj1 (proj2 (proj2 (dispatch_routes url_of 5 w_a abc "c" ∅)))
           Hrefused 1 step_b Hlast).
  reflexivity.
Defined.

(** C3 as stated fails on several grounds.  Two definitions that share
    a slug and are both included leave one step, which carries index 1
    at position 0.  A keyword argument named [active_steps] or
    [__weakref__] makes the construction raise [AttributeError], and one
    named [__class__], [__dict__] or [self] whose value is a number
    makes it raise [TypeError].  A keyword argument named [step_classes]
    replaces the registry. *)
Lemma Workflow_init_counterexample :
  ((∅ : gmap string nat) !! "steps" = None ∧
   filter (λ cls, include_in cls ∅) [wizard_step "a"; wizard_twin]
     = [wizard_step "a"; wizard_twin] ∧
   Workflow_call as_no_classes [wizard_step "a"; wizard_twin] ∅
     = Built {| attrs := ∅; steps := [(Some "a", Step_init wizard_twin 1)] |}) ∧
  (({[ "active_steps" := 7 ]} : gmap string nat) !! "steps" = None ∧
   Workflow_call as_no_classes wizard {[ "active_steps" := 7 ]}
     = Failed AttributeError ∅) ∧
  (({[ "__weakref__" := 7 ]} : gmap string nat) !! "steps" = None ∧
   Workflow_call as_no_classes wizard {[ "__weakref__" := 7 ]}
     = Failed AttributeError ∅) ∧
  (({[ "__class__" := 7 ]} : gmap string nat) !! "steps" = None ∧
   Workflow_call as_no_classes wizard {[ "__class__" := 7 ]}
     = Failed TypeError ∅) ∧
  (({[ "__dict__" := 7 ]} : gmap string nat) !! "steps" = None ∧
   Workflow_call as_no_classes wizard {[ "__dict__" := 7 ]}
     = Failed TypeError ∅) ∧
  (({[ "self" := 7 ]} : gmap string nat) !! "steps" = None ∧
   Workflow_call as_no_classes wizard {[ "self" := 7 ]}
     = Failed TypeError ∅) ∧
  (({[ "step_classes" := 0 ]} : gmap string nat) !! "steps" = None ∧
   filter (λ cls, include_in cls {[ "step_classes" := 0 ]}) wizard = wizard ∧
   Workflow_call as_no_classes wizard {[ "step_classes" := 0 ]}
     = Built {| attrs := {[ "step_classes" := 0 ]}; steps := [] |}).
Proof. repeat split; reflexivity. Qed.

(** C8 as stated fails when no step is both accessible and active.  The
    only step of a workflow is inactive and a request names it: the
    request is not redirected, it proceeds with that step.  A workflow
    has no step and a request names one: it proceeds with no step.  It
    also fails when [is_accessible()] raises on a step that the scan
    meets before the last accessible and active one: in the workflow of
    a step followed by the twin definitions, the twin is its own
    previous step, and once it is done a request that names no step is
    not redirected to the first step, which is accessible and active:
    [dispatch] raises [RuntimeError]. *)
Lemma dispatch_counterexample :
  (od_get (Some "a") (steps only_a) = Some 0 ∧
   (Step_is_active w_off_a 0 only_a).1 = inr false ∧
   WorkflowMixin_dispatch url_of 5 w_off_a (Some only_a) (Some "a") ∅
     = (inr (SuperDispatch (Some 0)), Some only_a)) ∧
  (od_get (Some "a") (steps no_steps) = None ∧
   WorkflowMixin_dispatch url_of 5 w_off_a (Some no_steps) (Some "a") ∅
     = (inr (SuperDispatch None), Some no_steps)) ∧
  (Workflow_call as_no_classes
     [wizard_step "x"; wizard_step "a"; wizard_twin] ∅ = Built x_twins ∧
   od_get (Some "zzz") (steps x_twins) = None ∧
   (Step_is_accessible 5 w_x_twin 0 x_twins).1 = inr true ∧
   (Step_is_active w_x_twin 0 x_twins).1 = inr true ∧
   (Step_previous_step w_x_twin 1 x_twins).1 = inr (Some 1) ∧
   (Step_is_accessible 5 w_x_twin 1 x_twins).1 = inl RuntimeError ∧
   (WorkflowMixin_dispatch url_of 5 w_x_twin (Some x_twins) (Some "zzz") ∅).1
     = inl RuntimeError).
Proof. repeat split; reflexivity. Qed.

(** * The further statements on the wizard *)

Lemma abc_indexed : indexed_by_position abc.
Proof.
  intros r s Hs. destruct r as [|[|[|r]]]; simpl in Hs; by simplify_eq.
Qed.

Lemma abc_index_from_position : index_from_position abc.
Proof. intros r s Hs. by rewrite (abc_indexed r s Hs). Qed.

Lemma abc_keys : NoDup (steps abc).*1.
Proof. apply (bool_decide_unpack (NoDup _)). vm_compute. exact I. Qed.

Lemma twins_built :
  Workflow_init as_no_classes [wizard_step "a"; wizard_twin] ∅ = Built twins.
Proof. reflexivity. Qed.

Lemma is_completed_forward_scan_witness :
  indexed_by_position abc ∧ 1 < 5 ∧ values abc !! 1 = Some step_b ∧
  (Step_is_completed 5 w_ab 1 abc).1
  = inr (own_done w_ab abc step_b && prefix_done w_ab abc 1).
Proof.
  split; [exact abc_indexed|]. split; [lia|]. split; [reflexivity|].
  apply (is_completed_forward_scan 5 w_ab abc 1 step_b);
    [exact abc_indexed|lia|reflexivity].
Defined.

Lemma is_accessible_forward_scan_witness :
  indexed_by_position abc ∧ 2 ≤ 5 ∧ values abc !! 2 = Some step_c ∧
  (Step_is_accessible 5 w_a 2 abc).1 = inr (prefix_done w_a abc 2).
Proof.
  split; [exact abc_indexed|]. split; [lia|]. split; [reflexivity|].
  apply (is_accessible_forward_scan 5 w_a abc 2 step_c);
    [exact abc_indexed|lia|reflexivity].
Defined.

Lemma is_completed_all_before_witness :
  index_from_position abc ∧ values abc !! 2 = Some step_c ∧
  (Step_is_completed 5 w_abc 2 abc).1 = inr true ∧
  0 < index step_c ∧ active_at w_abc abc 0 ∧
  (Step_is_completed 5 w_abc 0 abc).1 = inr true.
Proof.
  assert (Hact : active_at w_abc abc 0).
  { exists step_a. split; reflexivity. }
  split; [exact abc_index_from_position|]. split; [reflexivity|].
  split; [reflexivity|]. split; [simpl; lia|]. split; [exact Hact|].
  apply (is_completed_all_before 5 w_abc abc 2 step_c 0);
    [exact abc_index_from_position|reflexivity|reflexivity|simpl; lia|
     exact Hact].
Defined.

Lemma neighbours_point_back_witness :
  indexed_by_position abc ∧ values abc !! 1 = Some step_b ∧
  (Step_is_active w_ab 1 abc).1 = inr true ∧
  (∀ q, (Step_next_step w_ab 1 abc).1 = inr (Some q) →
        (Step_previous_step w_ab q abc).1 = inr (Some 1)) ∧
  (∀ p, (Step_previous_step w_ab 1 abc).1 = inr (Some p) →
        (Step_next_step w_ab p abc).1 = inr (Some 1)).
Proof.
  split; [exact abc_indexed|]. split; [reflexivity|]. split; [reflexivity|].
  apply (neighbours_point_back w_ab abc 1 step_b);
    [exact abc_indexed|reflexivity|reflexivity].
Defined.

Lemma step_preceding_itself_witness :
  values twins !! 0 = Some (Step_init wizard_twin 1) ∧
  (Step_previous_step w_twin 0 twins).1 = inr (Some 0) ∧
  (∀ depth, (Step_is_completed depth w_twin 0 twins).1 ≠ inr true ∧
            (Step_is_accessible depth w_twin 0 twins).1 ≠ inr true) ∧
  (own_done w_twin twins (Step_init wizard_twin 1) = true →
   ∀ depth, (Step_is_completed depth w_twin 0 twins).1 = inl RuntimeError ∧
            (Step_is_accessible depth w_twin 0 twins).1 = inl RuntimeError).
Proof.
  split; [reflexivity|]. split; [reflexivity|].
  apply (step_preceding_itself w_twin twins 0 (Step_init wizard_twin 1));
    reflexivity.
Defined.

Lemma last_open_frontier_witness :
  indexed_by_position abc ∧ length (values abc) ≤ 5 ∧
  (last_open 5 w_a abc 1 ↔ frontier w_a abc = Some 1).
Proof.
  split; [exact abc_indexed|]. split; [simpl; lia|].
  apply (last_open_frontier 5 w_a abc 1); [exact abc_indexed|simpl; lia].
Defined.

Lemma dispatch_one_pass_witness :
  indexed_by_position abc ∧ length (values abc) ≤ 5 ∧
  dispatch_returns url_of 5 w_a abc "c" ∅
    (dispatch_outcome url_of w_a abc "c" ∅).
Proof.
  split; [exact abc_indexed|]. split; [simpl; lia|].
  apply (dispatch_one_pass url_of 5 w_a abc "c" ∅);
    [exact abc_indexed|simpl; lia].
Defined.

Lemma redirect_is_followed_witness :
  indexed_by_position abc ∧ length (values abc) ≤ 5 ∧
  NoDup (steps abc).*1 ∧
  dispatch_returns url_of 5 w_a abc "c" ∅ (HttpResponseRedirect "/view_b") ∧
  ∃ p t, values abc !! p = Some t ∧
    "/view_b" = url_of (view_name (step_class t))
                       (WorkflowMixin_clean_kwargs ∅) ∧
    ∀ sl (url_kwargs' : gmap string (option nat)),
      (steps abc).*1 !! p = Some (Some sl) →
      dispatch_returns url_of 5 w_a abc sl url_kwargs'
        (SuperDispatch (Some p)).
Proof.
  assert (Hret : dispatch_returns url_of 5 w_a abc "c" ∅
                   (HttpResponseRedirect "/view_b")).
  { eexists. reflexivity. }
  split; [exact abc_indexed|]. split; [simpl; lia|]. split; [exact abc_keys|].
  split; [exact Hret|].
  apply (redirect_is_followed url_of 5 w_a abc "c" ∅ "/view_b");
    [exact abc_indexed|simpl; lia|exact abc_keys|exact Hret].
Defined.

(** The provisos of the statement on the request for a next step are
    needed.  In the workflow of a step followed by the twin
    definitions, the first step is completed and the twin is its next
    step, and the request for the twin is sent back to the first
    step. *)
Lemma collision_sends_back :
  (Step_is_active ["done_x"] 0 x_twins).1 = inr true ∧
  (Step_is_completed 5 ["done_x"] 0 x_twins).1 = inr true ∧
  (Step_next_step ["done_x"] 0 x_twins).1 = inr (Some 1) ∧
  (steps x_twins).*1 !! 1 = Some (Some "a") ∧
  (WorkflowMixin_dispatch url_of 5 ["done_x"] (Some x_twins) (Some "a") ∅).1
  = inr (HttpResponseRedirect "/view_x").
Proof. repeat split; reflexivity. Qed.

Lemma next_step_request_witness :
  indexed_by_position abc ∧ length (values abc) ≤ 5 ∧
  NoDup (steps abc).*1 ∧
  values abc !! 0 = Some step_a ∧
  (Step_is_active w_a 0 abc).1 = inr true ∧
  (Step_next_step w_a 0 abc).1 = inr (Some 1) ∧
  (steps abc).*1 !! 1 = Some (Some "b") ∧
  ((Step_is_completed 5 w_a 0 abc).1 = inr true →
   dispatch_returns url_of 5 w_a abc "b" ∅ (SuperDispatch (Some 1))) ∧
  ((Step_is_completed 5 w_a 0 abc).1 = inr false →
   ∃ p t, p ≤ 0 ∧ values abc !! p = Some t ∧
     dispatch_returns url_of 5 w_a abc "b" ∅
       (HttpResponseRedirect
          (url_of (view_name (step_class t))
                  (WorkflowMixin_clean_kwargs ∅)))).
Proof.
  split; [exact abc_indexed|]. split; [simpl; lia|]. split; [exact abc_keys|].
  split; [reflexivity|]. split; [reflexivity|]. split; [reflexivity|].
  split; [reflexivity|].
  apply (next_step_request url_of 5 w_a abc 0 step_a 1 "b" ∅);
    [exact abc_indexed|simpl; lia|exact abc_keys|reflexivity..].
Defined.

Lemma errors_frozen_witness :
  Step_errors w_a 0 abc = (inr [], abc_read) ∧
  Step_errors w_bad_a 0 (run_calls 5 w_bad_a asked_twice abc_read).2
    = (inr [], (run_calls 5 w_bad_a asked_twice abc_read).2) ∧
  Step_is_valid w_bad_a 0 (run_calls 5 w_bad_a asked_twice abc_read).2
    = (inr (negb (truthy ([] : list string))),
       (run_calls 5 w_bad_a asked_twice abc_read).2).
Proof.
  split; [reflexivity|].
  apply (errors_frozen w_a abc 0 [] abc_read 5 w_bad_a asked_twice w_bad_a).
  reflexivity.
Defined.

(** On a workflow built in the state where the first step reports an
    error, the same read answers the error. *)
Lemma errors_read_afresh :
  (Step_errors w_bad_a 0 abc).1 = inr ["invalid"].
Proof. reflexivity. Qed.


Lemma wizard_slugs :
  NoDup (slug <$> filter (λ cls, include_in cls (∅ : gmap string nat)) wizard).
Proof. apply (bool_decide_unpack (NoDup _)). vm_compute. exact I. Qed.

Lemma dispatch_request_default_witness :
  NoDup (slug <$> filter (λ cls, include_in cls (∅ : gmap string nat)) wizard) ∧
  length (filter (λ cls, include_in cls (∅ : gmap string nat)) wizard) ≤ 5 ∧
  (∃ W W',
     WorkflowMixin_get_workflow_default as_no_classes (Some wizard) = Built W ∧
     attrs W = ∅ ∧
     step_class <$> values W = filter (λ cls, include_in cls ∅) wizard ∧
     WorkflowMixin_dispatch_request as_no_classes url_of 5 w_a
       (Some wizard) (Some "c") ∅
     = (inr (dispatch_outcome url_of w_a W "c" ∅), Some W')) ∧
  (∀ current_step_slug,
     WorkflowMixin_dispatch_request as_no_classes url_of 5 w_a
       None current_step_slug ∅
     = (inl TypeError, None)).
Proof.
  assert (Hlen : length (filter (λ cls, include_in cls (∅ : gmap string nat))
                                wizard) ≤ 5).
  { vm_compute. lia. }
  split; [exact wizard_slugs|]. split; [exact Hlen|].
  apply (dispatch_request_default as_no_classes url_of 5 w_a wizard "c" ∅);
    [exact wizard_slugs|exact Hlen].
Defined.

(** The request for the third step of the wizard, from the class of the
    view: it is redirected to the second step. *)
Lemma dispatch_request_wizard :
  (WorkflowMixin_dispatch_request as_no_classes url_of 5 w_a
     (Some wizard) (Some "c") ∅).1
  = inr (HttpResponseRedirect "/view_b").
Proof. reflexivity. Qed.

(** The descriptors on objects some of which are dictionaries and
    classes: a dictionary assigned to [__dict__] gives the object its
    entries as attributes, and a class assigned to [__class__] takes the
    object out of the class of the workflow. *)
Lemma Workflow_call_descriptors :
  Workflow_call (World := list string) (λ _, None) []
    {[ "__dict__" := PyDict [("order", 7)] ]}
  = Built {| attrs := {[ "order" := PyNum 7 ]}; steps := [] |} ∧
  Workflow_call (World := list string) (λ _, None) []
    {[ "__dict__" := PyNum 7 ]}
  = Failed TypeError ∅ ∧
  Workflow_call (World := list string) (λ _, None) []
    {[ "__class__" := PyClass ]}
  = Failed ClassReplaced ∅ ∧
  Workflow_call (World := list string) (λ _, None) []
    {[ "step_classes" := PyNum 7 ]}
  = Failed TypeError {[ "step_classes" := PyNum 7 ]} ∧
  Workflow_call (World := list string) (λ _, Some [None]) []
    {[ "step_classes" := PyNum 7 ]}
  = Failed AttributeError {[ "step_classes" := PyNum 7 ]}.
Proof. repeat split; reflexivity. Qed.

(** * The statements on the carts and the form *)

Lemma clear_expired_carts_compose_witness :
  ((16 * minute ≤ 40 * minute)%Z →
   clear_expired_carts true (40 * minute) event_1
     (clear_expired_carts true (16 * minute) event_1 bought_items)
   = clear_expired_carts true (40 * minute) event_1 bought_items) ∧
  clear_expired_carts true (40 * minute) event_2
    (clear_expired_carts true (16 * minute) event_1 bought_items)
  = clear_expired_carts true (16 * minute) event_1
      (clear_expired_carts true (40 * minute) event_2 bought_items).
Proof.
  apply (clear_expired_carts_compose true (16 * minute) (40 * minute)
           event_1 event_2 bought_items).
Defined.

(** After 16 minutes the first cart of event 1 has expired and the second
    has not; after 40 minutes both have. *)
Lemma clear_expired_carts_twice :
  length (clear_expired_carts true (16 * minute) event_1 bought_items) = 4 ∧
  length (clear_expired_carts true (40 * minute) event_1 bought_items) = 3 ∧
  length (clear_expired_carts true (40 * minute) event_2 bought_items) = 4.
Proof. repeat split; reflexivity. Qed.

Lemma ljust_pads_witness :
  (- 9223372036854775807 - 1 ≤ 5 ≤ 9223372036854775807)%Z ∧
  ((5 ≤ Z.of_nat (String.length "ab"))%Z ∨
   memory 5 = Plaintext.Allocated) ∧
  ∃ r,
    Plaintext.ljust 9223372036854775807 memory (Plaintext.PyStr "ab")
      (Plaintext.PyInt 5) (Plaintext.PyStr " ") = inr r ∧
    String.length r = String.length "ab" `max` Z.to_nat 5 ∧
    String.prefix "ab" r = true ∧
    (∀ i, String.length "ab" ≤ i < String.length r →
          String.get i r = Some (char_of 32)) ∧
    ((5 ≤ Z.of_nat (String.length "ab"))%Z → r = "ab") ∧
    Plaintext.ljust 9223372036854775807 memory (Plaintext.PyStr r)
      (Plaintext.PyInt 5) (Plaintext.PyStr " ") = inr r.
Proof.
  split; [lia|]. split; [right; reflexivity|].
  apply (ljust_pads 9223372036854775807 memory "ab" 5 (char_of 32));
    [lia|right; reflexivity].
Defined.

(** The filter on a few arguments: a padded string; a value without
    [ljust]; a width that is a string; a width beyond [sys.maxsize],
    with a fill of two characters; a fill of two characters; the two
    widths that the interpreter refuses. *)
Lemma ljust_examples :
  Plaintext.ljust 9223372036854775807 memory (Plaintext.PyStr "ab")
    (Plaintext.PyInt 5) (Plaintext.PyStr " ") = inr "ab   " ∧
  Plaintext.ljust 9223372036854775807 memory Plaintext.PyOther
    (Plaintext.PyInt 5) (Plaintext.PyStr " ") = inr "" ∧
  Plaintext.ljust 9223372036854775807 memory (Plaintext.PyStr "ab")
    (Plaintext.PyStr "5") (Plaintext.PyStr " ") = inr "" ∧
  Plaintext.ljust 9223372036854775807 memory (Plaintext.PyStr "ab")
    (Plaintext.PyInt 9223372036854775808) (Plaintext.PyStr "ab")
  = inl Plaintext.OverflowError ∧
  Plaintext.ljust 9223372036854775807 memory (Plaintext.PyStr "ab")
    (Plaintext.PyInt 5) (Plaintext.PyStr "ab") = inr "" ∧
  Plaintext.ljust 9223372036854775807 memory (Plaintext.PyStr "ab")
    (Plaintext.PyInt 4611686018427387904) (Plaintext.PyStr " ")
  = inl Plaintext.MemoryError ∧
  Plaintext.ljust 9223372036854775807 memory (Plaintext.PyStr "ab")
    (Plaintext.PyInt 9223372036854775807) (Plaintext.PyStr " ")
  = inl Plaintext.OverflowError.
Proof. repeat split; reflexivity. Qed.

Lemma save_dates_range_witness :
  (EventForm.date_min < 10)%Z ∧ (10 ≤ 12)%Z ∧ (12 ≤ EventForm.date_max)%Z ∧
  ∃ housing_dates dates created,
    EventForm.save_dates 10 12 [11%Z] = (inr (housing_dates, dates),
                                         [11%Z] ++ created) ∧
    NoDup created ∧
    (∀ d, d ∈ created ↔ (10 - 1 ≤ d ≤ 12)%Z ∧ d ∉ [11%Z]) ∧
    (∀ d, d ∈ housing_dates ↔ (10 - 1 ≤ d ≤ 12)%Z) ∧
    (∀ d, d ∈ dates ↔ (10 ≤ d ≤ 12)%Z) ∧
    (NoDup [11%Z] →
     NoDup ([11%Z] ++ created) ∧ NoDup housing_dates ∧ NoDup dates).
Proof.
  split; [reflexivity|]. split; [lia|].
  split; [unfold EventForm.date_max; lia|].
  apply (save_dates_range 10 12 [11%Z]);
    [reflexivity|lia|unfold EventForm.date_max; lia].
Defined.

(** An event that starts on the first day of the calendar; an event
    that ends three days before it starts; an event of three days with a
    row for the second in the table. *)
Lemma save_dates_examples :
  EventForm.save_dates 1 3 [] = (inl EventForm.OverflowError, []) ∧
  EventForm.save_dates 10 7 [5%Z] = (inl EventForm.KeyError, [5%Z]) ∧
  ∃ housing_dates dates table',
    EventForm.save_dates 10 12 [11%Z] = (inr (housing_dates, dates), table') ∧
    length housing_dates = 4 ∧ length dates = 3 ∧ length table' = 4.
Proof.
  split; [reflexivity|]. split; [reflexivity|].
  eexists _, _, _. split; [reflexivity|]. repeat split; vm_compute; reflexivity.
Qed.

Lemma clean_editors_addresses_witness :
  two_editors ≠ [] ∧
  match EventForm.clean_editors (char_of 44) is_blank has_at two_editors with
  | inr addresses =>
      length addresses
      = S (length (filter (λ c, c = char_of 44) two_editors)) ∧
      ∀ x, x ∈ addresses →
        has_at x = true ∧ (char_of 44 ∉ x) ∧
        (∀ c, head x = Some c → is_blank c = false) ∧
        (∀ c, last x = Some c → is_blank c = false)
  | inl e =>
      e = EventForm.ValidationError ∧
      ∃ piece, piece ∈ EventForm.split (char_of 44) two_editors ∧
               has_at (EventForm.strip is_blank piece) = false
  end.
Proof.
  assert (Hne : two_editors ≠ []) by (vm_compute; discriminate).
  split; [exact Hne|].
  exact (clean_editors_addresses (char_of 44) is_blank has_at two_editors Hne).
Defined.

Lemma clean_editors_blank_piece_witness :
  has_at [] = false ∧
  EventForm.clean_editors (char_of 44) is_blank has_at [] = inr [] ∧
  (two_editors ≠ [] →
   (∃ piece, piece ∈ EventForm.split (char_of 44) two_editors ∧
             forallb is_blank piece = true) →
   EventForm.clean_editors (char_of 44) is_blank has_at two_editors
   = inl EventForm.ValidationError) ∧
  EventForm.clean_editors (char_of 44) is_blank has_at
    (two_editors ++ [char_of 44])
  = inl EventForm.ValidationError ∧
  EventForm.clean_editors (char_of 44) is_blank has_at
    (char_of 44 :: two_editors)
  = inl EventForm.ValidationError.
Proof.
  split; [reflexivity|].
  apply (clean_editors_blank_piece (char_of 44) is_blank has_at two_editors).
  reflexivity.
Defined.

(** Two addresses with spaces around them are returned stripped; a comma
    after them makes the value invalid. *)
Lemma clean_editors_examples :
  EventForm.clean_editors (char_of 44) is_blank has_at two_editors
  = inr (String.list_ascii_of_string <$> ["a@b.org"; "c@d.org"]) ∧
  EventForm.clean_editors (char_of 44) is_blank has_at
    (two_editors ++ [char_of 44])
  = inl EventForm.ValidationError.
Proof. split; vm_compute; reflexivity. Qed.

(** * The active steps of the wizard with its second step switched off *)

Lemma active_steps_chain_witness :
  indexed_by_position abc ∧
  Workflow_active_steps w_a_off_b abc = (inr [0; 2], abc) ∧
  (∀ i a b, [0; 2] !! i = Some a → [0; 2] !! S i = Some b →
            (Step_next_step w_a_off_b a abc).1 = inr (Some b) ∧
            (Step_previous_step w_a_off_b b abc).1 = inr (Some a)) ∧
  (∀ a, head [0; 2] = Some a →
        (Step_previous_step w_a_off_b a abc).1 = inr None) ∧
  (∀ a, last [0; 2] = Some a →
        (Step_next_step w_a_off_b a abc).1 = inr None).
Proof.
  split; [exact abc_indexed|]. split; [reflexivity|].
  apply (active_steps_chain w_a_off_b abc [0; 2]);
    [exact abc_indexed|reflexivity].
Defined.

(** * The code proposed for a discount of event 1 *)

Lemma generated_code_unused_witness :
  (("" : string) = "" →
   (∀ code, DiscountForm.generated_code draws 5 discounts 1 ""
            = Some (Some code) →
      ∃ k, k ≤ 5 ∧ code = draws k ∧ ((1, code) ∉ discounts) ∧
           ∀ j, j < k → (1, draws j) ∈ discounts) ∧
   (∀ k, k ≤ 5 → (1, draws k) ∉ discounts →
      ∃ code, DiscountForm.generated_code draws 5 discounts 1 ""
              = Some (Some code))) ∧
  (("" : string) ≠ "" →
   DiscountForm.generated_code draws 5 discounts 1 "" = Some None).
Proof. apply (generated_code_unused draws 5 discounts 1 ""). Defined.

(** The third answer is proposed, although a discount of event 2 has it;
    one further call does not suffice; a discount with a code gets no
    proposal. *)
Lemma generated_code_examples :
  DiscountForm.generated_code draws 5 discounts 1 "" = Some (Some "CCCCCC") ∧
  DiscountForm.generated_code draws 1 discounts 1 "" = None ∧
  DiscountForm.generated_code draws 5 discounts 1 "SPRING" = Some None.
Proof. repeat split; reflexivity. Qed.

(** * The third step after a question to the second *)

Lemma questions_touch_no_later_step_witness :
  indexed_by_position abc ∧
  (∀ q, 1 < q →
     values (Step_is_completed 5 w_ab 1 abc).2 !! q = values abc !! q) ∧
  (∀ q, 1 ≤ q →
     values (Step_is_accessible 5 w_ab 1 abc).2 !! q = values abc !! q).
Proof.
  split; [exact abc_indexed|].
  apply (questions_touch_no_later_step 5 w_ab abc 1). exact abc_indexed.
Defined.

(** The probes after [is_completed()] on the second step: the hooks of
    the first two steps have run, those of the third have not. *)
Lemma is_completed_probes :
  (λ s, (completed_calls s, errors_calls s))
    <$> values (Step_is_completed 5 w_ab 1 abc).2
  = [(1, 1); (1, 1); (0, 0)].
Proof. reflexivity. Qed.
